(** * tune-in: playlist store and audio player session

    A shallow embedding of [services/playlist.ts] (the playlist store on
    top of AsyncStorage), of [contexts/AudioPlayerContext.tsx] (the
    provider that owns the [Audio.Sound] instance) and of the reordering
    handler of the playlist screen, followed by the properties of the
    playback / playlist subsystem.

    Conventions.
    - JavaScript numbers used as indices or as milliseconds are [Z];
      [findIndex] answers [-1] as in the source, [l[i]] is [at_index] and
      [%] is the truncating remainder [Z.rem].
    - Arrays are lists, read with stdpp's [!!] and written with
      [<[i:=x]>].
    - An optional or nullable value ([coverImage?: string],
      [DownloadedSong | null]) is an [option]; the truthiness of an
      optional string is [truthy].
    - The store functions run in a state-and-exception monad over a
      [World] that holds AsyncStorage, the clock, [Math.random] and the
      console; what the outside decides (a rejected call, the time, the
      random suffix) is read from scripts in the [World].
    - The provider's functions are programs of type [Prog], in which
      every [await] is a node: they can be run to completion one after
      the other ([run], [call]) or interleaved at their [await]s
      ([step], [exec]). *)

From Stdlib Require Import ZArith Lia.
From stdpp Require Import base option list strings pretty gmap.

Local Open Scope string_scope.
Local Open Scope list_scope.
Local Open Scope Z_scope.

(** ** Data model *)

(** [DownloadedSong] of [services/api.ts]. *)
Record DownloadedSong := mkSong {
  song_id : string;
  song_title : string;
  song_artist : string;
  song_album : string;
  song_coverImage : string;
  song_filePath : string;
  song_downloadDate : string;
}.

(** [Playlist] of [services/playlist.ts]. *)
Record Playlist := mkPlaylist {
  pl_id : string;
  pl_name : string;
  pl_songs : list DownloadedSong;
  pl_createdAt : string;
  pl_updatedAt : string;
  pl_coverImage : option string;
}.

#[global] Instance DownloadedSong_eq_dec : EqDecision DownloadedSong.
Proof. solve_decision. Defined.

#[global] Instance Playlist_eq_dec : EqDecision Playlist.
Proof. solve_decision. Defined.

(** Truthiness of a [string | undefined] value: [undefined] and the empty
    string are falsy. *)
Definition truthy (v : option string) : bool :=
  match v with
  | Some s => negb (String.eqb s EmptyString)
  | None => false
  end.

(** [Array.prototype.findIndex]: index of the first element satisfying the
    predicate, [-1] when there is none. *)
Definition findIndex {A} (P : A → Prop) `{!∀ x, Decision (P x)}
    (l : list A) : Z :=
  match list_find P l with
  | Some (i, _) => Z.of_nat i
  | None => -1
  end.

(** [l[i]]: [None] is [undefined], for an index outside the array. *)
Definition at_index {A} (l : list A) (i : Z) : option A :=
  if i <? 0 then None else l !! Z.to_nat i.

(** [Array.prototype.find]. *)
Definition find {A} (P : A → Prop) `{!∀ x, Decision (P x)}
    (l : list A) : option A :=
  snd <$> list_find P l.

(** [Array.prototype.some]. *)
Definition some {A} (P : A → Prop) `{!∀ x, Decision (P x)}
    (l : list A) : bool :=
  bool_decide (Exists P l).

(** ** The playlist store: [services/playlist.ts] *)

Module Store.

(** A JavaScript exception value; only its message is looked at. *)
Inductive Error := mkError (message : string).

#[global] Instance Error_eq_dec : EqDecision Error.
Proof. solve_decision. Defined.

(** A reading of the system clock: the value of [Date.now()] and the text
    [toISOString()] gives for the same instant. *)
Record Date := mkDate {
  getTime : Z;
  toISOString : string;
}.

Definition epoch : Date := mkDate 0 "1970-01-01T00:00:00.000Z".

(** Everything outside the module that its functions read or write.
    - [storage]: the collection kept under [PLAYLISTS_KEY], as
      [JSON.parse] gives it back; [None] when the key was never written.
    - [faults]: for each AsyncStorage call still to come, whether it is
      rejected ([Some e]) or goes through ([None]); an exhausted script
      means no further rejection.
    - [clock]: the successive readings of the system clock.
    - [entropy]: the successive values of
      [Math.random().toString(36).substr(2, 9)].
    - [console]: lines written by [console.error], newest first. *)
Record World := mkWorld {
  storage : option (list Playlist);
  faults : list (option Error);
  clock : list Date;
  entropy : list string;
  console : list string;
}.

Inductive Outcome (A : Type) :=
| Resolved (a : A)
| Rejected (e : Error).
Arguments Resolved {A} a.
Arguments Rejected {A} e.

(** A promise-returning function, run to completion. *)
Definition Async (A : Type) : Type := World → Outcome A * World.

#[global] Instance Async_ret : MRet Async :=
  λ A a w, (Resolved a, w).

#[global] Instance Async_bind : MBind Async :=
  λ A B k m w,
    match m w with
    | (Resolved a, w') => k a w'
    | (Rejected e, w') => (Rejected e, w')
    end.

Definition throw {A} (e : Error) : Async A :=
  λ w, (Rejected e, w).

(** [try { body } catch (error) { handler }]. *)
Definition try_catch {A} (body : Async A) (handler : Error → Async A)
    : Async A :=
  λ w,
    match body w with
    | (Resolved a, w') => (Resolved a, w')
    | (Rejected e, w') => handler e w'
    end.

Definition console_error (line : string) : Async unit :=
  λ w, (Resolved tt,
        mkWorld (storage w) (faults w) (clock w) (entropy w)
                (line :: console w)).

(** [new Date()]: takes the next reading of the clock. *)
Definition new_Date : Async Date :=
  λ w, (Resolved (hd epoch (clock w)),
        mkWorld (storage w) (faults w) (tl (clock w)) (entropy w)
                (console w)).

(** [Math.random().toString(36).substr(2, 9)]. *)
Definition random_suffix : Async string :=
  λ w, (Resolved (hd EmptyString (entropy w)),
        mkWorld (storage w) (faults w) (clock w) (tl (entropy w))
                (console w)).

(** [AsyncStorage.getItem(PLAYLISTS_KEY)] followed by [JSON.parse]. *)
Definition getItem : Async (option (list Playlist)) :=
  λ w,
    let w' := mkWorld (storage w) (tl (faults w)) (clock w) (entropy w)
                      (console w) in
    match hd None (faults w) with
    | Some e => (Rejected e, w')
    | None => (Resolved (storage w), w')
    end.

(** [AsyncStorage.setItem(PLAYLISTS_KEY, JSON.stringify(v))]. *)
Definition setItem (v : list Playlist) : Async unit :=
  λ w,
    match hd None (faults w) with
    | Some e =>
        (Rejected e,
         mkWorld (storage w) (tl (faults w)) (clock w) (entropy w)
                 (console w))
    | None =>
        (Resolved tt,
         mkWorld (Some v) (tl (faults w)) (clock w) (entropy w)
                 (console w))
    end.

(** Get all playlists. *)
Definition getPlaylists : Async (list Playlist) :=
  try_catch
    (playlistsJson ← getItem;
     mret (match playlistsJson with
           | Some playlists => playlists
           | None => []
           end))
    (λ error,
       console_error "Error getting playlists:";;
       mret []).

(** Save a playlist. *)
Definition savePlaylist (playlist : Playlist) : Async unit :=
  try_catch
    (playlists ← getPlaylists;
     let existingIndex :=
       findIndex (λ p, pl_id p = pl_id playlist) playlists in
     let playlists' :=
       if existingIndex >? -1
       then <[Z.to_nat existingIndex := playlist]> playlists
       else playlists ++ [playlist] in
     setItem playlists')
    (λ error,
       console_error "Error saving playlist:";;
       throw error).

(** The [id] template literal of [createPlaylist]. *)
Definition playlist_id_of (now : Z) (suffix : string) : string :=
  "playlist_" +:+ pretty now +:+ "_" +:+ suffix.

(** [Date.now()]. *)
Definition Date_now : Async Z :=
  d ← new_Date; mret (getTime d).

(** Create a new playlist. *)
Definition createPlaylist (name : string) : Async Playlist :=
  now ← Date_now;
  suffix ← random_suffix;
  created ← new_Date;
  updated ← new_Date;
  let playlist :=
    {| pl_id := playlist_id_of now suffix;
       pl_name := name;
       pl_songs := [];
       pl_createdAt := toISOString created;
       pl_updatedAt := toISOString updated;
       pl_coverImage := None |} in
  savePlaylist playlist;;
  mret playlist.

(** Delete a playlist. *)
Definition deletePlaylist (playlistId : string) : Async unit :=
  try_catch
    (playlists ← getPlaylists;
     let updatedPlaylists :=
       filter (λ p, pl_id p ≠ playlistId) playlists in
     setItem updatedPlaylists)
    (λ error,
       console_error "Error deleting playlist:";;
       throw error).

(** [playlists[playlistIndex]], whose properties are read next: on
    [undefined] that raises a [TypeError]. *)
Definition defined (playlist : option Playlist) : Async Playlist :=
  match playlist with
  | Some playlist => mret playlist
  | None => throw (mkError "TypeError")
  end.

(** Add song to playlist. *)
Definition addSongToPlaylist (playlistId : string) (song : DownloadedSong)
    : Async unit :=
  try_catch
    (playlists ← getPlaylists;
     let playlistIndex :=
       findIndex (λ p, pl_id p = playlistId) playlists in
     if playlistIndex =? -1 then throw (mkError "Playlist not found")
     else
       playlist ← defined (at_index playlists playlistIndex);
       if negb (some (λ s, song_id s = song_id song) (pl_songs playlist))
       then
         let songs := pl_songs playlist ++ [song] in
         now ← new_Date;
         let coverImage :=
           if negb (truthy (pl_coverImage playlist))
              && (0 <? Z.of_nat (length songs))
           then song_coverImage <$> head songs
           else pl_coverImage playlist in
         savePlaylist
           {| pl_id := pl_id playlist;
              pl_name := pl_name playlist;
              pl_songs := songs;
              pl_createdAt := pl_createdAt playlist;
              pl_updatedAt := toISOString now;
              pl_coverImage := coverImage |}
       else throw (mkError "Song already exists in playlist"))
    (λ error,
       console_error "Error adding song to playlist:";;
       throw error).

(** Remove song from playlist. *)
Definition removeSongFromPlaylist (playlistId songId : string)
    : Async unit :=
  try_catch
    (playlists ← getPlaylists;
     let playlistIndex :=
       findIndex (λ p, pl_id p = playlistId) playlists in
     if playlistIndex =? -1 then throw (mkError "Playlist not found")
     else
       playlist ← defined (at_index playlists playlistIndex);
       let songs := filter (λ s, song_id s ≠ songId) (pl_songs playlist) in
       now ← new_Date;
       let coverImage :=
         if 0 <? Z.of_nat (length songs)
         then song_coverImage <$> head songs
         else None in
       savePlaylist
         {| pl_id := pl_id playlist;
            pl_name := pl_name playlist;
            pl_songs := songs;
            pl_createdAt := pl_createdAt playlist;
            pl_updatedAt := toISOString now;
            pl_coverImage := coverImage |})
    (λ error,
       console_error "Error removing song from playlist:";;
       throw error).

(** Get a specific playlist; [None] is the [null] of the source. *)
Definition getPlaylist (playlistId : string) : Async (option Playlist) :=
  try_catch
    (playlists ← getPlaylists;
     mret (find (λ p, pl_id p = playlistId) playlists))
    (λ error,
       console_error "Error getting playlist:";;
       mret None).

(** *** Notions used in the statements *)

(** The collection as the next successful read gives it. *)
Definition stored (w : World) : list Playlist := default [] (storage w).

(** The world once one more AsyncStorage call has been answered. *)
Definition after_io (w : World) : World :=
  mkWorld (storage w) (tl (faults w)) (clock w) (entropy w) (console w).

(** The world once [console.error] has written [line]. *)
Definition logged (line : string) (w : World) : World :=
  mkWorld (storage w) (faults w) (clock w) (entropy w) (line :: console w).

(** The world once [v] has been written under [PLAYLISTS_KEY]. *)
Definition written (v : list Playlist) (w : World) : World :=
  mkWorld (Some v) (faults w) (clock w) (entropy w) (console w).

(** The world once the clock has been read. *)
Definition after_clock (w : World) : World :=
  mkWorld (storage w) (faults w) (tl (clock w)) (entropy w) (console w).

(** The playlist the store functions work on: the first one stored under
    the given id. *)
Definition lookup_playlist (playlistId : string) (l : list Playlist)
    : option Playlist :=
  find (λ p, pl_id p = playlistId) l.

(** The collection [savePlaylist] writes back. *)
Definition upsert (playlists : list Playlist) (playlist : Playlist)
    : list Playlist :=
  let existingIndex :=
    findIndex (λ p, pl_id p = pl_id playlist) playlists in
  if existingIndex >? -1
  then <[Z.to_nat existingIndex := playlist]> playlists
  else playlists ++ [playlist].

(** What [getPlaylists] answers, and the world it leaves. *)
Definition read (w : World) : list Playlist * World :=
  match hd None (faults w) with
  | None => (stored w, after_io w)
  | Some _ => ([], logged "Error getting playlists:" (after_io w))
  end.

(** The record [addSongToPlaylist] hands to [savePlaylist]. *)
Definition added (p : Playlist) (song : DownloadedSong) (now : string)
    : Playlist :=
  {| pl_id := pl_id p;
     pl_name := pl_name p;
     pl_songs := pl_songs p ++ [song];
     pl_createdAt := pl_createdAt p;
     pl_updatedAt := now;
     pl_coverImage :=
       if negb (truthy (pl_coverImage p))
          && (0 <? Z.of_nat (length (pl_songs p ++ [song])))
       then song_coverImage <$> head (pl_songs p ++ [song])
       else pl_coverImage p |}.

(** The record [removeSongFromPlaylist] hands to [savePlaylist]. *)
Definition removed (p : Playlist) (songId : string) (now : string)
    : Playlist :=
  let songs := filter (λ s, song_id s ≠ songId) (pl_songs p) in
  {| pl_id := pl_id p;
     pl_name := pl_name p;
     pl_songs := songs;
     pl_createdAt := pl_createdAt p;
     pl_updatedAt := now;
     pl_coverImage :=
       if 0 <? Z.of_nat (length songs)
       then song_coverImage <$> head songs
       else None |}.

(** A rejection passes through the [catch] block of the caller, which
    logs and throws it again. *)
Definition rethrown (line : string) (r : Outcome unit * World)
    : Outcome unit * World :=
  match r with
  | (Resolved a, w) => (Resolved a, w)
  | (Rejected e, w) => (Rejected e, logged line w)
  end.

(** [song.id] is already among the songs of [p]. *)
Definition has_song (p : Playlist) (songId : string) : Prop :=
  ∃ s, s ∈ pl_songs p ∧ song_id s = songId.

(** The world after the clock and [Math.random] readings of
    [createPlaylist]. *)
Definition after_readings (w : World) : World :=
  mkWorld (storage w) (faults w) (tl (tl (tl (clock w)))) (tl (entropy w))
          (console w).

(** The record [createPlaylist] builds. *)
Definition fresh_playlist (name : string) (w : World) : Playlist :=
  {| pl_id := playlist_id_of (getTime (hd epoch (clock w)))
                (hd EmptyString (entropy w));
     pl_name := name;
     pl_songs := [];
     pl_createdAt := toISOString (hd epoch (tl (clock w)));
     pl_updatedAt := toISOString (hd epoch (tl (tl (clock w))));
     pl_coverImage := None |}.

(** The cover of a playlist is the cover of its first song, and is unset
    when it has no song. *)
Definition cover_inv (p : Playlist) : Prop :=
  pl_coverImage p = song_coverImage <$> head (pl_songs p).

End Store.

(** ** The audio player session: [contexts/AudioPlayerContext.tsx] *)

Module Player.

(** An [Audio.Sound] object, named by the order of its creation. *)
Definition Sound := nat.

(** What the audio runtime holds for a loaded sound. *)
Record SoundStatus := mkStatus {
  uri : string;
  nativePlaying : bool;
  positionMillis : Z;
}.

(** The audio runtime (expo-av), as far as the provider drives it.
    - [loaded]: the audio resources that are open.
    - [created]: how many sounds were created so far; the next name.
    - [rejections]: for each runtime call still to come, whether its
      promise is rejected; an exhausted script means no rejection. *)
Record Runtime := mkRuntime {
  loaded : gmap Sound SoundStatus;
  created : nat;
  rejections : list bool;
}.

(** The [useState] cells of [AudioPlayerProvider]. *)
Record PlayerState := mkState {
  currentSong : option DownloadedSong;
  isPlaying : bool;
  isLoading : bool;
  playbackInstance : option Sound;
  duration : Z;
  position : Z;
  playlist : list DownloadedSong;
  error : option string;
  playlistSource : string;
}.

(** The initial values given to [useState]. *)
Definition initialState : PlayerState :=
  {| currentSong := None; isPlaying := false; isLoading := false;
     playbackInstance := None; duration := 0; position := 0;
     playlist := []; error := None; playlistSource := "library" |}.

(** The synchronous statements of the provider's functions: the state
    setters and [console.error]. *)
Inductive Sync :=
| setCurrentSong (v : option DownloadedSong)
| setIsPlaying (v : bool)
| setIsLoading (v : bool)
| setPlaybackInstance (v : option Sound)
| setDuration (v : Z)
| setPosition (v : Z)
| setPlaylist (v : list DownloadedSong)
| setError (v : option string)
| setPlaylistSource (v : string)
| console_error (line : string).

(** The awaited calls on a sound. *)
Inductive Call :=
| unloadAsync (s : Sound)
| stopAsync (s : Sound)
| pauseAsync (s : Sound)
| playAsync (s : Sound)
| setPositionAsync (s : Sound) (ms : Z).

(** The body of an [async] function, in continuation form.  An awaited
    call carries what follows it and the [catch] block that encloses it.
    [createAsync] is [await Audio.Sound.createAsync({ uri }, { shouldPlay })],
    whose continuation receives the new sound. *)
Inductive Prog :=
| Done
| Do (s : Sync) (k : Prog)
| Await (c : Call) (k : Prog) (catch : Prog)
| createAsync (uri : string) (shouldPlay : bool) (k : Sound → Prog)
    (catch : Prog).

Declare Scope prog_scope.
Delimit Scope prog_scope with prog.
Bind Scope prog_scope with Prog.
Notation "s ;; k" := (Do s k%prog)
  (at level 100, k at level 200, right associativity) : prog_scope.
Local Open Scope prog_scope.

(** *** The provider's functions

    Each function is a closure of the render that created it: the state
    variables it reads ([playbackInstance], [duration], [playlist],
    [currentSong]) are those of that render, the argument [snap], while
    the setters it calls act on the live state.  The cells [position],
    [duration] and [isLoading] are otherwise fed by the status callback
    of the runtime, which the properties below do not involve. *)

Definition playSong_catch : Prog :=
  console_error "Error playing song:";;
  setError (Some "Failed to play song");;
  setIsLoading false;;
  setCurrentSong None;;
  setIsPlaying false;;
  Done.

(** [playSong] up to the point where [song] is first used; [load] is the
    rest of the [try] block. *)
Definition playSong_with (snap : PlayerState) (load : Prog) : Prog :=
  setIsLoading true;;
  setError None;;
  match playbackInstance snap with
  | Some instance =>
      (* Unload previous song if exists *)
      Await (unloadAsync instance)
        (setPlaybackInstance None;; load)
        playSong_catch
  | None => load
  end.

Definition playSong (snap : PlayerState) (song : DownloadedSong) : Prog :=
  playSong_with snap
    ((* Load and play new song *)
     createAsync (song_filePath song) true
       (λ sound,
          setPlaybackInstance (Some sound);;
          setCurrentSong (Some song);;
          setIsPlaying true;;
          Done)
       playSong_catch).

(** [playSong(undefined)]: reading [song.filePath] raises a [TypeError]
    inside the [try] block. *)
Definition playSong_undefined (snap : PlayerState) : Prog :=
  playSong_with snap playSong_catch.

Definition pauseSong (snap : PlayerState) : Prog :=
  match playbackInstance snap with
  | Some instance =>
      Await (pauseAsync instance)
        Done
        (console_error "Error pausing song:";;
         setError (Some "Failed to pause song");;
         Done)
  | None => Done
  end.

Definition resumeSong (snap : PlayerState) : Prog :=
  match playbackInstance snap with
  | Some instance =>
      Await (playAsync instance)
        Done
        (console_error "Error resuming song:";;
         setError (Some "Failed to resume song");;
         Done)
  | None => Done
  end.

Definition seekTo (snap : PlayerState) (position : Z) : Prog :=
  match playbackInstance snap with
  | None => Done
  | Some instance =>
      (* Validate position is within bounds *)
      let position :=
        if position <? 0 then 0
        else if position >? duration snap then duration snap
        else position in
      Await (setPositionAsync instance position)
        Done
        (console_error "Error seeking:";;
         setError (Some "Failed to seek");;
         Done)
  end.

Definition getCurrentSongIndex (snap : PlayerState) : Z :=
  match currentSong snap with
  | None => -1
  | Some current =>
      if Z.of_nat (length (playlist snap)) =? 0 then -1
      else findIndex (λ song, song_id song = song_id current)
             (playlist snap)
  end.

(** [playSong(playlist[i])]. *)
Definition playSong_at (snap : PlayerState) (i : Z) : Prog :=
  match at_index (playlist snap) i with
  | Some song => playSong snap song
  | None => playSong_undefined snap
  end.

Definition playNextSong (snap : PlayerState) : Prog :=
  if Z.of_nat (length (playlist snap)) =? 0 then Done
  else
    let currentIndex := getCurrentSongIndex snap in
    if currentIndex =? -1 then Done
    else
      let nextIndex :=
        Z.rem (currentIndex + 1) (Z.of_nat (length (playlist snap))) in
      playSong_at snap nextIndex.

Definition playPreviousSong (snap : PlayerState) : Prog :=
  if Z.of_nat (length (playlist snap)) =? 0 then Done
  else
    let currentIndex := getCurrentSongIndex snap in
    if currentIndex =? -1 then Done
    else
      let previousIndex :=
        Z.rem (currentIndex - 1 + Z.of_nat (length (playlist snap)))
              (Z.of_nat (length (playlist snap))) in
      playSong_at snap previousIndex.

(** The statements of [stopSong] and [stopPlayback] after the [if]. *)
Definition clear_current : Prog :=
  setCurrentSong None;;
  setIsPlaying false;;
  setPosition 0;;
  setDuration 0;;
  Done.

Definition stopSong (snap : PlayerState) : Prog :=
  let catch :=
    (console_error "Error stopping song:";;
     setError (Some "Failed to stop song");;
     Done) in
  match playbackInstance snap with
  | Some instance =>
      Await (stopAsync instance)
        (Await (unloadAsync instance)
           (setPlaybackInstance None;; clear_current)
           catch)
        catch
  | None => clear_current
  end.

(** Stop the current song playback and clear the current song but keep
    the playlist intact for future use. *)
Definition stopPlayback (snap : PlayerState) : Prog :=
  let catch :=
    (console_error "Error stopping playback:";;
     setError (Some "Failed to stop playback");;
     Done) in
  match playbackInstance snap with
  | Some instance =>
      Await (stopAsync instance)
        (Await (unloadAsync instance)
           (setPlaybackInstance None;; clear_current)
           catch)
        catch
  | None => clear_current
  end.

(** Simple playlist setter. *)
Definition setPlaylistAndUpdateCurrent (songs : list DownloadedSong)
    : Prog :=
  setPlaylist songs;; Done.

(** *** Running the functions *)

(** Effect of a setter on the state cells. *)
Definition update (s : Sync) (st : PlayerState) : PlayerState :=
  {| currentSong := match s with setCurrentSong v => v | _ => currentSong st end;
     isPlaying := match s with setIsPlaying v => v | _ => isPlaying st end;
     isLoading := match s with setIsLoading v => v | _ => isLoading st end;
     playbackInstance :=
       match s with setPlaybackInstance v => v | _ => playbackInstance st end;
     duration := match s with setDuration v => v | _ => duration st end;
     position := match s with setPosition v => v | _ => position st end;
     playlist := match s with setPlaylist v => v | _ => playlist st end;
     error := match s with setError v => v | _ => error st end;
     playlistSource :=
       match s with setPlaylistSource v => v | _ => playlistSource st end |}.

Definition unload (s : Sound) (rt : Runtime) : Runtime :=
  {| loaded := delete s (loaded rt);
     created := created rt;
     rejections := rejections rt |}.

(** The effect with dependency [[playbackInstance]]: when the instance
    changes, the clean-up of the previous render unloads the instance that
    render had.  It is run as soon as the cell changes. *)
Definition cleanup (old new : option Sound) (rt : Runtime) : Runtime :=
  match old with
  | Some instance => if decide (old = new) then rt else unload instance rt
  | None => rt
  end.

(** The provider together with the runtime it drives. *)
Record Session := mkSession {
  state : PlayerState;
  runtime : Runtime;
  console : list string;
}.

Definition apply (s : Sync) (σ : Session) : Session :=
  {| state := update s (state σ);
     runtime :=
       match s with
       | setPlaybackInstance v =>
           cleanup (playbackInstance (state σ)) v (runtime σ)
       | _ => runtime σ
       end;
     console :=
       match s with
       | console_error line => line :: console σ
       | _ => console σ
       end |}.

(** The next entry of the rejection script is used up. *)
Definition next_call (rt : Runtime) : Runtime :=
  {| loaded := loaded rt;
     created := created rt;
     rejections := tl (rejections rt) |}.

(** A call on a sound that has to be loaded: it is rejected otherwise. *)
Definition on_loaded (s : Sound) (f : SoundStatus → SoundStatus)
    (rt : Runtime) : bool * Runtime :=
  match loaded rt !! s with
  | Some status =>
      (true, {| loaded := <[s := f status]> (loaded rt);
                created := created rt;
                rejections := rejections rt |})
  | None => (false, rt)
  end.

(** The runtime settles an awaited call: [true] when the promise is
    fulfilled.  Unloading a sound that is not loaded is fulfilled. *)
Definition settle (c : Call) (rt : Runtime) : bool * Runtime :=
  if hd false (rejections rt) then (false, next_call rt)
  else
    match c with
    | unloadAsync s => (true, unload s (next_call rt))
    | stopAsync s =>
        on_loaded s (λ status, mkStatus (uri status) false 0) (next_call rt)
    | pauseAsync s =>
        on_loaded s
          (λ status, mkStatus (uri status) false (positionMillis status))
          (next_call rt)
    | playAsync s =>
        on_loaded s
          (λ status, mkStatus (uri status) true (positionMillis status))
          (next_call rt)
    | setPositionAsync s ms =>
        on_loaded s
          (λ status, mkStatus (uri status) (nativePlaying status) ms)
          (next_call rt)
    end.

(** The runtime settles [Audio.Sound.createAsync]: a new sound is open. *)
Definition settle_create (uri : string) (shouldPlay : bool) (rt : Runtime)
    : option Sound * Runtime :=
  if hd false (rejections rt) then (None, next_call rt)
  else
    let sound := created rt in
    (Some sound,
     {| loaded := <[sound := mkStatus uri shouldPlay 0]> (loaded rt);
        created := S sound;
        rejections := tl (rejections rt) |}).

Definition with_runtime (σ : Session) (rt : Runtime) : Session :=
  {| state := state σ; runtime := rt; console := console σ |}.

(** A function run to completion with nothing else in between. *)
Fixpoint run (p : Prog) (σ : Session) : Session :=
  match p with
  | Done => σ
  | Do s k => run k (apply s σ)
  | Await c k catch =>
      let (ok, rt) := settle c (runtime σ) in
      run (if ok then k else catch) (with_runtime σ rt)
  | createAsync uri shouldPlay k catch =>
      match settle_create uri shouldPlay (runtime σ) with
      | (Some sound, rt) => run (k sound) (with_runtime σ rt)
      | (None, rt) => run catch (with_runtime σ rt)
      end
  end.

(** Calling a function of the latest render and letting it finish. *)
Definition call (f : PlayerState → Prog) (σ : Session) : Session :=
  run (f (state σ)) σ.

(** *** Calls that overlap

    JavaScript runs a function until its next [await]; other calls may
    start, and other promises settle, before it goes on.  A configuration
    holds the session and the bodies of the calls made so far, each at
    its current point. *)

Record Config := mkConfig {
  session : Session;
  pool : list Prog;
}.

(** The statements up to the next [await] (or the end). *)
Fixpoint advance (p : Prog) (σ : Session) : Prog * Session :=
  match p with
  | Do s k => advance k (apply s σ)
  | _ => (p, σ)
  end.

Inductive Event :=
| Invoke (f : PlayerState → Prog)   (* a handler calls [f] of the latest render *)
| Settle (i : nat)                  (* the runtime settles what call [i] awaits *)
| Resume (i : nat).                 (* call [i] goes on to its next [await] *)

Definition step (e : Event) (c : Config) : option Config :=
  match e with
  | Invoke f =>
      let (p, σ) := advance (f (state (session c))) (session c) in
      Some (mkConfig σ (pool c ++ [p]))
  | Settle i =>
      match pool c !! i with
      | Some (Await a k catch) =>
          let (ok, rt) := settle a (runtime (session c)) in
          Some (mkConfig (with_runtime (session c) rt)
                  (<[i := if ok then k else catch]> (pool c)))
      | Some (createAsync uri shouldPlay k catch) =>
          match settle_create uri shouldPlay (runtime (session c)) with
          | (Some sound, rt) =>
              Some (mkConfig (with_runtime (session c) rt)
                      (<[i := k sound]> (pool c)))
          | (None, rt) =>
              Some (mkConfig (with_runtime (session c) rt)
                      (<[i := catch]> (pool c)))
          end
      | _ => None
      end
  | Resume i =>
      match pool c !! i with
      | Some p =>
          let (p', σ) := advance p (session c) in
          Some (mkConfig σ (<[i := p']> (pool c)))
      | None => None
      end
  end.

(** A schedule, event by event; [None] when an event cannot happen. *)
Fixpoint exec (es : list Event) (c : Config) : option Config :=
  match es with
  | [] => Some c
  | e :: es' =>
      match step e c with
      | Some c' => exec es' c'
      | None => None
      end
  end.

(** The number of audio resources that are open. *)
Definition open_resources (c : Config) : nat :=
  size (loaded (runtime (session c))).

(** *** Notions used in the statements *)

(** The queue holds no entry for the current song: it is empty, or there
    is no current song, or no entry has the id of the current song. *)
Definition not_in_queue (snap : PlayerState) : Prop :=
  playlist snap = []
  ∨ ∀ current, currentSong snap = Some current →
      ∀ song, song ∈ playlist snap → song_id song ≠ song_id current.

(** The position [seekTo] asks the sound to take. *)
Definition clamped (snap : PlayerState) (target : Z) : Z :=
  if target <? 0 then 0
  else if target >? duration snap then duration snap
  else target.

(** The runtime answers the calls of [stopSong]: there is no instance, or
    the instance is loaded and the next two calls are not rejected. *)
Definition stop_goes_through (σ : Session) : Prop :=
  ∀ instance, playbackInstance (state σ) = Some instance →
    is_Some (loaded (runtime σ) !! instance)
    ∧ hd false (rejections (runtime σ)) = false
    ∧ hd false (tl (rejections (runtime σ))) = false.

(** What [stopSong] and [stopPlayback] leave behind. *)
Definition stopped (σ σ' : Session) : Prop :=
  playbackInstance (state σ') = None
  ∧ currentSong (state σ') = None
  ∧ isPlaying (state σ') = false
  ∧ position (state σ') = 0
  ∧ duration (state σ') = 0
  ∧ (∀ instance, playbackInstance (state σ) = Some instance →
       loaded (runtime σ') !! instance = None).

Definition queue_kept (σ σ' : Session) : Prop :=
  playlist (state σ') = playlist (state σ)
  ∧ playlistSource (state σ') = playlistSource (state σ).

(** The [createAsync] step of [playSong song], and what follows it once
    the sound is there. *)
Definition after_load (song : DownloadedSong) (sound : Sound) : Prog :=
  setPlaybackInstance (Some sound);;
  setCurrentSong (Some song);;
  setIsPlaying true;;
  Done.

Definition loading (song : DownloadedSong) : Prog :=
  createAsync (song_filePath song) true (after_load song) playSong_catch.

(** Every call made so far has finished. *)
Definition quiescent (c : Config) : Prop :=
  Forall (λ p, p = Done) (pool c).

(** The configurations reached when [playSong] is only called once the
    calls before it have finished; the runtime may reject any call. *)
Inductive sequential : Config → Prop :=
| sequential_mounted script :
    sequential
      (mkConfig (mkSession initialState (mkRuntime ∅ 0%nat script) []) [])
| sequential_invoke c c' song :
    sequential c → quiescent c →
    step (Invoke (λ snap, playSong snap song)) c = Some c' →
    sequential c'
| sequential_settle c c' i :
    sequential c → step (Settle i) c = Some c' → sequential c'
| sequential_resume c c' i :
    sequential c → step (Resume i) c = Some c' → sequential c'.

(** The only resource that may be open is the instance the provider
    holds. *)
Definition idle (σ : Session) : Prop :=
  ∀ s, is_Some (loaded (runtime σ) !! s) →
       playbackInstance (state σ) = Some s.

(** Where a call of [playSong] stands, with what is open at that point. *)
Inductive phase (σ : Session) : Prog → Prop :=
| phase_done : idle σ → phase σ Done
| phase_unloading instance song :
    playbackInstance (state σ) = Some instance → idle σ →
    phase σ (Await (unloadAsync instance)
               (setPlaybackInstance None;; loading song) playSong_catch)
| phase_cleared song :
    loaded (runtime σ) = ∅ →
    phase σ (setPlaybackInstance None;; loading song)
| phase_loading song :
    loaded (runtime σ) = ∅ → phase σ (loading song)
| phase_loaded song sound :
    (∀ s, is_Some (loaded (runtime σ) !! s) → s = sound) →
    phase σ (after_load song sound)
| phase_failed : idle σ → phase σ playSong_catch.

(** All calls but the last have finished, and the last is in a phase. *)
Definition one_at_a_time (c : Config) : Prop :=
  (pool c = [] ∧ idle (session c))
  ∨ ∃ finished p, pool c = finished ++ [p]
      ∧ Forall (λ q, q = Done) finished
      ∧ phase (session c) p.

End Player.

(** ** Reordering in the playlist screen: [onDragEnd] *)

Module PlaylistDetail.

(** [songs.splice(start, 1)] on a copy: the remaining array. *)
Definition splice_remove {A} (start : nat) (l : list A) : list A :=
  take start l ++ drop (S start) l.

(** [songs.splice(start, 0, x)] on a copy: [x] is put at [start], or at
    the end when [start] is past it. *)
Definition splice_insert {A} (start : nat) (x : A) (l : list A) : list A :=
  take start l ++ x :: drop start l.

(** The array [newSongs] of [onDragEnd].  [from] and [to] are the
    positions the drag list reports.  When [from] is not a position of
    [songs] the source moves [undefined], which is no song: [None]. *)
Definition newSongs (songs : list DownloadedSong) (from to : nat)
    : option (list DownloadedSong) :=
  movedSong ← songs !! from;
  Some (splice_insert to movedSong (splice_remove from songs)).

(** The screen's [playlist] state after [onDragEnd({ from, to })]:
    [playlist] is the value the handler closes over, [prev] the one the
    state updater receives. *)
Definition onDragEnd (playlist prev : Playlist) (from to : nat)
    : option Playlist :=
  if decide (from ≠ to) then
    songs ← newSongs (pl_songs playlist) from to;
    Some {| pl_id := pl_id prev;
            pl_name := pl_name prev;
            pl_songs := songs;
            pl_createdAt := pl_createdAt prev;
            pl_updatedAt := pl_updatedAt prev;
            pl_coverImage := pl_coverImage prev |}
  else Some prev.

(** Modelled from the spec: the position, in the sequence before the
    move, of the song found at position [i] after it.  The song at
    [fromIndex] goes to [toIndex]; the songs between the two positions
    shift by one towards [fromIndex]; every other song stays. *)
Definition source_position (fromIndex toIndex i : nat) : nat :=
  if decide (i = toIndex) then fromIndex
  else if decide (fromIndex ≤ i < toIndex)%nat then S i
  else if decide (toIndex < i ≤ fromIndex)%nat then pred i
  else i.

(** Modelled from the spec: [reorderSongsInPlaylist] of
    [services/playlist.ts], which the screen imports and whose body is
    not part of the sources at hand.  It fails with "not found" when the
    playlist is absent, does nothing when the two indices are equal,
    requires both to be positions of [songs], moves the song and
    refreshes [updatedAt]. *)
Definition reorderSongsInPlaylist (playlistId : string)
    (fromIndex toIndex : nat) : Store.Async unit :=
  Store.try_catch
    (playlists ← Store.getPlaylists;
     let playlistIndex :=
       findIndex (λ p, pl_id p = playlistId) playlists in
     if playlistIndex =? -1
     then Store.throw (Store.mkError "Playlist not found")
     else
       playlist ← Store.defined (at_index playlists playlistIndex);
       if decide (fromIndex = toIndex) then mret tt
       else
         let n := length (pl_songs playlist) in
         if decide (fromIndex < n ∧ toIndex < n)%nat then
           let songs :=
             omap (λ i, pl_songs playlist !! source_position fromIndex toIndex i)
                  (seq 0 n) in
           now ← Store.new_Date;
           Store.savePlaylist
             {| pl_id := pl_id playlist;
                pl_name := pl_name playlist;
                pl_songs := songs;
                pl_createdAt := pl_createdAt playlist;
                pl_updatedAt := Store.toISOString now;
                pl_coverImage := pl_coverImage playlist |}
         else Store.throw (Store.mkError "Invalid index"))
    (λ error,
       Store.console_error "Error reordering songs:";;
       Store.throw error).

End PlaylistDetail.

(** ** Sample data *)

Module Samples.
Import Store Player.

Definition song1 : DownloadedSong :=
  mkSong "s1" "First" "Artist" "Album" "c1.jpg" "file:///songs/s1.mp3"
         "2024-01-01T00:00:00.000Z".
Definition song2 : DownloadedSong :=
  mkSong "s2" "Second" "Artist" "Album" "c2.jpg" "file:///songs/s2.mp3"
         "2024-01-01T00:00:00.000Z".

Definition road_trip : Playlist :=
  mkPlaylist "playlist_1704067200000_k3x9q2m1z" "Road Trip" [song1]
             "2024-01-01T00:00:00.000Z" "2024-01-01T00:00:00.000Z"
             (Some "c1.jpg").

Definition june : Date := mkDate 1717200000000 "2024-06-01T00:00:00.000Z".

(** One stored playlist, a clock that reads 1 June 2024, no fault. *)
Definition quiet_world : World :=
  mkWorld (Some [road_trip]) [] [june; june; june] ["abcdefghi"] [].

(** The same store, with the next AsyncStorage call rejected. *)
Definition failing_read : World :=
  mkWorld (Some [road_trip]) [Some (mkError "storage unavailable")]
          [june; june; june] ["abcdefghi"] [].

(** The same store, with the second AsyncStorage call rejected. *)
Definition failing_write : World :=
  mkWorld (Some [road_trip]) [None; Some (mkError "disk full")]
          [june; june; june] ["abcdefghi"] [].

(** The same store, with the third AsyncStorage call rejected. *)
Definition failing_third : World :=
  mkWorld (Some [road_trip]) [None; None; Some (mkError "disk full")]
          [june; june; june] ["abcdefghi"] [].

(** The store once [song1] was removed from [road_trip]. *)
Definition emptied_world : World :=
  (removeSongFromPlaylist (pl_id road_trip) "s1" quiet_world).2.


Definition song3 : DownloadedSong :=
  mkSong "s3" "Third" "Artist" "Album" "c3.jpg" "file:///songs/s3.mp3"
         "2024-01-01T00:00:00.000Z".

Definition song4 : DownloadedSong :=
  mkSong "s4" "Fourth" "Artist" "Album" "c4.jpg" "file:///songs/s4.mp3"
         "2024-01-01T00:00:00.000Z".

Definition mixtape : Playlist :=
  mkPlaylist "playlist_1704067200001_b7c1d9e0f" "Mixtape"
             [song1; song2; song3; song4]
             "2024-01-01T00:00:00.000Z" "2024-01-01T00:00:00.000Z"
             (Some "c1.jpg").

(** Two stored playlists, no fault. *)
Definition mixtape_world : World :=
  mkWorld (Some [road_trip; mixtape]) [] [june] [] [].


(** A provider that has just been mounted, and a runtime that rejects
    nothing. *)
Definition mounted : Session :=
  mkSession initialState (mkRuntime ∅ 0%nat []) [].

(** [song2] of the queue [[song1; song2; song3]] is loaded and playing. *)
Definition playing : Session :=
  mkSession
    {| currentSong := Some song2; isPlaying := true; isLoading := false;
       playbackInstance := Some 0%nat; duration := 200000; position := 1000;
       playlist := [song1; song2; song3]; error := None;
       playlistSource := "playlist" |}
    (mkRuntime {[ 0%nat := mkStatus (song_filePath song2) true 1000 ]}
               1%nat [])
    [].

End Samples.

(** ** Further notions for the store *)

Module StoreNotions.
Import Store.

(** Between [w] and [w'] only the playlist under [playlistId] may have
    changed: the stored ids are the same, in the same order, and every
    other id leads to what it led to. *)
Definition only_target (playlistId : string) (w w' : World) : Prop :=
  pl_id <$> stored w' = pl_id <$> stored w
  ∧ ∀ other, other ≠ playlistId →
      lookup_playlist other (stored w') = lookup_playlist other (stored w).

(** No two songs of the playlist have the same id. *)
Definition distinct_ids (p : Playlist) : Prop :=
  NoDup (song_id <$> pl_songs p).

End StoreNotions.

(** ** The status callback of the provider *)

Module Status.
Import Player.
Local Open Scope prog_scope.

(** [AVPlaybackStatusSuccess] of expo-av, as far as the callback reads
    it; [durationMillis] is optional. *)
Record AVPlaybackStatusSuccess := mkSuccess {
  status_isPlaying : bool;
  status_durationMillis : option Z;
  status_positionMillis : Z;
  status_didJustFinish : bool;
}.

(** [AVPlaybackStatus]: [isLoaded] is [false] in the first case and
    [true] in the second. *)
Inductive AVPlaybackStatus :=
| StatusError
| StatusSuccess (status : AVPlaybackStatusSuccess).

(** The callback is a closure like the other functions: the
    [playNextSong] it calls is the one of its render.  That call is not
    awaited, and nothing follows it. *)
Definition updatePlaybackStatus (snap : PlayerState)
    (status : AVPlaybackStatus) : Prog :=
  match status with
  | StatusError => Done
  | StatusSuccess status =>
      setIsPlaying (status_isPlaying status);;
      setDuration (default 0 (status_durationMillis status));;
      setPosition (status_positionMillis status);;
      setIsLoading false;; (* Set loading to false once playback status is loaded *)
      (* Auto-play next song when current one ends *)
      if status_didJustFinish status then playNextSong snap else Done
  end.

(** *** Notions used in the statements *)

(** The functions that drive the sound: those of the context value but
    the two setters of the queue, and the status callback. *)
Inductive transport : (PlayerState → Prog) → Prop :=
| transport_playSong song : transport (λ snap, playSong snap song)
| transport_pauseSong : transport pauseSong
| transport_resumeSong : transport resumeSong
| transport_seekTo position : transport (λ snap, seekTo snap position)
| transport_playNextSong : transport playNextSong
| transport_playPreviousSong : transport playPreviousSong
| transport_stopSong : transport stopSong
| transport_stopPlayback : transport stopPlayback
| transport_status status :
    transport (λ snap, updatePlaybackStatus snap status).

(** The two setters of the queue, as the context value hands them out. *)
Inductive queue_setter : (PlayerState → Prog) → Prop :=
| queue_setter_setPlaylist songs :
    queue_setter (λ _, setPlaylistAndUpdateCurrent songs)
| queue_setter_setPlaylistSource source :
    queue_setter (λ _, setPlaylistSource source;; Done).

(** The program calls neither [setPlaylist] nor [setPlaylistSource]. *)
Fixpoint sets_no_queue (p : Prog) : Prop :=
  match p with
  | Done => True
  | Do s k =>
      match s with
      | setPlaylist _ | setPlaylistSource _ => False
      | _ => sets_no_queue k
      end
  | Await _ k catch => sets_no_queue k ∧ sets_no_queue catch
  | createAsync _ _ k catch =>
      (∀ sound, sets_no_queue (k sound)) ∧ sets_no_queue catch
  end.

(** Calls made one after the other, each of the render that is current
    when it is made, each run to its end. *)
Definition calls (fs : list (PlayerState → Prog)) (σ : Session) : Session :=
  foldl (λ σ f, call f σ) σ fs.

(** The position in the queue of the first entry with the id of the
    current song. *)
Definition current_at (σ : Session) (i : nat) : Prop :=
  ∃ current entry,
    currentSong (state σ) = Some current
    ∧ list_find (λ song, song_id song = song_id current)
        (playlist (state σ)) = Some (i, entry).

(** No two songs of the queue have the same id. *)
Definition distinct_queue (σ : Session) : Prop :=
  NoDup (song_id <$> playlist (state σ)).

(** The runtime rejects none of the calls to come. *)
Definition willing (σ : Session) : Prop := rejections (runtime σ) = [].

(** The next call to the runtime is rejected. *)
Definition unwilling (σ : Session) : Prop :=
  hd false (rejections (runtime σ)) = true.

(** The session to which a [playSong song] that meets no rejection leads
    from [σ]: the new sound is the only resource open and plays from the
    start; [position], [duration] and [isLoading] are left for the status
    callback to set. *)
Definition now_playing (σ : Session) (song : DownloadedSong) : Session :=
  {| state :=
       {| currentSong := Some song;
          isPlaying := true;
          isLoading := true;
          playbackInstance := Some (created (runtime σ));
          duration := duration (state σ);
          position := position (state σ);
          playlist := playlist (state σ);
          error := None;
          playlistSource := playlistSource (state σ) |};
     runtime :=
       {| loaded :=
            {[ created (runtime σ) := mkStatus (song_filePath song) true 0 ]};
          created := S (created (runtime σ));
          rejections := [] |};
     console := console σ |}.

(** What the [catch] block of [playSong] leaves in the state cells. *)
Definition play_failed (st : PlayerState) (instance : option Sound)
    : PlayerState :=
  {| currentSong := None;
     isPlaying := false;
     isLoading := false;
     playbackInstance := instance;
     duration := duration st;
     position := position st;
     playlist := playlist st;
     error := Some "Failed to play song";
     playlistSource := playlistSource st |}.

(** The state cells once [message] is the error. *)
Definition with_error (st : PlayerState) (message : string) : PlayerState :=
  update (setError (Some message)) st.

(** The current song is the entry at position [j] of the queue. *)
Definition plays (σ : Session) (j : nat) : Prop :=
  ∃ song, currentSong (state σ) = Some song
          ∧ playlist (state σ) !! j = Some song.

(** What a status update writes into the state cells. *)
Definition reported (st : PlayerState) (status : AVPlaybackStatusSuccess)
    : PlayerState :=
  {| currentSong := currentSong st;
     isPlaying := status_isPlaying status;
     isLoading := false;
     playbackInstance := playbackInstance st;
     duration := default 0 (status_durationMillis status);
     position := status_positionMillis status;
     playlist := playlist st;
     error := error st;
     playlistSource := playlistSource st |}.

(** The session once a status update has been written into it. *)
Definition with_report (σ : Session) (status : AVPlaybackStatusSuccess)
    : Session :=
  mkSession (reported (state σ) status) (runtime σ) (console σ).

End Status.

(** ** More sample data *)

Module MoreSamples.
Import Store Player Samples.

(** Two stored playlists; the next AsyncStorage call is rejected. *)
Definition failing_mixtape_read : World :=
  mkWorld (Some [road_trip; mixtape])
          [Some (mkError "storage unavailable")] [june] [] [].

(** One stored playlist; the second AsyncStorage call is rejected. *)
Definition failing_second_read : World :=
  mkWorld (Some [road_trip]) [None; Some (mkError "storage unavailable")]
          [june] [] [].

(** As [playing], with a runtime that rejects the next call. *)
Definition playing_unwilling : Session :=
  mkSession (state playing)
    (mkRuntime (loaded (runtime playing)) 1%nat [true]) [].

(** As [playing], with a runtime that rejects the second call to come. *)
Definition stop_half_way : Session :=
  mkSession (state playing)
    (mkRuntime (loaded (runtime playing)) 1%nat [false; true]) [].

(** Another recording with the id of [song1]. *)
Definition encore : DownloadedSong :=
  mkSong "s1" "First (encore)" "Artist" "Album" "c1.jpg"
         "file:///songs/s1-encore.mp3" "2024-01-01T00:00:00.000Z".

(** [encore], the third entry of the queue, is loaded and playing. *)
Definition playing_encore : Session :=
  mkSession
    {| currentSong := Some encore; isPlaying := true; isLoading := false;
       playbackInstance := Some 0%nat; duration := 200000; position := 1000;
       playlist := [song1; song2; encore; song3]; error := None;
       playlistSource := "playlist" |}
    (mkRuntime {[ 0%nat := mkStatus (song_filePath encore) true 1000 ]}
               1%nat [])
    [].

(** The runtime reports that the song has played to its end. *)
Definition finished : Status.AVPlaybackStatusSuccess :=
  Status.mkSuccess false (Some 200000) 200000 true.

(** [playSong song1], carried to its end, then [playSong song2] up to
    the point where its sound is there but not yet taken as the
    instance. *)
Definition second_call_loaded : Config :=
  default (mkConfig mounted [])
    (exec [Invoke (λ snap, playSong snap song1); Settle 0; Resume 0;
           Invoke (λ snap, playSong snap song2); Settle 1; Resume 1;
           Settle 1]
          (mkConfig mounted [])).

End MoreSamples.

(** ** The screens that drive the player and the store

    [LibraryScreen], [PlaylistScreen] and [PlaylistDetailScreen] call the
    provider and the store from their handlers.  A handler is a closure
    of its render like the provider's functions: it reads the context
    values and the state cells of that render. *)

Module Screens.
Import Player.
Local Open Scope prog_scope.

(** What a handler shows, or where it leads, besides its calls. *)
Inductive Notice :=
| to_player               (* router.push("/player"), router.navigate("/player") *)
| to_playlists            (* router.replace("/playlist") *)
| empty_playlist_toast    (* Toast "Empty Playlist" *)
| playback_error_toast    (* Toast "Playback Error" *)
| not_found_alert         (* Alert "Playlist not found" *)
| load_failed_alert       (* Alert "Failed to load playlist" *)
| song_added_toast        (* Toast "Song Added" *)
| add_failed_toast        (* Toast "Failed to add song to playlist" *)
| remove_failed_alert.    (* Alert "Failed to remove song" *)

(** [currentSong?.id === song.id]. *)
Definition same_id (current : option DownloadedSong) (song : DownloadedSong)
    : bool :=
  match current with
  | Some current => bool_decide (song_id current = song_id song)
  | None => false
  end.

(** The handlers that start playback give the calls they make on the
    provider, and the notice that follows.  Their [catch] blocks are
    only reached from reading [playlist.songs[0].id] of an empty array:
    the setters do not throw and [playSong] catches what it meets.  The
    [setPlaylist] of the context is [setPlaylistAndUpdateCurrent], which
    is the setter of the cell. *)

Module LibraryScreen.

Definition handlePlaySong (snap : PlayerState) (song : DownloadedSong)
    : Prog * option Notice :=
  (* Check if the song is already playing *)
  if same_id (currentSong snap) song && isPlaying snap
  then (Done, Some to_player)
  else
    (* Set source as library and create single-song playlist *)
    (setPlaylistSource "library";;
     setPlaylist [song];;
     playSong snap song,
     Some to_player).

(** [showNowPlaying] of [renderSongItem]. *)
Definition showNowPlaying (snap : PlayerState) (item : DownloadedSong)
    : bool :=
  same_id (currentSong snap) item
  && bool_decide (playlistSource snap = "library").

End LibraryScreen.

Module PlaylistScreen.

Definition handlePlayPlaylist (snap : PlayerState) (playlist : Playlist)
    : Prog * option Notice :=
  if Z.of_nat (length (pl_songs playlist)) =? 0
  then (Done, Some empty_playlist_toast)
  else
    match head (pl_songs playlist) with
    | Some first =>
        (* Check if the first song in the playlist is already playing *)
        if same_id (currentSong snap) first && isPlaying snap
           && bool_decide (playlistSource snap = "playlist")
        then (Done, Some to_player)
        else
          (setPlaylist (pl_songs playlist);;
           setPlaylistSource "playlist";;
           playSong snap first,
           Some to_player)
    | None =>
        (console_error "Error playing playlist:";; Done,
         Some playback_error_toast)
    end.

End PlaylistScreen.

Module PlaylistDetailScreen.

(** [playlist] is the state cell of the screen: [None] until the
    playlist is loaded. *)
Definition handlePlayPlaylist (snap : PlayerState)
    (playlist : option Playlist) : Prog * option Notice :=
  match playlist with
  | None => (Done, Some empty_playlist_toast)
  | Some playlist =>
      if Z.of_nat (length (pl_songs playlist)) =? 0
      then (Done, Some empty_playlist_toast)
      else
        match head (pl_songs playlist) with
        | Some first =>
            (* Check if the first song in the playlist is already playing *)
            if same_id (currentSong snap) first && isPlaying snap
               && bool_decide (playlistSource snap = "playlist-detail")
            then (Done, Some to_player)
            else
              (setPlaylist (pl_songs playlist);;
               setPlaylistSource "playlist-detail";;
               playSong snap first,
               Some to_player)
        | None =>
            (console_error "Error playing playlist:";; Done,
             Some playback_error_toast)
        end
  end.

Definition handlePlaySong (snap : PlayerState) (playlist : option Playlist)
    (song : DownloadedSong) : Prog * option Notice :=
  match playlist with
  | None => (Done, None)
  | Some playlist =>
      (* Check if the song is already playing *)
      if same_id (currentSong snap) song && isPlaying snap
      then (Done, Some to_player)
      else
        (setPlaylist (pl_songs playlist);;
         setPlaylistSource "playlist-detail";;
         playSong snap song,
         Some to_player)
  end.

(** [showNowPlaying] of [renderSongItem]. *)
Definition showNowPlaying (snap : PlayerState) (item : DownloadedSong)
    : bool :=
  same_id (currentSong snap) item
  && bool_decide (playlistSource snap = "playlist-detail").

End PlaylistDetailScreen.

(** A handler of the latest render is called and its calls finish. *)
Definition press (handler : PlayerState → Prog * option Notice)
    (σ : Session) : Session :=
  run (handler (state σ)).1 σ.

(** The session with another queue and another source tag. *)
Definition queued (σ : Session) (songs : list DownloadedSong)
    (source : string) : Session :=
  {| state :=
       {| currentSong := currentSong (state σ);
          isPlaying := isPlaying (state σ);
          isLoading := isLoading (state σ);
          playbackInstance := playbackInstance (state σ);
          duration := duration (state σ);
          position := position (state σ);
          playlist := songs;
          error := error (state σ);
          playlistSource := source |};
     runtime := runtime σ;
     console := console σ |}.

End Screens.

(** ** The data of the playlist screen: [PlaylistDetailScreen] *)

Module PlaylistDetailData.
Import Store Screens.

(** The state cells of the screen, and what it has shown so far, newest
    first. *)
Record Screen := mkScreen {
  playlist : option Playlist;
  isLoading : bool;
  showAddSongsModal : bool;
  availableSongs : list DownloadedSong;
  refreshing : bool;
  shown : list Notice;
}.

Definition setPlaylist (v : option Playlist) (s : Screen) : Screen :=
  mkScreen v (isLoading s) (showAddSongsModal s) (availableSongs s)
    (refreshing s) (shown s).

Definition setIsLoading (v : bool) (s : Screen) : Screen :=
  mkScreen (playlist s) v (showAddSongsModal s) (availableSongs s)
    (refreshing s) (shown s).

Definition setShowAddSongsModal (v : bool) (s : Screen) : Screen :=
  mkScreen (playlist s) (isLoading s) v (availableSongs s)
    (refreshing s) (shown s).

Definition setAvailableSongs (v : list DownloadedSong) (s : Screen)
    : Screen :=
  mkScreen (playlist s) (isLoading s) (showAddSongsModal s) v
    (refreshing s) (shown s).

Definition show (n : Notice) (s : Screen) : Screen :=
  mkScreen (playlist s) (isLoading s) (showAddSongsModal s)
    (availableSongs s) (refreshing s) (n :: shown s).

(** A promise of another module, taken with its outcome.
    [getDownloadedSongs] of [services/storage] is such a one: each call
    of it comes with the outcome it has. *)
Definition settled {A} (outcome : Outcome A) : Async A :=
  λ w, (outcome, w).

(** Filter out songs that are already in the playlist. *)
Definition songsNotInPlaylist (playlistData : Playlist)
    (allSongs : list DownloadedSong) : list DownloadedSong :=
  filter
    (λ song,
       negb (some (λ playlistSong, song_id playlistSong = song_id song)
               (pl_songs playlistData)))
    allSongs.

(** [Promise.all] starts [getPlaylist] first; it never rejects, so the
    [catch] block is reached by a rejection of [getDownloadedSongs]
    only.  The [finally] block ends both paths. *)
Definition loadPlaylistData (playlistId : string)
    (getDownloadedSongs : Outcome (list DownloadedSong)) (s : Screen)
    : Async Screen :=
  let s := setIsLoading true s in
  s ← try_catch
        (playlistData ← getPlaylist playlistId;
         allSongs ← settled getDownloadedSongs;
         match playlistData with
         | None => mret (show to_playlists (show not_found_alert s))
         | Some playlistData =>
             let s := setPlaylist (Some playlistData) s in
             mret (setAvailableSongs
                     (songsNotInPlaylist playlistData allSongs) s)
         end)
        (λ error,
           console_error "Error loading playlist:";;
           mret (show load_failed_alert s));
  mret (setIsLoading false s).

(** The call of [loadPlaylistData] at the end of the [try] block is not
    awaited: the toast is shown before that call goes on, and what it
    meets stays within it. *)
Definition handleAddSong (playlistId : string)
    (getDownloadedSongs : Outcome (list DownloadedSong))
    (song : DownloadedSong) (s : Screen) : Async Screen :=
  try_catch
    (addSongToPlaylist playlistId song;;
     let s := setShowAddSongsModal false s in
     let s := show song_added_toast s in
     loadPlaylistData playlistId getDownloadedSongs s)
    (λ error,
       console_error "Error adding song:";;
       mret (show add_failed_toast s)).

(** The [onPress] of the button "Remove" in the alert of
    [handleRemoveSong]. *)
Definition handleRemoveSong (playlistId : string)
    (getDownloadedSongs : Outcome (list DownloadedSong))
    (song : DownloadedSong) (s : Screen) : Async Screen :=
  try_catch
    (removeSongFromPlaylist playlistId (song_id song);;
     loadPlaylistData playlistId getDownloadedSongs s)
    (λ error,
       console_error "Error removing song:";;
       mret (show remove_failed_alert s)).

(** The screen once [loadPlaylistData] has found [p]. *)
Definition loaded_with (p : Playlist) (allSongs : list DownloadedSong)
    (s : Screen) : Screen :=
  mkScreen (Some p) false (showAddSongsModal s)
    (songsNotInPlaylist p allSongs) (refreshing s) (shown s).

(** The screen shows the playlist as it is stored, and offers the
    downloaded songs that are not in it. *)
Definition in_sync (playlistId : string) (allSongs : list DownloadedSong)
    (s : Screen) (w : World) : Prop :=
  ∃ p, lookup_playlist playlistId (stored w) = Some p
       ∧ playlist s = Some p
       ∧ availableSongs s = songsNotInPlaylist p allSongs.

End PlaylistDetailData.

Module ScreenSamples.
Import Store Samples PlaylistDetailData.

(** The songs that are downloaded. *)
Definition downloads : list DownloadedSong := [song1; song2; song3].

(** The playlist screen of [road_trip], loaded: it offers [song2] and
    [song3]. *)
Definition road_trip_screen : Screen :=
  loaded_with road_trip downloads (mkScreen None true false [] false []).

End ScreenSamples.

(** * Properties *)

(** ** Array helpers *)

Section ArrayFacts.
Context {A : Type} (P : A → Prop) `{!∀ x, Decision (P x)}.

Lemma findIndex_None (l : list A) :
  findIndex P l = -1 ↔ Forall (λ x, ¬ P x) l.
Proof.
  unfold findIndex. destruct (list_find P l) as [[i x]|] eqn:E.
  - split; [lia|]. intros Hall. apply list_find_Some in E as (Hx & HP & _).
    rewrite Forall_forall in Hall. exfalso.
    apply (Hall x); [by eapply list_elem_of_lookup_2|done].
  - split; [|done]. intros _. by apply (list_find_None P l).
Qed.

Lemma findIndex_Some (l : list A) (i : nat) (x : A) :
  list_find P l = Some (i, x) → findIndex P l = Z.of_nat i.
Proof. unfold findIndex. by intros ->. Qed.

Lemma findIndex_inv (l : list A) :
  findIndex P l ≠ -1 →
  ∃ i x, list_find P l = Some (i, x) ∧ findIndex P l = Z.of_nat i
         ∧ l !! i = Some x ∧ P x.
Proof.
  unfold findIndex. destruct (list_find P l) as [[i x]|] eqn:E; [|done].
  intros _. exists i, x. apply list_find_Some in E as (Hx & HP & _). done.
Qed.

Lemma find_list_find (l : list A) (i : nat) (x : A) :
  list_find P l = Some (i, x) → find P l = Some x.
Proof. unfold find. by intros ->. Qed.

Lemma find_None (l : list A) :
  find P l = None ↔ Forall (λ x, ¬ P x) l.
Proof.
  unfold find. rewrite fmap_None. apply list_find_None.
Qed.

Lemma at_index_nat (l : list A) (i : nat) :
  at_index l (Z.of_nat i) = l !! i.
Proof.
  unfold at_index. rewrite (proj2 (Z.ltb_ge _ _)) by lia.
  by rewrite Nat2Z.id.
Qed.

Lemma some_true (l : list A) : some P l = true ↔ ∃ x, x ∈ l ∧ P x.
Proof. unfold some. rewrite bool_decide_eq_true. apply Exists_exists. Qed.

Lemma some_false (l : list A) : some P l = false ↔ ∀ x, x ∈ l → ¬ P x.
Proof.
  unfold some. rewrite bool_decide_eq_false, <- Forall_Exists_neg.
  apply Forall_forall.
Qed.


Lemma filter_all (l : list A) : Forall P l → filter P l = l.
Proof. induction 1; [done|]. rewrite filter_cons_True by done. by f_equal. Qed.
End ArrayFacts.

(** ** The playlist store *)

Module StoreFacts.
Import Store Samples.

Lemma getPlaylists_eq w :
  getPlaylists w = (Resolved (read w).1, (read w).2).
Proof.
  unfold getPlaylists, read, try_catch, mbind, Async_bind, getItem, stored,
    after_io.
  destruct (hd None (faults w)) as [e|]; [done|].
  by destruct (storage w).
Qed.

Lemma savePlaylist_eq p w :
  savePlaylist p w =
    match hd None (faults (read w).2) with
    | Some e =>
        (Rejected e, logged "Error saving playlist:" (after_io (read w).2))
    | None =>
        (Resolved tt, written (upsert (read w).1 p) (after_io (read w).2))
    end.
Proof.
  unfold savePlaylist, try_catch, mbind, Async_bind.
  rewrite getPlaylists_eq. unfold setItem.
  by destruct (hd None (faults (read w).2)).
Qed.

Lemma read_quiet w : faults w = [] → read w = (stored w, w).
Proof. destruct w as [st fl ck en co]. simpl. by intros ->. Qed.

Lemma savePlaylist_quiet p w :
  faults w = [] →
  savePlaylist p w = (Resolved tt, written (upsert (stored w) p) w).
Proof.
  intros Hq. rewrite savePlaylist_eq, (read_quiet w Hq). simpl.
  rewrite Hq. simpl. destruct w; simpl in *. by subst.
Qed.

Lemma lookup_upsert l p : lookup_playlist (pl_id p) (upsert l p) = Some p.
Proof.
  unfold lookup_playlist, upsert.
  destruct (decide (findIndex (λ q, pl_id q = pl_id p) l = -1)) as [Hn|Hs].
  - rewrite Hn. simpl. apply findIndex_None in Hn.
    unfold find. 
    assert (list_find (λ q, pl_id q = pl_id p) (l ++ [p]) = Some (length l, p)) as ->; [|done].
    apply list_find_Some. split_and!; [|done|].
    + by apply list_lookup_middle.
    + intros j y Hj Hlt. rewrite lookup_app_l in Hj by done.
      rewrite Forall_forall in Hn. apply Hn. by eapply list_elem_of_lookup_2.
  - destruct (findIndex_inv _ l Hs) as (i & x & Hf & -> & Hx & HP).
    assert ((Z.of_nat i >? -1) = true) as -> by (apply Z.gtb_lt; lia).
    rewrite Nat2Z.id.
    apply list_find_Some in Hf as (_ & _ & Hmin).
    unfold find.
    assert (list_find (λ q, pl_id q = pl_id p) (<[i:=p]> l) = Some (i, p)) as ->; [|done].
    apply list_find_Some. split_and!; [|done|].
    + apply list_lookup_insert_eq. by eapply lookup_lt_Some.
    + intros j y Hj Hlt. rewrite list_lookup_insert_ne in Hj by lia. eauto.
Qed.


Lemma at_index_found (l : list Playlist) (playlistId : string) :
  findIndex (λ p, pl_id p = playlistId) l ≠ -1 →
  ∃ p, lookup_playlist playlistId l = Some p
       ∧ pl_id p = playlistId
       ∧ defined (at_index l (findIndex (λ p, pl_id p = playlistId) l))
         = mret p.
Proof.
  intros Hs. destruct (findIndex_inv _ l Hs) as (i & x & Hf & Hi & Hx & HP).
  exists x. split_and!; [by eapply find_list_find|done|].
  by rewrite Hi, at_index_nat, Hx.
Qed.

Lemma lookup_playlist_None (l : list Playlist) (playlistId : string) :
  findIndex (λ p, pl_id p = playlistId) l = -1 ↔
  lookup_playlist playlistId l = None.
Proof. unfold lookup_playlist. by rewrite findIndex_None, find_None. Qed.

Lemma addSongToPlaylist_eq playlistId song w :
  addSongToPlaylist playlistId song w =
    rethrown "Error adding song to playlist:"
      match lookup_playlist playlistId (read w).1 with
      | None => (Rejected (mkError "Playlist not found"), (read w).2)
      | Some p =>
          if some (λ s, song_id s = song_id song) (pl_songs p)
          then (Rejected (mkError "Song already exists in playlist"),
                (read w).2)
          else
            savePlaylist
              (added p song (toISOString (hd epoch (clock (read w).2))))
              (after_clock (read w).2)
      end.
Proof.
  unfold addSongToPlaylist, try_catch, mbind, Async_bind.
  rewrite getPlaylists_eq.
  destruct (Z.eqb_spec (findIndex (λ p, pl_id p = playlistId) (read w).1) (-1))
    as [Hn|Hs].
  - apply lookup_playlist_None in Hn. by rewrite Hn.
  - destruct (at_index_found _ _ Hs) as (p & -> & _ & ->).
    unfold mret at 1, Async_ret.
    destruct (some _ (pl_songs p)); [done|]. simpl.
    unfold added, after_clock.
    by destruct (savePlaylist _ _) as [[[]|e] w2].
Qed.

Lemma removeSongFromPlaylist_eq playlistId songId w :
  removeSongFromPlaylist playlistId songId w =
    rethrown "Error removing song from playlist:"
      match lookup_playlist playlistId (read w).1 with
      | None => (Rejected (mkError "Playlist not found"), (read w).2)
      | Some p =>
          savePlaylist
            (removed p songId (toISOString (hd epoch (clock (read w).2))))
            (after_clock (read w).2)
      end.
Proof.
  unfold removeSongFromPlaylist, try_catch, mbind, Async_bind.
  rewrite getPlaylists_eq.
  destruct (Z.eqb_spec (findIndex (λ p, pl_id p = playlistId) (read w).1) (-1))
    as [Hn|Hs].
  - apply lookup_playlist_None in Hn. by rewrite Hn.
  - destruct (at_index_found _ _ Hs) as (p & -> & _ & ->).
    unfold mret at 1, Async_ret. simpl.
    unfold removed, after_clock.
    by destruct (savePlaylist _ _) as [[[]|e] w2].
Qed.

Lemma written_stored v w : stored (written v w) = v.
Proof. done. Qed.

Lemma added_id p song now : pl_id (added p song now) = pl_id p.
Proof. done. Qed.

Lemma removed_id p songId now : pl_id (removed p songId now) = pl_id p.
Proof. done. Qed.

Lemma lookup_playlist_id playlistId l p :
  lookup_playlist playlistId l = Some p → pl_id p = playlistId.
Proof.
  unfold lookup_playlist, find. intros H.
  apply fmap_Some in H as ([i x] & H & ->).
  by apply list_find_Some in H as (_ & ? & _).
Qed.

Lemma lookup_playlist_absent playlistId l :
  lookup_playlist playlistId l = None ↔ ∀ p, p ∈ l → pl_id p ≠ playlistId.
Proof. unfold lookup_playlist. by rewrite find_None, Forall_forall. Qed.



(** C3, as stated, fails: [road_trip] is stored and holds no song "s9";
    removing "s9" succeeds, but the stored playlist does not keep its
    [updatedAt]: it was 1 January 2024 and becomes the current time,
    1 June 2024. *)
Lemma removeSongFromPlaylist_absent_refreshes_updatedAt :
  lookup_playlist (pl_id road_trip) (stored quiet_world) = Some road_trip
  ∧ Forall (λ s, song_id s ≠ "s9") (pl_songs road_trip)
  ∧ (removeSongFromPlaylist (pl_id road_trip) "s9" quiet_world).1
      = Resolved tt
  ∧ pl_updatedAt <$>
      lookup_playlist (pl_id road_trip)
        (stored (removeSongFromPlaylist (pl_id road_trip) "s9" quiet_world).2)
      = Some "2024-06-01T00:00:00.000Z"
  ∧ ¬ ∃ p',
      lookup_playlist (pl_id road_trip)
        (stored (removeSongFromPlaylist (pl_id road_trip) "s9" quiet_world).2)
        = Some p'
      ∧ pl_songs p' = pl_songs road_trip
      ∧ pl_updatedAt p' = pl_updatedAt road_trip.
Proof.
  split_and!; try reflexivity.
  - repeat constructor. discriminate.
  - intros (p' & Hp' & _ & Hupdated). vm_compute in Hp'.
    injection Hp' as <-. discriminate.
Qed.

(** C3, amended: with the durable store answering, removing a song that
    the stored playlist does not hold reports no error and leaves [songs]
    (and the id, the name and [createdAt]) unchanged; [updatedAt] is set
    to the current time and [coverImage] to the first song's cover. *)
Theorem removeSongFromPlaylist_absent_song
    (w : World) (playlistId songId : string) (p : Playlist) :
  faults w = [] →
  lookup_playlist playlistId (stored w) = Some p →
  (∀ s, s ∈ pl_songs p → song_id s ≠ songId) →
  ∃ w' p',
    removeSongFromPlaylist playlistId songId w = (Resolved tt, w')
    ∧ lookup_playlist playlistId (stored w') = Some p'
    ∧ pl_songs p' = pl_songs p
    ∧ pl_id p' = pl_id p ∧ pl_name p' = pl_name p
    ∧ pl_createdAt p' = pl_createdAt p
    ∧ pl_updatedAt p' = toISOString (hd epoch (clock w))
    ∧ pl_coverImage p' = song_coverImage <$> head (pl_songs p).
Proof.
  intros Hq Hp Hn.
  pose proof (removeSongFromPlaylist_eq playlistId songId w) as Heq.
  rewrite (read_quiet w Hq) in Heq. simpl in Heq. rewrite Hp in Heq.
  rewrite savePlaylist_quiet in Heq by done. simpl in Heq.
  assert (Hfilter : filter (λ s, song_id s ≠ songId) (pl_songs p) = pl_songs p).
  { by apply filter_all, Forall_forall. }
  eexists _, (removed p songId (toISOString (hd epoch (clock w)))).
  split; [exact Heq|]. rewrite written_stored. split.
  { rewrite <- (lookup_playlist_id _ _ _ Hp).
    rewrite <- (removed_id p songId (toISOString (hd epoch (clock w)))) at 1.
    apply lookup_upsert. }
  unfold removed; simpl. rewrite Hfilter. split_and!; try done.
  by destruct (pl_songs p).
Qed.

Lemma removeSongFromPlaylist_absent_song_witness :
  ∃ w' p',
    removeSongFromPlaylist (pl_id road_trip) "s9" quiet_world
      = (Resolved tt, w')
    ∧ lookup_playlist (pl_id road_trip) (stored w') = Some p'
    ∧ pl_songs p' = pl_songs road_trip
    ∧ pl_id p' = pl_id road_trip ∧ pl_name p' = pl_name road_trip
    ∧ pl_createdAt p' = pl_createdAt road_trip
    ∧ pl_updatedAt p' = toISOString (hd epoch (clock quiet_world))
    ∧ pl_coverImage p' = song_coverImage <$> head (pl_songs road_trip).
Proof.
  apply (removeSongFromPlaylist_absent_song quiet_world (pl_id road_trip)
           "s9" road_trip eq_refl eq_refl).
  intros s Hs. apply list_elem_of_singleton in Hs. subst s. discriminate.
Defined.

Lemma getPlaylist_eq playlistId w :
  getPlaylist playlistId w
  = (Resolved (lookup_playlist playlistId (read w).1), (read w).2).
Proof.
  unfold getPlaylist, try_catch, mbind, Async_bind.
  by rewrite getPlaylists_eq.
Qed.

Lemma deletePlaylist_eq playlistId w :
  deletePlaylist playlistId w =
    match hd None (faults (read w).2) with
    | Some e =>
        (Rejected e, logged "Error deleting playlist:" (after_io (read w).2))
    | None =>
        (Resolved tt,
         written (filter (λ p, pl_id p ≠ playlistId) (read w).1)
                 (after_io (read w).2))
    end.
Proof.
  unfold deletePlaylist, try_catch, mbind, Async_bind.
  rewrite getPlaylists_eq. unfold setItem.
  by destruct (hd None (faults (read w).2)).
Qed.

Lemma createPlaylist_eq name w :
  createPlaylist name w =
    match savePlaylist (fresh_playlist name w) (after_readings w) with
    | (Resolved _, w') => (Resolved (fresh_playlist name w), w')
    | (Rejected e, w') => (Rejected e, w')
    end.
Proof.
  unfold createPlaylist, Date_now, mbind, Async_bind, new_Date,
    random_suffix, mret, Async_ret, fresh_playlist, after_readings.
  simpl. by destruct (savePlaylist _ _) as [[[]|e] w'].
Qed.

Lemma read_second_call w :
  hd None (faults (read w).2) = hd None (tl (faults w)).
Proof. unfold read. by destruct (hd None (faults w)). Qed.

Lemma hd_tl_lookup {A} (d : A) (l : list A) (x : A) :
  tl l !! 0%nat = Some x → hd d (tl l) = x.
Proof. destruct l as [|? [|? ?]]; simpl; congruence. Qed.

(** C4, as stated, fails: the read of the durable store is rejected, yet
    [getPlaylists] reports no failure and answers the empty list, and
    [getPlaylist] answers [null], as if nothing were stored. *)
Lemma getPlaylists_swallows_read_failure :
  hd None (faults failing_read) = Some (mkError "storage unavailable")
  ∧ storage failing_read = Some [road_trip]
  ∧ (getPlaylists failing_read).1 = Resolved []
  ∧ (getPlaylist (pl_id road_trip) failing_read).1 = Resolved None
  ∧ ¬ (∃ e, (getPlaylists failing_read).1 = Rejected e)
  ∧ ¬ (∃ e, (getPlaylist (pl_id road_trip) failing_read).1 = Rejected e).
Proof. split_and!; try reflexivity; intros [e He]; discriminate. Qed.

(** C4, amended: a rejected write to the durable store is reported to the
    caller of [savePlaylist], [createPlaylist], [deletePlaylist],
    [addSongToPlaylist] and [removeSongFromPlaylist] with the error of the
    store.  A rejected read is not: [getPlaylists] and [getPlaylist] never
    fail, and answer the empty list and [null] when the read is
    rejected. *)
Theorem write_failure_is_reported (w : World) (e : Error) :
  (∃ l, (getPlaylists w).1 = Resolved l)
  ∧ (∀ playlistId, ∃ o, (getPlaylist playlistId w).1 = Resolved o)
  ∧ (hd None (faults w) = Some e →
       (getPlaylists w).1 = Resolved []
       ∧ ∀ playlistId, (getPlaylist playlistId w).1 = Resolved None)
  ∧ (faults w !! 1%nat = Some (Some e) →
       (∀ p, (savePlaylist p w).1 = Rejected e)
       ∧ (∀ name, (createPlaylist name w).1 = Rejected e)
       ∧ (∀ playlistId, (deletePlaylist playlistId w).1 = Rejected e))
  ∧ (faults w !! 0%nat = Some None → faults w !! 2%nat = Some (Some e) →
       ∀ playlistId p, lookup_playlist playlistId (stored w) = Some p →
         (∀ song, ¬ has_song p (song_id song) →
            (addSongToPlaylist playlistId song w).1 = Rejected e)
         ∧ (∀ songId,
            (removeSongFromPlaylist playlistId songId w).1 = Rejected e)).
Proof.
  assert (Hsave : ∀ w p, faults w !! 1%nat = Some (Some e) →
            (savePlaylist p w).1 = Rejected e).
  { intros w0 p H1. rewrite savePlaylist_eq, read_second_call.
    rewrite (hd_tl_lookup None (faults w0) (Some e)); [done|].
    by destruct (faults w0). }
  split_and!.
  - rewrite getPlaylists_eq. eauto.
  - intros playlistId. rewrite getPlaylist_eq. eauto.
  - intros H0. split; [|intros playlistId].
    + rewrite getPlaylists_eq. unfold read. by rewrite H0.
    + rewrite getPlaylist_eq. unfold read. by rewrite H0.
  - intros H1. split_and!.
    + intros p. by apply Hsave.
    + intros name. rewrite createPlaylist_eq.
      pose proof (Hsave (after_readings w) (fresh_playlist name w) H1) as Hs.
      destruct (savePlaylist _ _) as [[[]|e'] w']; simpl in *; congruence.
    + intros playlistId. rewrite deletePlaylist_eq, read_second_call.
      rewrite (hd_tl_lookup None (faults w) (Some e)); [done|].
      by destruct (faults w).
  - intros H0 H2 playlistId p Hp.
    assert (read w = (stored w, after_io w)) as Hr.
    { unfold read. destruct (faults w) as [|[e0|] fl]; naive_solver. }
    assert (faults (after_clock (after_io w)) !! 1%nat = Some (Some e)) as H1.
    { simpl. by destruct (faults w). }
    split.
    + intros song Hs. rewrite addSongToPlaylist_eq, Hr. simpl. rewrite Hp.
      assert (some (λ s, song_id s = song_id song) (pl_songs p) = false) as ->.
      { apply some_false. intros s Hin Hid. apply Hs. by exists s. }
      pose proof (Hsave _ (added p song (toISOString (hd epoch (clock w)))) H1)
        as Hsv. simpl in Hsv.
      destruct (savePlaylist _ _) as [[[]|e'] w']; simpl in *; congruence.
    + intros songId. rewrite removeSongFromPlaylist_eq, Hr. simpl. rewrite Hp.
      pose proof (Hsave _ (removed p songId (toISOString (hd epoch (clock w)))) H1)
        as Hsv. simpl in Hsv.
      destruct (savePlaylist _ _) as [[[]|e'] w']; simpl in *; congruence.
Qed.

Lemma write_failure_is_reported_witness :
  (savePlaylist road_trip failing_write).1 = Rejected (mkError "disk full")
  ∧ (addSongToPlaylist (pl_id road_trip) song2 failing_third).1
    = Rejected (mkError "disk full")
  ∧ (getPlaylists failing_read).1 = Resolved [].
Proof.
  split_and!.
  - apply (write_failure_is_reported failing_write (mkError "disk full")).
    reflexivity.
  - apply (write_failure_is_reported failing_third (mkError "disk full"))
      with (p := road_trip); try reflexivity.
    intros (s & Hs & Hid). apply list_elem_of_singleton in Hs. by subst s.
  - apply (write_failure_is_reported failing_read
             (mkError "storage unavailable")).
    reflexivity.
Defined.

Lemma added_cover p song now :
  cover_inv p →
  cover_inv (added p song now)
  ∧ (pl_songs p = [] →
     pl_coverImage (added p song now) = Some (song_coverImage song))
  ∧ (pl_songs p ≠ [] →
     pl_coverImage (added p song now) = pl_coverImage p).
Proof.
  unfold cover_inv, added. simpl. intros Hinv.
  destruct (pl_songs p) as [|s l]; simpl in *; rewrite Hinv; simpl.
  - done.
  - destruct (String.eqb (song_coverImage s) EmptyString); done.
Qed.

Lemma removed_cover p songId now :
  cover_inv (removed p songId now)
  ∧ (pl_songs (removed p songId now) = [] →
     pl_coverImage (removed p songId now) = None).
Proof.
  unfold cover_inv, removed. simpl.
  by destruct (filter _ (pl_songs p)).
Qed.

(** A successful read-modify-write: the playlist that was saved is the
    one found under its id afterwards. *)
Lemma savePlaylist_resolved p w w' :
  savePlaylist p w = (Resolved tt, w') →
  lookup_playlist (pl_id p) (stored w') = Some p.
Proof.
  rewrite savePlaylist_eq.
  destruct (hd None (faults (read w).2)); [done|].
  intros [= <-]. rewrite written_stored. apply lookup_upsert.
Qed.

Lemma read_found playlistId w p :
  lookup_playlist playlistId (read w).1 = Some p →
  lookup_playlist playlistId (stored w) = Some p.
Proof. unfold read. by destruct (hd None (faults w)). Qed.

(** C6: a successful [addSongToPlaylist] and a successful
    [removeSongFromPlaylist] keep the cover of the playlist equal to the
    cover of its first song (unset when it has no song).  Adding to an
    empty playlist sets the cover from the song added; adding to a
    playlist with songs leaves the cover as it was; removal sets the cover
    from the new first song, or clears it when no song is left. *)
Theorem coverImage_follows_first_song (w w' : World) (playlistId : string) :
  (∀ song,
     addSongToPlaylist playlistId song w = (Resolved tt, w') →
     ∃ p p', lookup_playlist playlistId (stored w) = Some p
       ∧ lookup_playlist playlistId (stored w') = Some p'
       ∧ pl_songs p' = pl_songs p ++ [song]
       ∧ (cover_inv p →
          cover_inv p'
          ∧ (pl_songs p = [] →
             pl_coverImage p' = Some (song_coverImage song))
          ∧ (pl_songs p ≠ [] → pl_coverImage p' = pl_coverImage p)))
  ∧ (∀ songId,
     removeSongFromPlaylist playlistId songId w = (Resolved tt, w') →
     ∃ p p', lookup_playlist playlistId (stored w) = Some p
       ∧ lookup_playlist playlistId (stored w') = Some p'
       ∧ pl_songs p' = filter (λ s, song_id s ≠ songId) (pl_songs p)
       ∧ cover_inv p'
       ∧ (pl_songs p' = [] → pl_coverImage p' = None)).
Proof.
  split.
  - intros song. rewrite addSongToPlaylist_eq.
    destruct (lookup_playlist playlistId (read w).1) as [p|] eqn:Hp; [|done].
    destruct (some _ (pl_songs p)); [done|].
    destruct (savePlaylist _ _) as [[[]|e] w2] eqn:Hsave; [|done].
    intros [= <-]. apply savePlaylist_resolved in Hsave.
    rewrite added_id, (lookup_playlist_id _ _ _ Hp) in Hsave.
    eexists p, _. split_and!; [by eapply read_found|exact Hsave|done|].
    apply added_cover.
  - intros songId. rewrite removeSongFromPlaylist_eq.
    destruct (lookup_playlist playlistId (read w).1) as [p|] eqn:Hp; [|done].
    destruct (savePlaylist _ _) as [[[]|e] w2] eqn:Hsave; [|done].
    intros [= <-]. apply savePlaylist_resolved in Hsave.
    rewrite removed_id, (lookup_playlist_id _ _ _ Hp) in Hsave.
    eexists p, _. split_and!; [by eapply read_found|exact Hsave|done|..];
      apply removed_cover.
Qed.

Lemma coverImage_follows_first_song_witness :
  cover_inv road_trip
  ∧ (∃ p',
       lookup_playlist (pl_id road_trip)
         (stored (addSongToPlaylist (pl_id road_trip) song2 quiet_world).2)
         = Some p'
       ∧ pl_songs p' = [song1; song2]
       ∧ cover_inv p'
       ∧ pl_coverImage p' = Some "c1.jpg")
  ∧ (∃ p',
       lookup_playlist (pl_id road_trip) (stored emptied_world) = Some p'
       ∧ pl_songs p' = []
       ∧ cover_inv p'
       ∧ pl_coverImage p' = None).
Proof.
  split; [reflexivity|]. split.
  - destruct (coverImage_follows_first_song quiet_world
                (addSongToPlaylist (pl_id road_trip) song2 quiet_world).2
                (pl_id road_trip)) as [Hadd _].
    destruct (Hadd song2 eq_refl) as (p & p' & Hp & Hp' & Hsongs & Hcover).
    vm_compute in Hp. injection Hp as <-.
    destruct (Hcover eq_refl) as (Hinv & _ & Hkeep).
    exists p'. split_and!; [exact Hp'|exact Hsongs|exact Hinv|].
    apply Hkeep. discriminate.
  - destruct (coverImage_follows_first_song quiet_world emptied_world
                (pl_id road_trip)) as [_ Hremove].
    destruct (Hremove "s1" eq_refl) as (p & p' & Hp & Hp' & Hsongs & Hinv & Hnone).
    vm_compute in Hp. injection Hp as <-. vm_compute in Hsongs.
    exists p'. split_and!; [exact Hp'|exact Hsongs|exact Hinv|].
    apply Hnone, Hsongs.
Defined.



End StoreFacts.


(** ** Reordering *)

Module PlaylistDetailFacts.
Import PlaylistDetail Samples.
Local Open Scope nat_scope.

Lemma omap_lookup_seq {A} (pre l : list A) :
  omap (λ i, (pre ++ l) !! i) (seq (length pre) (length l)) = l.
Proof.
  revert pre. induction l as [|x l IH]; intros pre; [done|].
  cbn [length seq omap list_omap]. rewrite list_lookup_middle by done.
  f_equal. specialize (IH (pre ++ [x])).
  rewrite <- app_assoc, length_app, Nat.add_1_r in IH. exact IH.
Qed.

(** A list is determined by what is found at each of its positions. *)
Lemma omap_positions {A} (l l' : list A) (f : nat → nat) :
  length l' = length l →
  (∀ i, l' !! i = l !! f i) →
  omap (λ i, l !! f i) (seq 0 (length l)) = l'.
Proof.
  intros Hlen Hpos. rewrite <- Hlen.
  rewrite <- (omap_lookup_seq [] l') at 2. simpl.
  apply list_omap_ext, Forall2_same_length_lookup_2; [done|].
  intros i x y Hx Hy. rewrite Hx in Hy. injection Hy as <-. by rewrite Hpos.
Qed.

Lemma splice_remove_delete {A} (start : nat) (l : list A) :
  splice_remove start l = delete start l.
Proof. unfold splice_remove. by rewrite delete_take_drop. Qed.

Lemma newSongs_positions (songs : list DownloadedSong) (from to : nat) :
  from < length songs → to < length songs →
  ∃ songs', newSongs songs from to = Some songs'
    ∧ length songs' = length songs
    ∧ (∀ i, songs' !! i = songs !! source_position from to i)
    ∧ songs' ≡ₚ songs.
Proof.
  intros Hfrom Hto. unfold newSongs.
  destruct (lookup_lt_is_Some_2 songs from Hfrom) as [x Hx].
  rewrite Hx. simpl. rewrite splice_remove_delete. eexists. split; [done|].
  assert (Hlen : length (delete from songs) = length songs - 1).
  { rewrite length_delete by eauto. done. }
  unfold splice_insert. split_and!.
  - rewrite length_app, length_take. simpl. rewrite length_drop. lia.
  - intros i. unfold source_position.
    destruct (decide (i = to)) as [->|Hne].
    { rewrite list_lookup_middle; [done|]. rewrite length_take. lia. }
    destruct (decide (i < to)) as [Hlt|Hge].
    + rewrite lookup_app_l by (rewrite length_take; lia).
      rewrite lookup_take_lt by done.
      destruct (decide (from ≤ i < to)) as [[H1 _]|Hn].
      * by rewrite list_lookup_delete_ge.
      * rewrite decide_False by lia. rewrite list_lookup_delete_lt by lia. done.
    + rewrite lookup_app_r by (rewrite length_take; lia).
      rewrite length_take, Nat.min_l by lia.
      destruct (i - to) as [|k] eqn:Hk; [lia|]. simpl.
      rewrite lookup_drop. rewrite decide_False by lia.
      destruct (decide (to < i ≤ from)) as [[_ H2]|Hn].
      * rewrite list_lookup_delete_lt by lia. f_equal. lia.
      * rewrite list_lookup_delete_ge by lia. f_equal. lia.
  - rewrite <- Permutation_middle, take_drop.
    symmetry. by apply delete_Permutation.
Qed.

(** C9: [onDragEnd] moves the song at [from] to [to]: afterwards the
    song at [to] is the one that was at [from], the songs between the two
    positions have shifted by one, the others are where they were, and no
    song is lost or repeated.  For [[a; b; c; d]], from 0 to 2, the result
    is [[b; c; a; d]]; with [from = to] the screen's playlist is not
    changed.  The store function, as the spec describes it, writes the
    same order as the screen shows and refreshes [updatedAt], and does
    nothing when the two indices are equal. *)
Theorem reorder_moves_song
    (playlist prev : Playlist) (from to : nat) :
  from < length (pl_songs playlist) → to < length (pl_songs playlist) →
  (∃ songs',
     newSongs (pl_songs playlist) from to = Some songs'
     ∧ length songs' = length (pl_songs playlist)
     ∧ (∀ i, songs' !! i = pl_songs playlist !! source_position from to i)
     ∧ songs' ≡ₚ pl_songs playlist
     ∧ (from ≠ to →
        ∃ shown, onDragEnd playlist prev from to = Some shown
          ∧ pl_songs shown = songs')
     ∧ (∀ w, Store.faults w = [] → from ≠ to →
        Store.lookup_playlist (pl_id playlist) (Store.stored w)
          = Some playlist →
        ∃ w' p',
          reorderSongsInPlaylist (pl_id playlist) from to w
            = (Store.Resolved tt, w')
          ∧ Store.lookup_playlist (pl_id playlist) (Store.stored w')
            = Some p'
          ∧ pl_songs p' = songs'
          ∧ pl_updatedAt p'
            = Store.toISOString (hd Store.epoch (Store.clock w))))
  ∧ onDragEnd playlist prev from from = Some prev
  ∧ (∀ w, Store.faults w = [] →
     Store.lookup_playlist (pl_id playlist) (Store.stored w)
       = Some playlist →
     reorderSongsInPlaylist (pl_id playlist) from from w
       = (Store.Resolved tt, w))
  ∧ (∀ a b c d, newSongs [a; b; c; d] 0 2 = Some [b; c; a; d]).
Proof.
  intros Hfrom Hto.
  destruct (newSongs_positions _ _ _ Hfrom Hto)
    as (songs' & Hnew & Hlen & Hpos & Hperm).
  split_and!; [exists songs'; split_and!; try done| | |done].
  - intros Hne. unfold onDragEnd. rewrite decide_True by done.
    rewrite Hnew. simpl. eauto.
  - intros w Hq Hne Hp.
    unfold reorderSongsInPlaylist, Store.try_catch, mbind, Store.Async_bind.
    rewrite StoreFacts.getPlaylists_eq, (StoreFacts.read_quiet w Hq).
    cbn [fst snd].
    assert (findIndex (λ p, pl_id p = pl_id playlist) (Store.stored w)
            ≠ (-1)%Z) as Hs.
    { intros Hn. apply StoreFacts.lookup_playlist_None in Hn. congruence. }
    rewrite (proj2 (Z.eqb_neq _ _) Hs).
    destruct (StoreFacts.at_index_found _ _ Hs) as (p & Hp' & _ & ->).
    rewrite Hp in Hp'. injection Hp' as <-.
    unfold mret at 1, Store.Async_ret.
    rewrite decide_False by done. rewrite decide_True by done.
    rewrite (omap_positions _ songs') by done.
    unfold Store.new_Date.
    rewrite StoreFacts.savePlaylist_quiet by done.
    set (p' :=
      {| pl_id := pl_id playlist; pl_name := pl_name playlist;
         pl_songs := songs'; pl_createdAt := pl_createdAt playlist;
         pl_updatedAt := Store.toISOString (hd Store.epoch (Store.clock w));
         pl_coverImage := pl_coverImage playlist |}).
    eexists _, p'. split; [done|]. rewrite StoreFacts.written_stored.
    split; [apply (StoreFacts.lookup_upsert _ p')|done].
  - unfold onDragEnd. by rewrite decide_False by (intros ?; done).
  - intros w Hq Hp.
    unfold reorderSongsInPlaylist, Store.try_catch, mbind, Store.Async_bind.
    rewrite StoreFacts.getPlaylists_eq, (StoreFacts.read_quiet w Hq).
    cbn [fst snd].
    assert (findIndex (λ p, pl_id p = pl_id playlist) (Store.stored w)
            ≠ (-1)%Z) as Hs.
    { intros Hn. apply StoreFacts.lookup_playlist_None in Hn. congruence. }
    rewrite (proj2 (Z.eqb_neq _ _) Hs).
    destruct (StoreFacts.at_index_found _ _ Hs) as (p & Hp' & _ & ->).
    unfold mret at 1, Store.Async_ret.
    by rewrite decide_True by done.
Qed.

Lemma reorder_moves_song_witness :
  ∃ songs',
    newSongs (pl_songs mixtape) 0 2 = Some songs'
    ∧ songs' = [song2; song3; song1; song4]
    ∧ (∃ shown, onDragEnd mixtape mixtape 0 2 = Some shown
         ∧ pl_songs shown = songs')
    ∧ (∃ w' p',
         reorderSongsInPlaylist (pl_id mixtape) 0 2 mixtape_world
           = (Store.Resolved tt, w')
         ∧ Store.lookup_playlist (pl_id mixtape) (Store.stored w') = Some p'
         ∧ pl_songs p' = songs').
Proof.
  destruct (reorder_moves_song mixtape mixtape 0 2)
    as [(songs' & Hnew & _ & _ & _ & Hshown & Hstore) _].
  - simpl. lia.
  - simpl. lia.
  - exists songs'. split_and!.
    + exact Hnew.
    + vm_compute in Hnew. by injection Hnew as <-.
    + apply Hshown. discriminate.
    + destruct (Hstore mixtape_world eq_refl) as (w' & p' & H1 & H2 & H3 & _);
        [discriminate|reflexivity|].
      by exists w', p'.
Defined.

End PlaylistDetailFacts.


(** ** The audio player session *)

Module PlayerFacts.
Import Player Samples.

Lemma getCurrentSongIndex_not_in_queue snap :
  not_in_queue snap → getCurrentSongIndex snap = -1.
Proof.
  unfold getCurrentSongIndex. intros [Hnil|Hno].
  - rewrite Hnil. by destruct (currentSong snap).
  - destruct (currentSong snap) as [current|]; [|done].
    destruct (Z.of_nat (length (playlist snap)) =? 0); [done|].
    apply findIndex_None, Forall_forall. eauto.
Qed.

Lemma getCurrentSongIndex_found snap current i entry :
  currentSong snap = Some current →
  list_find (λ song, song_id song = song_id current) (playlist snap)
    = Some (i, entry) →
  getCurrentSongIndex snap = Z.of_nat i
  ∧ (i < length (playlist snap))%nat.
Proof.
  intros Hcur Hfind. unfold getCurrentSongIndex. rewrite Hcur.
  pose proof Hfind as (Hi & _ & _)%list_find_Some.
  apply lookup_lt_Some in Hi.
  rewrite (proj2 (Z.eqb_neq _ _)) by lia.
  split; [by apply findIndex_Some with entry|done].
Qed.

Lemma playSong_at_lookup snap (i : Z) song :
  0 ≤ i →
  playlist snap !! Z.to_nat i = Some song →
  playSong_at snap i = playSong snap song.
Proof.
  intros Hi Hsong. unfold playSong_at.
  by rewrite <- (Z2Nat.id i), at_index_nat, Hsong by done.
Qed.


(** C8: without a loaded instance [seekTo] leaves the session as it is.
    With one, and the call not rejected, the sound is left at the target
    brought into [0, duration]: at 0 for a negative target, at the
    duration for a target past it, at the target otherwise; nothing else
    changes. *)
Theorem seekTo_clamps (σ : Session) (target : Z) :
  (playbackInstance (state σ) = None →
     call (λ snap, seekTo snap target) σ = σ)
  ∧ (∀ instance status,
       playbackInstance (state σ) = Some instance →
       loaded (runtime σ) !! instance = Some status →
       hd false (rejections (runtime σ)) = false →
       0 ≤ duration (state σ) →
       ∃ ms,
         loaded (runtime (call (λ snap, seekTo snap target) σ)) !! instance
           = Some (mkStatus (uri status) (nativePlaying status) ms)
         ∧ 0 ≤ ms ≤ duration (state σ)
         ∧ (target < 0 → ms = 0)
         ∧ (duration (state σ) < target → ms = duration (state σ))
         ∧ (0 ≤ target ≤ duration (state σ) → ms = target)
         ∧ state (call (λ snap, seekTo snap target) σ) = state σ).
Proof.
  split.
  - intros Hnone. unfold call, seekTo. by rewrite Hnone.
  - intros instance status Hinst Hloaded Hok Hdur.
    exists (clamped (state σ) target).
    unfold call, seekTo. rewrite Hinst. fold (clamped (state σ) target).
    cbn [run]. unfold settle. rewrite Hok. unfold on_loaded.
    cbn [loaded next_call]. rewrite Hloaded. cbn.
    rewrite lookup_insert_eq.
    unfold clamped.
    destruct (Z.ltb_spec target 0), (Z.gtb_spec target (duration (state σ)));
      split_and!; first [done | lia].
Qed.


Lemma stop_program_stopped σ instance (catch : Prog) :
  playbackInstance (state σ) = Some instance →
  stop_goes_through σ →
  stopped σ
    (run (Await (stopAsync instance)
            (Await (unloadAsync instance)
               (setPlaybackInstance None;; clear_current) catch) catch) σ).
Proof.
  intros Hinst Hgo. destruct (Hgo instance Hinst) as ([status Hl] & H1 & H2).
  cbn [run]. unfold settle. rewrite H1. unfold on_loaded.
  cbn [loaded next_call]. rewrite Hl. cbn [run with_runtime runtime rejections].
  unfold settle. cbn [rejections next_call]. rewrite H2.
  unfold stopped, apply, update, cleanup, with_runtime, unload, next_call.
  cbn. rewrite Hinst.
  split_and!; try done.
  intros i [= <-]. unfold cleanup, unload.
  rewrite decide_False by done. cbn. by rewrite !lookup_delete_eq.
Qed.



Lemma seekTo_clamps_witness :
  (∃ ms,
     loaded (runtime (call (λ snap, seekTo snap (-100)) playing)) !! 0%nat
       = Some (mkStatus (song_filePath song2) true ms)
     ∧ ms = 0)
  ∧ (∃ ms,
     loaded (runtime (call (λ snap, seekTo snap 999999) playing)) !! 0%nat
       = Some (mkStatus (song_filePath song2) true ms)
     ∧ ms = 200000).
Proof.
  split.
  - destruct (seekTo_clamps playing (-100)) as [_ Hseek].
    destruct (Hseek 0%nat (mkStatus (song_filePath song2) true 1000)
                eq_refl eq_refl eq_refl)
      as (ms & Hms & _ & Hneg & _); [simpl; lia|].
    exists ms. split; [exact Hms|]. apply Hneg. lia.
  - destruct (seekTo_clamps playing 999999) as [_ Hseek].
    destruct (Hseek 0%nat (mkStatus (song_filePath song2) true 1000)
                eq_refl eq_refl eq_refl)
      as (ms & Hms & _ & _ & Hpast & _); [simpl; lia|].
    exists ms. split; [exact Hms|]. apply Hpast. simpl. lia.
Defined.


(** *** One call at a time *)

Lemma size_at_most_one (m : gmap Sound SoundStatus) (sound : Sound) :
  (∀ s, is_Some (m !! s) → s = sound) → (size m ≤ 1)%nat.
Proof.
  intros Honly. destruct (m !! sound) as [status|] eqn:Hs.
  - assert (m = {[ sound := status ]}) as ->.
    { apply map_eq. intros s. destruct (decide (s = sound)) as [->|Hne].
      - by rewrite lookup_singleton_eq.
      - rewrite lookup_singleton_ne by congruence.
        destruct (m !! s) eqn:E; [|done]. exfalso. apply Hne, Honly. eauto. }
    by rewrite map_size_singleton.
  - assert (m = ∅) as ->; [|rewrite map_size_empty; lia].
    apply map_empty. intros s. destruct (m !! s) eqn:E; [|done].
    assert (s = sound) as -> by (apply Honly; eauto). congruence.
Qed.

Lemma idle_at_most_one σ : idle σ → (size (loaded (runtime σ)) ≤ 1)%nat.
Proof.
  intros Hidle. destruct (playbackInstance (state σ)) as [instance|] eqn:Hi.
  - apply (size_at_most_one _ instance). intros s Hs.
    apply Hidle in Hs. congruence.
  - apply (size_at_most_one _ 0%nat). intros s Hs.
    apply Hidle in Hs. congruence.
Qed.

Lemma idle_none_open σ :
  idle σ → playbackInstance (state σ) = None → loaded (runtime σ) = ∅.
Proof.
  intros Hidle Hnone. apply map_empty. intros s.
  destruct (loaded (runtime σ) !! s) eqn:E; [|done].
  assert (playbackInstance (state σ) = Some s) by (apply Hidle; eauto).
  congruence.
Qed.

Lemma none_open_idle σ : loaded (runtime σ) = ∅ → idle σ.
Proof. intros Hnone s. rewrite Hnone, lookup_empty. by intros [? ?]. Qed.

Lemma phase_at_most_one σ p :
  phase σ p → (size (loaded (runtime σ)) ≤ 1)%nat.
Proof.
  destruct 1 as [H|?? _ H|? H|? H|?? H|H];
    eauto using idle_at_most_one, none_open_idle, size_at_most_one.
Qed.

(** Calling [playSong] on a provider at rest. *)
Lemma phase_invoke σ song :
  idle σ →
  phase (advance (playSong (state σ) song) σ).2
        (advance (playSong (state σ) song) σ).1.
Proof.
  intros Hidle. unfold playSong, playSong_with. cbn [advance].
  destruct (playbackInstance (state σ)) as [instance|] eqn:Hi; cbn [fst snd].
  - apply phase_unloading; [done|]. intros s Hs. cbn in *. by apply Hidle.
  - apply phase_loading. cbn. by apply idle_none_open.
Qed.

(** The call that is not finished goes on to its next [await]. *)
Lemma phase_resume σ p :
  phase σ p → phase (advance p σ).2 (advance p σ).1.
Proof.
  destruct 1 as [H|instance song Hi H|song H|song H|song sound H|H];
    cbn [advance fst snd].
  - by constructor.
  - by constructor.
  - apply phase_loading. cbn. unfold cleanup.
    destruct (playbackInstance (state σ)) as [instance|]; [|done].
    destruct (decide _); [done|]. cbn. rewrite H. apply delete_empty.
  - by constructor.
  - apply phase_done. intros s Hs. cbn in *. f_equal. symmetry. apply H.
    unfold cleanup in Hs.
    destruct (playbackInstance (state σ)) as [instance|]; [|done].
    destruct (decide _); [done|]. cbn in Hs.
    destruct Hs as [x Hx]. apply lookup_delete_Some in Hx as [_ Hx]. eauto.
  - by apply phase_done.
Qed.

(** The runtime settles what the call awaits. *)
Lemma phase_settle_call σ a k catch :
  phase σ (Await a k catch) →
  phase (with_runtime σ (settle a (runtime σ)).2)
        (if (settle a (runtime σ)).1 then k else catch).
Proof.
  inversion 1 as [|instance song Hi Hidle| | | |]; subst.
  unfold settle. destruct (hd false (rejections (runtime σ))); cbn [fst snd].
  - by apply phase_failed.
  - apply phase_cleared. cbn. apply map_empty. intros s.
    apply lookup_delete_None.
    destruct (decide (instance = s)) as [|Hne]; [by left|right].
    destruct (loaded (runtime σ) !! s) eqn:E; [|done].
    assert (playbackInstance (state σ) = Some s) by (apply Hidle; eauto).
    congruence.
Qed.

Lemma phase_settle_create σ uri shouldPlay k catch :
  phase σ (createAsync uri shouldPlay k catch) →
  match settle_create uri shouldPlay (runtime σ) with
  | (Some sound, rt) => phase (with_runtime σ rt) (k sound)
  | (None, rt) => phase (with_runtime σ rt) catch
  end.
Proof.
  inversion 1 as [| | |song Hnone| |]; subst.
  unfold settle_create. destruct (hd false (rejections (runtime σ))).
  - apply phase_failed, none_open_idle. by cbn.
  - apply phase_loaded. cbn. rewrite Hnone. intros s [x Hx].
    apply lookup_insert_Some in Hx as [[? _]|[_ Hx]]; [done|].
    by rewrite lookup_empty in Hx.
Qed.

Lemma finished_lookup (finished : list Prog) (p : Prog) (i : nat) (q : Prog) :
  Forall (λ q, q = Done) finished →
  (finished ++ [p]) !! i = Some q →
  (q = Done ∧ (i < length finished)%nat) ∨ (q = p ∧ i = length finished).
Proof.
  intros Hfin Hq. apply lookup_app_Some in Hq as [Hq|[Hge Hq]].
  - left. split; [|by eapply lookup_lt_Some].
    rewrite Forall_forall in Hfin. apply Hfin. by eapply list_elem_of_lookup_2.
  - right. apply list_lookup_singleton_Some in Hq as [Hi ->].
    split; [done|lia].
Qed.

Lemma insert_last (finished : list Prog) (p q : Prog) :
  <[length finished := q]> (finished ++ [p]) = finished ++ [q].
Proof. by rewrite insert_app_r_alt, Nat.sub_diag by lia. Qed.

Lemma one_at_a_time_step c c' e :
  one_at_a_time c →
  match e with
  | Invoke f => quiescent c ∧ ∃ song, f = λ snap, playSong snap song
  | _ => True
  end →
  step e c = Some c' →
  one_at_a_time c'.
Proof.
  intros Hinv He Hstep. destruct e as [f|i|i]; cbn [step] in Hstep.
  - destruct He as [Hq (song & ->)].
    assert (idle (session c)) as Hidle.
    { destruct Hinv as [[_ ?]|(finished & p & Hpool & Hfin & Hp)]; [done|].
      unfold quiescent in Hq. rewrite Hpool in Hq.
      rewrite Forall_app, Forall_singleton in Hq. destruct Hq as [_ ->]. by inversion Hp. }
    pose proof (phase_invoke _ song Hidle) as Hp.
    destruct (advance _ _) as [p σ]. injection Hstep as <-.
    right. exists (pool c), p. split_and!; [done|exact Hq|exact Hp].
  - destruct Hinv as [[Hnil _]|(finished & p & Hpool & Hfin & Hp)].
    { by rewrite Hnil in Hstep. }
    rewrite Hpool in Hstep.
    destruct ((finished ++ [p]) !! i) as [q|] eqn:Hq; [|done].
    destruct (finished_lookup _ _ _ _ Hfin Hq) as [[-> _]|[-> ->]]; [done|].
    destruct p as [|s k|a k catch|uri shouldPlay k catch]; try done.
    + pose proof (phase_settle_call _ _ _ _ Hp) as Hp'.
      destruct (settle a _) as [ok rt]. rewrite insert_last in Hstep.
      injection Hstep as <-.
      right. by exists finished, (if ok then k else catch).
    + pose proof (phase_settle_create _ _ _ _ _ Hp) as Hp'.
      destruct (settle_create _ _ _) as [[sound|] rt];
        rewrite insert_last in Hstep; injection Hstep as <-;
        right; eauto.
  - destruct Hinv as [[Hnil _]|(finished & p & Hpool & Hfin & Hp)].
    { by rewrite Hnil in Hstep. }
    rewrite Hpool in Hstep.
    destruct ((finished ++ [p]) !! i) as [q|] eqn:Hq; [|done].
    destruct (finished_lookup _ _ _ _ Hfin Hq) as [[-> Hlt]|[-> ->]].
    + cbn [advance] in Hstep. injection Hstep as <-.
      right. exists finished, p. split_and!; [|done..]. cbn.
      apply list_insert_id. by rewrite <- Hq.
    + pose proof (phase_resume _ _ Hp) as Hp'.
      destruct (advance p _) as [p' σ]. rewrite insert_last in Hstep.
      injection Hstep as <-.
      right. by exists finished, p'.
Qed.

(** When [playSong] is only called once the calls before it have
    finished, at most one audio resource is open at every point, whatever
    the runtime rejects. *)
Lemma sequential_playSong_one_open (c : Config) :
  sequential c → (open_resources c ≤ 1)%nat.
Proof.
  intros Hseq. assert (one_at_a_time c) as Hinv.
  { induction Hseq as [script|c c' song _ IH Hq Hstep
                       |c c' i _ IH Hstep|c c' i _ IH Hstep].
    - left. split; [done|]. apply none_open_idle. done.
    - eapply one_at_a_time_step; [exact IH| |exact Hstep]. split; eauto.
    - eapply one_at_a_time_step; [exact IH| |exact Hstep]. done.
    - eapply one_at_a_time_step; [exact IH| |exact Hstep]. done. }
  unfold open_resources.
  destruct Hinv as [[_ Hidle]|(finished & p & _ & _ & Hp)].
  - by apply idle_at_most_one.
  - by eapply phase_at_most_one.
Qed.

(** C1, where the code departs from it: [playSong song1] is called on a
    provider that holds no instance, and [playSong song2] is called
    before the first call has got its sound.  Neither call sees an
    instance to unload, each creates its sound, and once both
    [createAsync] have settled two audio resources are open and
    playing. *)
Theorem overlapping_playSong_opens_two :
  ∃ c,
    exec [Invoke (λ snap, playSong snap song1);
          Invoke (λ snap, playSong snap song2);
          Settle 0; Resume 0; Settle 1]
         (mkConfig mounted []) = Some c
    ∧ open_resources c = 2%nat
    ∧ loaded (runtime (session c)) !! 0%nat
      = Some (mkStatus (song_filePath song1) true 0)
    ∧ loaded (runtime (session c)) !! 1%nat
      = Some (mkStatus (song_filePath song2) true 0)
    ∧ playbackInstance (state (session c)) = Some 0%nat.
Proof. eexists. split_and!; reflexivity. Qed.

End PlayerFacts.


(** * Further properties *)

(** ** More about arrays *)

Section MoreArrayFacts.
Context {A : Type} (P : A → Prop) `{!∀ x, Decision (P x)}.

Lemma find_cons (x : A) (l : list A) :
  find P (x :: l) = if decide (P x) then Some x else find P l.
Proof.
  unfold find. cbn. destruct (decide (P x)); [done|].
  by destruct (list_find P l) as [[i y]|].
Qed.

Lemma find_insert_other (l : list A) (i : nat) (x y : A) :
  l !! i = Some x → ¬ P x → ¬ P y → find P (<[i:=y]> l) = find P l.
Proof.
  revert i. induction l as [|z l IH]; intros [|i] Hx Hnx Hny; try done.
  - cbn in Hx. injection Hx as ->.
    change (<[0%nat:=y]> (x :: l)) with (y :: l).
    by rewrite !find_cons, !decide_False.
  - cbn in Hx. change (<[S i:=y]> (z :: l)) with (z :: <[i:=y]> l).
    rewrite !find_cons.
    destruct (decide (P z)); [done|]. by eapply IH.
Qed.

Lemma find_snoc_other (l : list A) (y : A) :
  ¬ P y → find P (l ++ [y]) = find P l.
Proof.
  intros Hny. induction l as [|z l IH].
  - change ([] ++ [y]) with [y]. by rewrite find_cons, decide_False.
  - change ((z :: l) ++ [y]) with (z :: (l ++ [y])).
    rewrite !find_cons. by destruct (decide (P z)).
Qed.

Lemma find_filter (Q : A → Prop) `{!∀ x, Decision (Q x)} (l : list A) :
  (∀ x, P x → Q x) → find P (filter Q l) = find P l.
Proof.
  intros HPQ. induction l as [|z l IH]; [done|].
  destruct (decide (Q z)) as [Hq|Hq].
  - rewrite filter_cons_True by done. rewrite !find_cons.
    by destruct (decide (P z)).
  - rewrite filter_cons_False by done. rewrite find_cons.
    rewrite decide_False by (intros Hp; by apply Hq, HPQ). done.
Qed.

Lemma find_filter_none (l : list A) :
  find P (filter (λ x, ¬ P x) l) = None.
Proof.
  apply find_None, Forall_forall. intros x Hx.
  by apply list_elem_of_filter in Hx as [? _].
Qed.

Lemma NoDup_fmap_filter {B} (f : A → B) (l : list A) :
  NoDup (f <$> l) → NoDup (f <$> filter P l).
Proof.
  induction l as [|x l IH]; [done|]. rewrite fmap_cons, NoDup_cons.
  intros [Hx Hl]. destruct (decide (P x)).
  - rewrite filter_cons_True by done. rewrite fmap_cons, NoDup_cons.
    split; [|by apply IH]. intros Hin. apply Hx.
    apply list_elem_of_fmap in Hin as (y & -> & Hy).
    apply list_elem_of_filter in Hy as [_ Hy].
    by apply list_elem_of_fmap_2.
  - rewrite filter_cons_False by done. by apply IH.
Qed.
End MoreArrayFacts.


(** ** More about the playlist store *)

Module StoreMore.
Import Store StoreNotions Samples MoreSamples StoreFacts.

Lemma upsert_existing l p p' :
  lookup_playlist (pl_id p') l = Some p →
  ∃ i, l !! i = Some p ∧ upsert l p' = <[i:=p']> l.
Proof.
  intros Hp.
  assert (findIndex (λ q, pl_id q = pl_id p') l ≠ -1) as Hs.
  { intros Hn. apply lookup_playlist_None in Hn. congruence. }
  destruct (findIndex_inv _ l Hs) as (i & x & Hf & Hi & Hx & _).
  apply find_list_find in Hf. unfold lookup_playlist in Hp.
  rewrite Hf in Hp. injection Hp as ->.
  exists i. split; [done|]. unfold upsert. rewrite Hi.
  rewrite (proj2 (Z.gtb_lt _ _)) by lia. by rewrite Nat2Z.id.
Qed.

Lemma upsert_other l p' other :
  other ≠ pl_id p' →
  lookup_playlist other (upsert l p') = lookup_playlist other l.
Proof.
  intros Hne. unfold lookup_playlist.
  destruct (lookup_playlist (pl_id p') l) as [p|] eqn:Hp.
  - destruct (upsert_existing _ _ _ Hp) as (i & Hi & ->).
    apply lookup_playlist_id in Hp.
    apply find_insert_other with p; [done|congruence..].
  - apply lookup_playlist_None in Hp. unfold upsert. rewrite Hp. cbn.
    apply find_snoc_other. congruence.
Qed.

Lemma upsert_ids l p p' :
  lookup_playlist (pl_id p') l = Some p →
  pl_id <$> upsert l p' = pl_id <$> l.
Proof.
  intros Hp. destruct (upsert_existing _ _ _ Hp) as (i & Hi & ->).
  rewrite list_fmap_insert. apply list_insert_id.
  rewrite list_lookup_fmap, Hi. cbn. f_equal.
  by apply lookup_playlist_id in Hp.
Qed.

Lemma upsert_length l p p' :
  lookup_playlist (pl_id p') l = Some p → length (upsert l p') = length l.
Proof.
  intros Hp. destruct (upsert_existing _ _ _ Hp) as (i & Hi & ->).
  apply length_insert.
Qed.

(** X1: with the durable store answering, [savePlaylist] puts the
    playlist under its id and leaves what is found under every other id
    as it was.  When a playlist with that id is stored, it is replaced
    where it stands and the ids keep their order; otherwise the playlist
    is added at the end. *)
Theorem savePlaylist_upserts (w : World) (p : Playlist) :
  faults w = [] →
  ∃ w', savePlaylist p w = (Resolved tt, w')
    ∧ lookup_playlist (pl_id p) (stored w') = Some p
    ∧ (∀ other, other ≠ pl_id p →
         lookup_playlist other (stored w')
         = lookup_playlist other (stored w))
    ∧ (∀ old, lookup_playlist (pl_id p) (stored w) = Some old →
         ∃ i, stored w !! i = Some old
              ∧ stored w' = <[i:=p]> (stored w)
              ∧ pl_id <$> stored w' = pl_id <$> stored w)
    ∧ (lookup_playlist (pl_id p) (stored w) = None →
         stored w' = stored w ++ [p]).
Proof.
  intros Hq. rewrite savePlaylist_quiet by done.
  eexists. split; [done|]. rewrite written_stored. split_and!.
  - apply lookup_upsert.
  - intros other Hne. by apply upsert_other.
  - intros old Hold. destruct (upsert_existing _ _ _ Hold) as (i & Hi & Hu).
    exists i. split_and!; [done|done|]. by eapply upsert_ids.
  - intros Hnone. apply lookup_playlist_None in Hnone.
    unfold upsert. by rewrite Hnone.
Qed.

Lemma savePlaylist_upserts_witness :
  faults mixtape_world = []
  ∧ ∃ w', savePlaylist road_trip mixtape_world = (Resolved tt, w')
      ∧ lookup_playlist (pl_id road_trip) (stored w') = Some road_trip
      ∧ lookup_playlist (pl_id mixtape) (stored w') = Some mixtape.
Proof.
  split; [reflexivity|].
  destruct (savePlaylist_upserts mixtape_world road_trip eq_refl)
    as (w' & Hsave & Hp & Hother & _).
  exists w'. split_and!; [exact Hsave|exact Hp|].
  rewrite Hother; [reflexivity|discriminate].
Defined.

(** X2: with the durable store answering, [deletePlaylist] leaves no
    playlist under the id, so that [getPlaylist] answers [null]; the other
    playlists stay, in their order, and each is found under its id as
    before.  Deleting an id that is not stored writes the collection back
    as it was. *)
Theorem deletePlaylist_removes (w : World) (playlistId : string) :
  faults w = [] →
  ∃ w', deletePlaylist playlistId w = (Resolved tt, w')
    ∧ stored w' = filter (λ p, pl_id p ≠ playlistId) (stored w)
    ∧ getPlaylist playlistId w' = (Resolved None, w')
    ∧ (∀ other, other ≠ playlistId →
         lookup_playlist other (stored w')
         = lookup_playlist other (stored w))
    ∧ ((∀ p, p ∈ stored w → pl_id p ≠ playlistId) →
         stored w' = stored w).
Proof.
  intros Hq. rewrite deletePlaylist_eq, (read_quiet w Hq). cbn [fst snd].
  rewrite Hq. cbn [hd].
  exists (written (filter (λ p, pl_id p ≠ playlistId) (stored w)) w).
  split_and!.
  - destruct w; cbn in *. by subst.
  - done.
  - rewrite getPlaylist_eq, read_quiet by done. cbn [fst snd].
    rewrite written_stored. unfold lookup_playlist.
    by rewrite (find_filter_none (λ p, pl_id p = playlistId)).
  - intros other Hne. rewrite written_stored. unfold lookup_playlist.
    apply find_filter. intros p <-. done.
  - intros Habsent. rewrite written_stored.
    by apply filter_all, Forall_forall.
Qed.

Lemma deletePlaylist_removes_witness :
  faults mixtape_world = []
  ∧ ∃ w', deletePlaylist (pl_id road_trip) mixtape_world = (Resolved tt, w')
      ∧ stored w' = [mixtape]
      ∧ getPlaylist (pl_id road_trip) w' = (Resolved None, w').
Proof.
  split; [reflexivity|].
  destruct (deletePlaylist_removes mixtape_world (pl_id road_trip) eq_refl)
    as (w' & Hdel & Hstored & Hget & _).
  exists w'. split_and!; [exact Hdel|exact Hstored|exact Hget].
Defined.

Lemma has_song_some p songId :
  has_song p songId ↔ some (λ s, song_id s = songId) (pl_songs p) = true.
Proof. unfold has_song. by rewrite some_true. Qed.

Lemma not_has_song_some p songId :
  ¬ has_song p songId ↔ some (λ s, song_id s = songId) (pl_songs p) = false.
Proof. rewrite has_song_some. by destruct (some _ _). Qed.

Lemma addSongToPlaylist_quiet w playlistId song p :
  faults w = [] →
  lookup_playlist playlistId (stored w) = Some p →
  ¬ has_song p (song_id song) →
  addSongToPlaylist playlistId song w
  = (Resolved tt,
     written (upsert (stored w)
                (added p song (toISOString (hd epoch (clock w)))))
             (after_clock w)).
Proof.
  intros Hq Hp Hnew. rewrite addSongToPlaylist_eq, (read_quiet w Hq).
  cbn [fst snd]. rewrite Hp. apply not_has_song_some in Hnew. rewrite Hnew.
  by rewrite savePlaylist_quiet.
Qed.

Lemma removeSongFromPlaylist_quiet w playlistId songId p :
  faults w = [] →
  lookup_playlist playlistId (stored w) = Some p →
  removeSongFromPlaylist playlistId songId w
  = (Resolved tt,
     written (upsert (stored w)
                (removed p songId (toISOString (hd epoch (clock w)))))
             (after_clock w)).
Proof.
  intros Hq Hp. rewrite removeSongFromPlaylist_eq, (read_quiet w Hq).
  cbn [fst snd]. rewrite Hp. by rewrite savePlaylist_quiet.
Qed.

Lemma lookup_upsert_at playlistId l p p' :
  lookup_playlist playlistId l = Some p → pl_id p' = pl_id p →
  lookup_playlist playlistId (upsert l p') = Some p'.
Proof.
  intros Hp Hid. rewrite <- (lookup_playlist_id _ _ _ Hp), <- Hid.
  apply lookup_upsert.
Qed.

(** X3: when the read that [savePlaylist] starts with is rejected and its
    write goes through, the stored collection becomes the saved playlist
    alone: every other playlist is lost, and the caller is told of no
    failure.  The same holds for [createPlaylist], and for
    [addSongToPlaylist] and [removeSongFromPlaylist] when it is their
    second read that is rejected. *)
Theorem failed_read_loses_playlists (w : World) (e : Error) :
  (hd None (faults w) = Some e → hd None (tl (faults w)) = None →
     (∀ p, ∃ w', savePlaylist p w = (Resolved tt, w')
                 ∧ storage w' = Some [p])
     ∧ (∀ name, ∃ p w', createPlaylist name w = (Resolved p, w')
                        ∧ storage w' = Some [p]))
  ∧ (hd None (faults w) = None → hd None (tl (faults w)) = Some e →
     hd None (tl (tl (faults w))) = None →
     ∀ playlistId p, lookup_playlist playlistId (stored w) = Some p →
       (∀ song, ¬ has_song p (song_id song) →
          ∃ p' w', addSongToPlaylist playlistId song w = (Resolved tt, w')
                   ∧ storage w' = Some [p']
                   ∧ pl_songs p' = pl_songs p ++ [song])
       ∧ (∀ songId,
          ∃ p' w', removeSongFromPlaylist playlistId songId w
                     = (Resolved tt, w')
                   ∧ storage w' = Some [p']
                   ∧ pl_songs p'
                     = filter (λ s, song_id s ≠ songId) (pl_songs p))).
Proof.
  assert (Hsave : ∀ w p, hd None (faults w) = Some e →
            hd None (tl (faults w)) = None →
            ∃ w', savePlaylist p w = (Resolved tt, w')
                  ∧ storage w' = Some [p]).
  { intros w0 p H0 H1. rewrite savePlaylist_eq, read_second_call, H1.
    eexists. split; [done|]. unfold read. rewrite H0. done. }
  split.
  - intros H0 H1. split; [by auto|].
    intros name. rewrite createPlaylist_eq.
    destruct (Hsave (after_readings w) (fresh_playlist name w) H0 H1)
      as (w' & -> & Hst). eauto.
  - intros H0 H1 H2 playlistId p Hp.
    assert (read w = (stored w, after_io w)) as Hr.
    { unfold read. by rewrite H0. }
    split.
    + intros song Hnew. rewrite addSongToPlaylist_eq, Hr. cbn [fst snd].
      rewrite Hp. apply not_has_song_some in Hnew. rewrite Hnew.
      destruct (Hsave (after_clock (after_io w))
                  (added p song (toISOString (hd epoch (clock (after_io w)))))
                  H1 H2) as (w' & -> & Hst).
      eexists _, _. split_and!; [done|exact Hst|done].
    + intros songId. rewrite removeSongFromPlaylist_eq, Hr. cbn [fst snd].
      rewrite Hp.
      destruct (Hsave (after_clock (after_io w))
                  (removed p songId (toISOString (hd epoch (clock (after_io w)))))
                  H1 H2) as (w' & -> & Hst).
      eexists _, _. split_and!; [done|exact Hst|done].
Qed.

Lemma failed_read_loses_playlists_witness :
  storage failing_mixtape_read = Some [road_trip; mixtape]
  ∧ (∃ w', savePlaylist road_trip failing_mixtape_read = (Resolved tt, w')
           ∧ storage w' = Some [road_trip])
  ∧ (∃ p' w', addSongToPlaylist (pl_id road_trip) song2
                failing_second_read = (Resolved tt, w')
              ∧ storage w' = Some [p']
              ∧ pl_songs p' = [song1; song2]).
Proof.
  split; [reflexivity|]. split.
  - apply (failed_read_loses_playlists failing_mixtape_read
             (mkError "storage unavailable")); reflexivity.
  - apply (failed_read_loses_playlists failing_second_read
             (mkError "storage unavailable")) with (p := road_trip);
      try reflexivity.
    intros (s & Hs & Hid). apply list_elem_of_singleton in Hs. by subst s.
Defined.

(** X4: when their first read of the durable store is rejected,
    [addSongToPlaylist] and [removeSongFromPlaylist] fail with "Playlist
    not found", whatever is stored, and write nothing. *)
Theorem failed_read_reports_not_found
    (w : World) (e : Error) (playlistId : string) :
  hd None (faults w) = Some e →
  (∀ song, ∃ w', addSongToPlaylist playlistId song w
                   = (Rejected (mkError "Playlist not found"), w')
                 ∧ storage w' = storage w)
  ∧ (∀ songId, ∃ w', removeSongFromPlaylist playlistId songId w
                       = (Rejected (mkError "Playlist not found"), w')
                     ∧ storage w' = storage w).
Proof.
  intros H0.
  assert ((read w).1 = []) as Hr by (unfold read; by rewrite H0).
  assert (storage (read w).2 = storage w) as Hs
    by (unfold read; by rewrite H0).
  split.
  - intros song. rewrite addSongToPlaylist_eq, Hr. cbn. eauto.
  - intros songId. rewrite removeSongFromPlaylist_eq, Hr. cbn. eauto.
Qed.

Lemma failed_read_reports_not_found_witness :
  lookup_playlist (pl_id road_trip) (stored failing_read) = Some road_trip
  ∧ ∃ w', addSongToPlaylist (pl_id road_trip) song2 failing_read
            = (Rejected (mkError "Playlist not found"), w')
          ∧ storage w' = storage failing_read.
Proof.
  split; [reflexivity|].
  apply (failed_read_reports_not_found failing_read
           (mkError "storage unavailable") (pl_id road_trip) eq_refl).
Defined.

(** X5: with the durable store answering, a successful
    [addSongToPlaylist] or [removeSongFromPlaylist] changes the target
    playlist only: the stored playlists keep their number and the order of
    their ids, and what is found under every other id is as before. *)
Theorem add_remove_touch_one_playlist
    (w w' : World) (playlistId : string) :
  faults w = [] →
  (∀ song, addSongToPlaylist playlistId song w = (Resolved tt, w') →
     only_target playlistId w w')
  ∧ (∀ songId,
     removeSongFromPlaylist playlistId songId w = (Resolved tt, w') →
     only_target playlistId w w').
Proof.
  intros Hq.
  assert (Hupsert : ∀ p p', lookup_playlist playlistId (stored w) = Some p →
            pl_id p' = pl_id p →
            only_target playlistId w
              (written (upsert (stored w) p') (after_clock w))).
  { intros p p' Hp Hid. pose proof (lookup_playlist_id _ _ _ Hp) as Hpid.
    unfold only_target. rewrite written_stored. split.
    - eapply upsert_ids. by rewrite Hid, Hpid.
    - intros other Hne. apply upsert_other. congruence. }
  split.
  - intros song Hadd.
    destruct (lookup_playlist playlistId (stored w)) as [p|] eqn:Hp.
    + destruct (decide (some (λ s, song_id s = song_id song) (pl_songs p)
                        = true)) as [Hdup|Hnew].
      * rewrite addSongToPlaylist_eq, (read_quiet w Hq) in Hadd.
        cbn [fst snd] in Hadd. by rewrite Hp, Hdup in Hadd.
      * rewrite (addSongToPlaylist_quiet w playlistId song p) in Hadd;
          [|done..|by rewrite has_song_some].
        injection Hadd as <-. by apply (Hupsert p).
    + rewrite addSongToPlaylist_eq, (read_quiet w Hq) in Hadd.
      cbn [fst snd] in Hadd. by rewrite Hp in Hadd.
  - intros songId Hrem.
    destruct (lookup_playlist playlistId (stored w)) as [p|] eqn:Hp.
    + rewrite (removeSongFromPlaylist_quiet w playlistId songId p) in Hrem
        by done.
      injection Hrem as <-. by apply (Hupsert p).
    + rewrite removeSongFromPlaylist_eq, (read_quiet w Hq) in Hrem.
      cbn [fst snd] in Hrem. by rewrite Hp in Hrem.
Qed.

Lemma add_remove_touch_one_playlist_witness :
  faults mixtape_world = []
  ∧ only_target (pl_id road_trip) mixtape_world
      (addSongToPlaylist (pl_id road_trip) song2 mixtape_world).2
  ∧ lookup_playlist (pl_id mixtape)
      (stored (addSongToPlaylist (pl_id road_trip) song2 mixtape_world).2)
    = Some mixtape.
Proof.
  split; [reflexivity|].
  destruct (add_remove_touch_one_playlist mixtape_world
              (addSongToPlaylist (pl_id road_trip) song2 mixtape_world).2
              (pl_id road_trip) eq_refl) as [Hadd _].
  pose proof (Hadd song2 eq_refl) as Honly. split; [exact Honly|].
  destruct Honly as [_ Hother]. rewrite Hother; [reflexivity|discriminate].
Defined.

(** X6: with the durable store answering, adding a song that the playlist
    does not hold and then removing it gives the playlist its songs back,
    with its id, name and [createdAt]; the cover is the one it had when
    that was the cover of its first song. *)
Theorem add_then_remove_restores
    (w : World) (playlistId : string) (song : DownloadedSong) (p : Playlist) :
  faults w = [] →
  lookup_playlist playlistId (stored w) = Some p →
  ¬ has_song p (song_id song) →
  ∃ w1 w2 p2,
    addSongToPlaylist playlistId song w = (Resolved tt, w1)
    ∧ removeSongFromPlaylist playlistId (song_id song) w1 = (Resolved tt, w2)
    ∧ lookup_playlist playlistId (stored w2) = Some p2
    ∧ pl_songs p2 = pl_songs p
    ∧ pl_id p2 = pl_id p ∧ pl_name p2 = pl_name p
    ∧ pl_createdAt p2 = pl_createdAt p
    ∧ (cover_inv p → pl_coverImage p2 = pl_coverImage p).
Proof.
  intros Hq Hp Hnew.
  set (p1 := added p song (toISOString (hd epoch (clock w)))).
  set (w1 := written (upsert (stored w) p1) (after_clock w)).
  assert (lookup_playlist playlistId (stored w1) = Some p1) as Hp1.
  { unfold w1. rewrite written_stored. by eapply lookup_upsert_at. }
  set (p2 := removed p1 (song_id song) (toISOString (hd epoch (clock w1)))).
  exists w1, (written (upsert (stored w1) p2) (after_clock w1)), p2.
  split_and!; try done.
  - by apply addSongToPlaylist_quiet.
  - by apply removeSongFromPlaylist_quiet.
  - rewrite written_stored. by eapply lookup_upsert_at.
  - assert (pl_songs p2 = pl_songs p) as Hsongs; [|done].
    cbn. rewrite filter_app, filter_cons_False, filter_nil, app_nil_r
      by (intros Hne; by apply Hne).
    apply filter_all, Forall_forall. intros s Hs Hid. apply Hnew. by exists s.
  - intros Hinv. unfold cover_inv in Hinv. rewrite Hinv. cbn.
    rewrite filter_app, filter_cons_False, filter_nil, app_nil_r
      by (intros Hne; by apply Hne).
    rewrite filter_all
      by (apply Forall_forall; intros s Hs Hid; apply Hnew; by exists s).
    by destruct (pl_songs p).
Qed.

Lemma add_then_remove_restores_witness :
  ∃ w1 w2 p2,
    addSongToPlaylist (pl_id road_trip) song2 quiet_world = (Resolved tt, w1)
    ∧ removeSongFromPlaylist (pl_id road_trip) "s2" w1 = (Resolved tt, w2)
    ∧ lookup_playlist (pl_id road_trip) (stored w2) = Some p2
    ∧ pl_songs p2 = [song1]
    ∧ pl_coverImage p2 = Some "c1.jpg".
Proof.
  destruct (add_then_remove_restores quiet_world (pl_id road_trip) song2
              road_trip eq_refl eq_refl)
    as (w1 & w2 & p2 & H1 & H2 & H3 & H4 & _ & _ & _ & H5).
  - intros (s & Hs & Hid). apply list_elem_of_singleton in Hs. by subst s.
  - exists w1, w2, p2. split_and!; [exact H1|exact H2|exact H3|exact H4|].
    apply H5. reflexivity.
Defined.

(** X7: with the durable store answering, removing a song id twice is
    the same as removing it once: after the first removal no song of the
    playlist has the id, and the second leaves the songs and the cover as
    they are. *)
Theorem remove_twice_is_remove_once
    (w : World) (playlistId songId : string) (p : Playlist) :
  faults w = [] →
  lookup_playlist playlistId (stored w) = Some p →
  ∃ w1 w2 p1 p2,
    removeSongFromPlaylist playlistId songId w = (Resolved tt, w1)
    ∧ removeSongFromPlaylist playlistId songId w1 = (Resolved tt, w2)
    ∧ lookup_playlist playlistId (stored w1) = Some p1
    ∧ lookup_playlist playlistId (stored w2) = Some p2
    ∧ pl_songs p1 = filter (λ s, song_id s ≠ songId) (pl_songs p)
    ∧ ¬ has_song p1 songId
    ∧ pl_songs p2 = pl_songs p1
    ∧ pl_coverImage p2 = pl_coverImage p1.
Proof.
  intros Hq Hp.
  set (p1 := removed p songId (toISOString (hd epoch (clock w)))).
  set (w1 := written (upsert (stored w) p1) (after_clock w)).
  assert (lookup_playlist playlistId (stored w1) = Some p1) as Hp1.
  { unfold w1. rewrite written_stored. by eapply lookup_upsert_at. }
  set (p2 := removed p1 songId (toISOString (hd epoch (clock w1)))).
  assert (filter (λ s, song_id s ≠ songId) (pl_songs p1) = pl_songs p1)
    as Hagain.
  { apply filter_all, Forall_forall. intros s Hs.
    by apply list_elem_of_filter in Hs as [? _]. }
  exists w1, (written (upsert (stored w1) p2) (after_clock w1)), p1, p2.
  split_and!; try done.
  - by apply removeSongFromPlaylist_quiet.
  - by apply removeSongFromPlaylist_quiet.
  - rewrite written_stored. by eapply lookup_upsert_at.
  - intros (s & Hs & Hid).
    by apply list_elem_of_filter in Hs as [? _].
  - unfold p2, removed. cbn [pl_coverImage]. by rewrite Hagain.
Qed.

Lemma remove_twice_is_remove_once_witness :
  ∃ w1 w2 p1 p2,
    removeSongFromPlaylist (pl_id mixtape) "s2" mixtape_world
      = (Resolved tt, w1)
    ∧ removeSongFromPlaylist (pl_id mixtape) "s2" w1 = (Resolved tt, w2)
    ∧ lookup_playlist (pl_id mixtape) (stored w1) = Some p1
    ∧ lookup_playlist (pl_id mixtape) (stored w2) = Some p2
    ∧ pl_songs p1 = [song1; song3; song4]
    ∧ pl_songs p2 = [song1; song3; song4].
Proof.
  destruct (remove_twice_is_remove_once mixtape_world (pl_id mixtape) "s2"
              mixtape eq_refl eq_refl)
    as (w1 & w2 & p1 & p2 & H1 & H2 & H3 & H4 & H5 & _ & H6 & _).
  exists w1, w2, p1, p2.
  split_and!; [exact H1|exact H2|exact H3|exact H4|exact H5|].
  rewrite H6. exact H5.
Defined.

(** X8: a successful [addSongToPlaylist] adds a song whose id the
    playlist did not hold, and a successful [removeSongFromPlaylist]
    leaves no song with the id removed; so a playlist whose songs have
    ids that differ from one another keeps that through both, whatever
    the store does in between. *)
Theorem song_ids_stay_distinct (w w' : World) (playlistId : string) :
  (∀ song, addSongToPlaylist playlistId song w = (Resolved tt, w') →
     ∃ p p', lookup_playlist playlistId (stored w) = Some p
       ∧ lookup_playlist playlistId (stored w') = Some p'
       ∧ ¬ has_song p (song_id song)
       ∧ (distinct_ids p → distinct_ids p'))
  ∧ (∀ songId,
     removeSongFromPlaylist playlistId songId w = (Resolved tt, w') →
     ∃ p p', lookup_playlist playlistId (stored w) = Some p
       ∧ lookup_playlist playlistId (stored w') = Some p'
       ∧ ¬ has_song p' songId
       ∧ (distinct_ids p → distinct_ids p')).
Proof.
  split.
  - intros song. rewrite addSongToPlaylist_eq.
    destruct (lookup_playlist playlistId (read w).1) as [p|] eqn:Hp; [|done].
    destruct (some _ (pl_songs p)) eqn:Hnew; [done|].
    destruct (savePlaylist _ _) as [[[]|e] w2] eqn:Hsave; [|done].
    intros [= <-]. apply savePlaylist_resolved in Hsave.
    rewrite added_id, (lookup_playlist_id _ _ _ Hp) in Hsave.
    apply not_has_song_some in Hnew.
    eexists p, _. split_and!; [by eapply read_found|exact Hsave|done|].
    unfold distinct_ids. cbn. rewrite fmap_app, NoDup_app. intros Hd.
    split_and!; [done| |apply NoDup_singleton].
    intros id Hid Hin. apply list_elem_of_singleton in Hin. subst id.
    apply list_elem_of_fmap in Hid as (s & Hs & Hin). apply Hnew. by exists s.
  - intros songId. rewrite removeSongFromPlaylist_eq.
    destruct (lookup_playlist playlistId (read w).1) as [p|] eqn:Hp; [|done].
    destruct (savePlaylist _ _) as [[[]|e] w2] eqn:Hsave; [|done].
    intros [= <-]. apply savePlaylist_resolved in Hsave.
    rewrite removed_id, (lookup_playlist_id _ _ _ Hp) in Hsave.
    eexists p, _. split_and!; [by eapply read_found|exact Hsave| |].
    + intros (s & Hs & Hid). cbn in Hs.
      by apply list_elem_of_filter in Hs as [? _].
    + unfold distinct_ids. cbn. apply NoDup_fmap_filter.
Qed.

Lemma song_ids_stay_distinct_witness :
  distinct_ids mixtape
  ∧ ∃ p', lookup_playlist (pl_id mixtape)
            (stored (removeSongFromPlaylist (pl_id mixtape) "s2"
                       mixtape_world).2) = Some p'
          ∧ ¬ has_song p' "s2"
          ∧ distinct_ids p'.
Proof.
  assert (distinct_ids mixtape) as Hd.
  { unfold distinct_ids. apply (bool_decide_unpack _). reflexivity. }
  split; [exact Hd|].
  destruct (song_ids_stay_distinct mixtape_world
              (removeSongFromPlaylist (pl_id mixtape) "s2" mixtape_world).2
              (pl_id mixtape)) as [_ Hrem].
  destruct (Hrem "s2" eq_refl) as (p & p' & Hp & Hp' & Hnone & Hkeep).
  vm_compute in Hp. injection Hp as <-.
  exists p'. split_and!; [exact Hp'|exact Hnone|]. apply Hkeep, Hd.
Defined.

(** X9: with the durable store answering, [removeSongFromPlaylist] fails
    exactly when no stored playlist has the id; the error is "Playlist
    not found" and nothing is written. *)
Theorem removeSongFromPlaylist_fails_iff
    (w : World) (playlistId songId : string) :
  faults w = [] →
  ((∃ e w', removeSongFromPlaylist playlistId songId w = (Rejected e, w'))
   ↔ ∀ p, p ∈ stored w → pl_id p ≠ playlistId)
  ∧ ((∀ p, p ∈ stored w → pl_id p ≠ playlistId) →
     ∃ w', removeSongFromPlaylist playlistId songId w
             = (Rejected (mkError "Playlist not found"), w')
           ∧ storage w' = storage w).
Proof.
  intros Hq.
  assert (Habsent : (∀ p, p ∈ stored w → pl_id p ≠ playlistId) →
    ∃ w', removeSongFromPlaylist playlistId songId w
            = (Rejected (mkError "Playlist not found"), w')
          ∧ storage w' = storage w).
  { intros Hn. apply lookup_playlist_absent in Hn.
    rewrite removeSongFromPlaylist_eq, (read_quiet w Hq). cbn [fst snd].
    rewrite Hn. cbn. eauto. }
  split; [|done]. split.
  - intros (e & w' & Hrej). apply lookup_playlist_absent.
    destruct (lookup_playlist playlistId (stored w)) as [p|] eqn:Hp; [|done].
    by rewrite (removeSongFromPlaylist_quiet w playlistId songId p) in Hrej.
  - intros Hn. destruct (Habsent Hn) as (w' & ? & _). eauto.
Qed.

Lemma removeSongFromPlaylist_fails_iff_witness :
  faults quiet_world = []
  ∧ ∃ w', removeSongFromPlaylist "playlist_0_none" "s1" quiet_world
            = (Rejected (mkError "Playlist not found"), w')
          ∧ storage w' = storage quiet_world.
Proof.
  split; [reflexivity|].
  apply (removeSongFromPlaylist_fails_iff quiet_world "playlist_0_none" "s1"
           eq_refl).
  intros p Hp. apply list_elem_of_singleton in Hp. by subst p.
Defined.

End StoreMore.


(** ** More about the audio player session *)

Module PlayerMore.
Import Player Status Samples MoreSamples PlayerFacts.

Lemma findIndex_ge {A} (P : A → Prop) `{!∀ x, Decision (P x)} (l : list A) :
  -1 ≤ findIndex P l < Z.of_nat (length l).
Proof.
  unfold findIndex. destruct (list_find P l) as [[i x]|] eqn:E; [|lia].
  apply list_find_Some in E as (Hi & _). apply lookup_lt_Some in Hi. lia.
Qed.

Lemma getCurrentSongIndex_bounds snap :
  -1 ≤ getCurrentSongIndex snap < Z.of_nat (length (playlist snap))
  ∨ getCurrentSongIndex snap = -1.
Proof.
  unfold getCurrentSongIndex. destruct (currentSong snap); [|by right].
  destruct (_ =? 0); [by right|]. left. apply findIndex_ge.
Qed.

Lemma playSong_at_in_range snap (i : Z) :
  0 ≤ i < Z.of_nat (length (playlist snap)) →
  ∃ song, playlist snap !! Z.to_nat i = Some song
          ∧ playSong_at snap i = playSong snap song.
Proof.
  intros Hi.
  destruct (lookup_lt_is_Some_2 (playlist snap) (Z.to_nat i)) as [song Hs];
    [lia|].
  exists song. split; [done|]. apply playSong_at_lookup; [lia|done].
Qed.

(** [playNextSong] and [playPreviousSong] either return at once or are
    [playSong] of an entry of the queue. *)
Lemma playNextSong_cases snap :
  playNextSong snap = Done
  ∨ ∃ song, song ∈ playlist snap ∧ playNextSong snap = playSong snap song.
Proof.
  unfold playNextSong.
  destruct (Z.eqb_spec (Z.of_nat (length (playlist snap))) 0); [by left|].
  destruct (Z.eqb_spec (getCurrentSongIndex snap) (-1)); [by left|].
  right. destruct (getCurrentSongIndex_bounds snap) as [Hb|]; [|done].
  destruct (playSong_at_in_range snap
              (Z.rem (getCurrentSongIndex snap + 1)
                     (Z.of_nat (length (playlist snap)))))
    as (song & Hs & ->).
  { rewrite Z.rem_mod_nonneg by lia. apply Z.mod_pos_bound. lia. }
  exists song. split; [by eapply list_elem_of_lookup_2|done].
Qed.

Lemma playPreviousSong_cases snap :
  playPreviousSong snap = Done
  ∨ ∃ song, song ∈ playlist snap
            ∧ playPreviousSong snap = playSong snap song.
Proof.
  unfold playPreviousSong.
  destruct (Z.eqb_spec (Z.of_nat (length (playlist snap))) 0); [by left|].
  destruct (Z.eqb_spec (getCurrentSongIndex snap) (-1)); [by left|].
  right. destruct (getCurrentSongIndex_bounds snap) as [Hb|]; [|done].
  destruct (playSong_at_in_range snap
              (Z.rem (getCurrentSongIndex snap - 1
                      + Z.of_nat (length (playlist snap)))
                     (Z.of_nat (length (playlist snap)))))
    as (song & Hs & ->).
  { rewrite Z.rem_mod_nonneg by lia. apply Z.mod_pos_bound. lia. }
  exists song. split; [by eapply list_elem_of_lookup_2|done].
Qed.

(** *** The queue is out of reach of the transport functions *)

Lemma queue_kept_refl σ : queue_kept σ σ.
Proof. done. Qed.

Lemma queue_kept_trans σ1 σ2 σ3 :
  queue_kept σ1 σ2 → queue_kept σ2 σ3 → queue_kept σ1 σ3.
Proof. intros [? ?] [? ?]. split; congruence. Qed.

Lemma run_sets_no_queue p σ : sets_no_queue p → queue_kept σ (run p σ).
Proof.
  revert σ. induction p as [|s k IH|c k IHk catch IHc|uri sp k IHk catch IHc];
    intros σ Hp; cbn [run].
  - done.
  - apply queue_kept_trans with (apply s σ).
    + by destruct s.
    + apply IH. by destruct s.
  - destruct Hp as [Hk Hc]. destruct (settle c (runtime σ)) as [[] rt].
    + by apply (IHk (with_runtime σ rt)).
    + by apply (IHc (with_runtime σ rt)).
  - destruct Hp as [Hk Hc].
    destruct (settle_create uri sp (runtime σ)) as [[sound|] rt].
    + by apply (IHk sound (with_runtime σ rt)).
    + by apply (IHc (with_runtime σ rt)).
Qed.

Lemma playSong_sets_no_queue snap song : sets_no_queue (playSong snap song).
Proof.
  unfold playSong, playSong_with. cbn.
  destruct (playbackInstance snap); cbn; tauto.
Qed.

Lemma transport_sets_no_queue f snap :
  transport f → sets_no_queue (f snap).
Proof.
  destruct 1 as [song| | |position| | | | |status].
  - apply playSong_sets_no_queue.
  - unfold pauseSong. destruct (playbackInstance snap); cbn; tauto.
  - unfold resumeSong. destruct (playbackInstance snap); cbn; tauto.
  - unfold seekTo. destruct (playbackInstance snap); cbn; tauto.
  - destruct (playNextSong_cases snap) as [->|(song & _ & ->)];
      [done|apply playSong_sets_no_queue].
  - destruct (playPreviousSong_cases snap) as [->|(song & _ & ->)];
      [done|apply playSong_sets_no_queue].
  - unfold stopSong. destruct (playbackInstance snap); cbn; tauto.
  - unfold stopPlayback. destruct (playbackInstance snap); cbn; tauto.
  - destruct status as [|status]; [done|]. cbn.
    destruct (status_didJustFinish status); [|done].
    destruct (playNextSong_cases snap) as [->|(song & _ & ->)];
      [done|apply playSong_sets_no_queue].
Qed.

(** X10: no transport function ([playSong], [pauseSong], [resumeSong],
    [seekTo], [playNextSong], [playPreviousSong], [stopSong],
    [stopPlayback]) and no status update changes the queue or its source
    tag, whatever the runtime answers; so after any sequence of such
    calls the queue and the tag are those last set. *)
Theorem transport_keeps_queue
    (fs : list (PlayerState → Prog)) (σ : Session) :
  Forall transport fs → queue_kept σ (calls fs σ).
Proof.
  intros Hfs. revert σ. induction Hfs as [|f fs Hf _ IH]; intros σ; [done|].
  cbn. apply queue_kept_trans with (call f σ); [|apply IH].
  apply run_sets_no_queue. by apply transport_sets_no_queue.
Qed.

Lemma transport_keeps_queue_witness :
  queue_kept playing
    (calls [playNextSong; (λ snap, seekTo snap 5000); pauseSong;
            (λ snap, playSong snap song4); stopSong] playing).
Proof.
  apply transport_keeps_queue. repeat constructor.
Defined.

(** *** One resource between calls *)

Lemma run_advance p σ : run p σ = run (advance p σ).1 (advance p σ).2.
Proof. revert σ. induction p; intros σ; cbn; auto. Qed.

Lemma phase_invoke_from snap σ song :
  idle σ → playbackInstance snap = playbackInstance (state σ) →
  phase (advance (playSong snap song) σ).2
        (advance (playSong snap song) σ).1.
Proof.
  intros Hidle Hsnap. unfold playSong, playSong_with. cbn [advance].
  rewrite Hsnap.
  destruct (playbackInstance (state σ)) as [instance|] eqn:Hi; cbn [fst snd].
  - apply phase_unloading; [done|]. intros s Hs. cbn in *. by apply Hidle.
  - apply phase_loading. cbn. by apply idle_none_open.
Qed.

Lemma phase_run σ p : phase σ p → idle (run p σ).
Proof.
  assert (Hdone : ∀ σ p, phase σ p → (advance p σ).1 = Done →
            idle (run p σ)).
  { intros σ0 p0 Hp Hd. rewrite run_advance, Hd. cbn.
    apply phase_resume in Hp. rewrite Hd in Hp. by inversion Hp. }
  assert (Hfailed : ∀ σ, phase σ playSong_catch → idle (run playSong_catch σ)).
  { intros σ0 Hp. by apply Hdone. }
  assert (Hloaded : ∀ σ song sound, phase σ (after_load song sound) →
            idle (run (after_load song sound) σ)).
  { intros σ0 song sound Hp. by apply Hdone. }
  assert (Hloading : ∀ σ song, phase σ (loading song) →
            idle (run (loading song) σ)).
  { intros σ0 song Hp. apply phase_settle_create in Hp. unfold loading.
    cbn [run]. destruct (settle_create _ _ _) as [[sound|] rt]; auto. }
  assert (Hcleared : ∀ σ song,
            phase σ (setPlaybackInstance None;; loading song) →
            idle (run (setPlaybackInstance None;; loading song) σ)).
  { intros σ0 song Hp. apply phase_resume in Hp. cbn [run].
    cbn [advance fst snd] in Hp. by apply Hloading. }
  intros Hp. inversion Hp as [H|instance song Hi H|song H|song H|song sound H|H];
    subst; auto.
  apply phase_settle_call in Hp. cbn [run].
  destruct (settle _ _) as [[] rt]; cbn [fst snd] in Hp; auto.
Qed.

Lemma idle_playSong snap σ song :
  idle σ → playbackInstance snap = playbackInstance (state σ) →
  idle (run (playSong snap song) σ).
Proof.
  intros Hidle Hsnap. rewrite run_advance.
  by apply phase_run, phase_invoke_from.
Qed.

(** A session that holds the same instance and has no more resources
    open is at rest when the other is. *)
Lemma idle_same σ σ' :
  playbackInstance (state σ') = playbackInstance (state σ) →
  (∀ s, is_Some (loaded (runtime σ') !! s) →
        is_Some (loaded (runtime σ) !! s)) →
  idle σ → idle σ'.
Proof. intros Hi Hl Hidle s Hs. rewrite Hi. by apply Hidle, Hl. Qed.

Lemma on_loaded_domain s f rt s' :
  is_Some (loaded (on_loaded s f rt).2 !! s') →
  is_Some (loaded rt !! s').
Proof.
  unfold on_loaded. destruct (loaded rt !! s) as [status|] eqn:E; [|done].
  cbn. destruct (decide (s = s')) as [<-|Hne].
  - by rewrite E.
  - by rewrite lookup_insert_ne.
Qed.

Lemma settle_domain c rt s' :
  is_Some (loaded (settle c rt).2 !! s') → is_Some (loaded rt !! s').
Proof.
  unfold settle. destruct (hd false (rejections rt)); [done|].
  destruct c as [s|s|s|s|s ms]; cbn [snd];
    try (intros H; by apply on_loaded_domain in H).
  cbn. intros [x Hx]. apply lookup_delete_Some in Hx as [_ Hx]. eauto.
Qed.

(** One awaited call on the instance, with a [catch] block that only
    reports. *)
Lemma idle_single_call σ c (msg line : string) :
  idle σ →
  idle (run (Await c Done
               (console_error line;; setError (Some msg);; Done)) σ).
Proof.
  intros Hidle. cbn [run].
  pose proof (settle_domain c (runtime σ)) as Hdom.
  destruct (settle c (runtime σ)) as [[] rt]; cbn [snd] in Hdom;
    by apply idle_same with σ.
Qed.

Lemma idle_stop σ instance (msg line : string) :
  playbackInstance (state σ) = Some instance →
  idle σ →
  idle (run (Await (stopAsync instance)
               (Await (unloadAsync instance)
                  (setPlaybackInstance None;; clear_current)
                  (console_error line;; setError (Some msg);; Done))
               (console_error line;; setError (Some msg);; Done)) σ).
Proof.
  intros Hi Hidle. cbn [run].
  pose proof (settle_domain (stopAsync instance) (runtime σ)) as Hdom.
  destruct (settle (stopAsync instance) (runtime σ)) as [[] rt];
    cbn [snd] in Hdom; [|by apply idle_same with σ].
  cbn [run runtime with_runtime]. unfold settle.
  destruct (hd false (rejections rt)); [by apply idle_same with σ|].
  cbn. intros s [x Hx]. exfalso.
  unfold apply, with_runtime in Hx. cbn in Hx.
  unfold cleanup in Hx. rewrite Hi in Hx. rewrite decide_False in Hx by done.
  cbn in Hx. apply lookup_delete_Some in Hx as [_ Hx].
  apply lookup_delete_Some in Hx as [Hne Hx].
  assert (is_Some (loaded (runtime σ) !! s)) as Hs by (apply Hdom; eauto).
  apply Hidle in Hs. congruence.
Qed.

Lemma idle_apply_other s σ :
  (∀ v, s ≠ setPlaybackInstance v) → idle σ → idle (apply s σ).
Proof. intros Hs. apply idle_same; by destruct s; try (by destruct (Hs v)). Qed.

Lemma idle_transport f σ : transport f → idle σ → idle (call f σ).
Proof.
  intros Hf Hidle. unfold call.
  destruct Hf as [song| | |position| | | | |status].
  - by apply idle_playSong.
  - unfold pauseSong. destruct (playbackInstance (state σ)); [|done].
    by apply idle_single_call.
  - unfold resumeSong. destruct (playbackInstance (state σ)); [|done].
    by apply idle_single_call.
  - unfold seekTo. destruct (playbackInstance (state σ)); [|done].
    by apply idle_single_call.
  - destruct (playNextSong_cases (state σ)) as [->|(song & _ & ->)];
      [done|by apply idle_playSong].
  - destruct (playPreviousSong_cases (state σ)) as [->|(song & _ & ->)];
      [done|by apply idle_playSong].
  - unfold stopSong.
    destruct (playbackInstance (state σ)) as [instance|] eqn:Hi.
    + by apply idle_stop.
    + by apply idle_same with σ.
  - unfold stopPlayback.
    destruct (playbackInstance (state σ)) as [instance|] eqn:Hi.
    + by apply idle_stop.
    + by apply idle_same with σ.
  - destruct status as [|status]; [done|]. cbn [updatePlaybackStatus run].
    set (σ' := apply _ (apply _ (apply _ (apply _ σ)))).
    assert (idle σ') as Hidle' by (by apply idle_same with σ).
    destruct (status_didJustFinish status); [|done].
    destruct (playNextSong_cases (state σ)) as [->|(song & _ & ->)];
      [done|by apply idle_playSong].
Qed.

(** X11: whatever functions of the provider are called, one after the
    other, on a provider that was just mounted, and whatever the runtime
    rejects, the only audio resource that can be open afterwards is the
    instance the provider holds: there is never more than one. *)
Theorem one_resource_between_calls
    (fs : list (PlayerState → Prog)) (script : list bool) :
  Forall (λ f, transport f ∨ queue_setter f) fs →
  let σ := calls fs (mkSession initialState (mkRuntime ∅ 0%nat script) []) in
  idle σ ∧ (size (loaded (runtime σ)) ≤ 1)%nat.
Proof.
  intros Hfs.
  assert (∀ σ, idle σ → idle (calls fs σ)) as Hcalls.
  { induction Hfs as [|f fs Hf _ IH]; intros σ Hidle; [done|].
    cbn. apply IH. destruct Hf as [Hf|Hf].
    - by apply idle_transport.
    - by destruct Hf. }
  intros σ. split; [|apply idle_at_most_one]; apply Hcalls;
    by apply none_open_idle.
Qed.

Lemma one_resource_between_calls_witness :
  (size (loaded (runtime
     (calls [(λ snap, playSong snap song1);
             (λ _, setPlaylistAndUpdateCurrent [song1; song2]);
             playNextSong; pauseSong; (λ snap, playSong snap song3)]
            (mkSession initialState
               (mkRuntime ∅ 0%nat [false; true; false]) [])))) ≤ 1)%nat.
Proof.
  refine (proj2 (one_resource_between_calls
           [(λ snap, playSong snap song1);
            (λ _, setPlaylistAndUpdateCurrent [song1; song2]);
            playNextSong; pauseSong; (λ snap, playSong snap song3)]
           [false; true; false] _)).
  repeat (apply Forall_cons; split;
          [first [left; by constructor|right; by constructor]|]).
  by apply Forall_nil.
Defined.

(** *** [playSong], run to its end *)

(** Takes a session apart, so that a program runs on it by computation. *)
Ltac open_session σ :=
  destruct σ as [[cs ip il pi d p pl e ps] [ld cr rej] con];
  cbv beta iota delta
    [state runtime console loaded created rejections currentSong isPlaying
     isLoading playbackInstance duration position playlist error
     playlistSource] in *.

(** Runs the program of the goal on an opened session; the maps of the
    runtime are left as they are. *)
Ltac run_program :=
  repeat (progress
    (cbv beta iota zeta delta
       [run apply update with_runtime cleanup unload next_call settle
        settle_create on_loaded playSong_catch clear_current
        state runtime console loaded created rejections currentSong
        isPlaying isLoading playbackInstance duration position playlist
        error playlistSource hd tl];
     try rewrite decide_False by done)).

Lemma idle_playing : idle playing.
Proof.
  intros s [x Hx]. cbn in *.
  apply lookup_singleton_Some in Hx as [<- _]. done.
Qed.

Lemma idle_playing_unwilling : idle playing_unwilling.
Proof.
  intros s [x Hx]. cbn in *.
  apply lookup_singleton_Some in Hx as [<- _]. done.
Qed.

Lemma idle_delete σ instance :
  idle σ → playbackInstance (state σ) = Some instance →
  delete instance (loaded (runtime σ)) = ∅.
Proof.
  intros Hidle Hi. apply map_empty. intros s. apply lookup_delete_None.
  destruct (decide (instance = s)) as [|Hne]; [by left|right].
  destruct (loaded (runtime σ) !! s) eqn:E; [|done].
  assert (playbackInstance (state σ) = Some s) by (apply Hidle; eauto).
  congruence.
Qed.

Lemma playSong_willing snap σ song :
  idle σ → willing σ →
  playbackInstance snap = playbackInstance (state σ) →
  run (playSong snap song) σ = now_playing σ song.
Proof.
  intros Hidle Hw Hsnap. unfold willing in Hw.
  unfold playSong, playSong_with, now_playing. rewrite Hsnap.
  pose proof (idle_delete σ) as Hdel.
  pose proof (idle_none_open σ Hidle) as Hnone.
  open_session σ. subst rej. destruct pi as [instance|].
  - run_program. by rewrite (Hdel instance), delete_empty, insert_empty.
  - run_program. by rewrite Hnone.
Qed.

(** X12: on a provider at rest, with a runtime that rejects nothing,
    [playSong song] ends with [song] as the current song, [isPlaying]
    set, the error cleared, and the new sound as the instance held and
    as the only resource open, playing the file of [song] from the
    start.  [position] and [duration] keep the values of the song
    before, and [isLoading] stays set, until a status update comes. *)
Theorem playSong_starts_song (σ : Session) (song : DownloadedSong) :
  idle σ → willing σ →
  let σ' := call (λ snap, playSong snap song) σ in
  currentSong (state σ') = Some song
  ∧ isPlaying (state σ') = true
  ∧ error (state σ') = None
  ∧ playbackInstance (state σ') = Some (created (runtime σ))
  ∧ loaded (runtime σ')
    = {[ created (runtime σ) := mkStatus (song_filePath song) true 0 ]}
  ∧ position (state σ') = position (state σ)
  ∧ duration (state σ') = duration (state σ)
  ∧ isLoading (state σ') = true
  ∧ idle σ' ∧ willing σ'.
Proof.
  intros Hidle Hw σ'. unfold σ', call.
  rewrite playSong_willing by done. split_and!; try done.
  intros s [x Hx]. cbn in *.
  apply lookup_singleton_Some in Hx as [<- _]. done.
Qed.

Lemma playSong_starts_song_witness :
  idle playing ∧ willing playing
  ∧ currentSong (state (call (λ snap, playSong snap song3) playing))
    = Some song3
  ∧ loaded (runtime (call (λ snap, playSong snap song3) playing))
    = {[ 1%nat := mkStatus (song_filePath song3) true 0 ]}.
Proof.
  split; [exact idle_playing|]. split; [reflexivity|].
  destruct (playSong_starts_song playing song3 idle_playing eq_refl)
    as (H1 & _ & _ & _ & H5 & _).
  split; [exact H1|exact H5].
Defined.

(** X13: how [playSong] fails, on a provider at rest.  When
    [createAsync] is rejected (after an unload that went through, if
    there was an instance), no resource is left open and no instance is
    held: the song before has stopped too.  When the unload of the
    instance is rejected, that instance stays open and held, as the
    runtime had it.  In both cases the current song is cleared,
    [isPlaying] and [isLoading] are unset and the error is "Failed to
    play song". *)
Theorem playSong_failure (σ : Session) (song : DownloadedSong) :
  idle σ →
  let σ' := call (λ snap, playSong snap song) σ in
  (playbackInstance (state σ) = None → unwilling σ →
     state σ' = play_failed (state σ) None
     ∧ loaded (runtime σ') = ∅)
  ∧ (∀ instance, playbackInstance (state σ) = Some instance →
     hd false (rejections (runtime σ)) = false →
     hd false (tl (rejections (runtime σ))) = true →
     state σ' = play_failed (state σ) None
     ∧ loaded (runtime σ') = ∅)
  ∧ (∀ instance, playbackInstance (state σ) = Some instance →
     unwilling σ →
     state σ' = play_failed (state σ) (Some instance)
     ∧ loaded (runtime σ') = loaded (runtime σ)).
Proof.
  intros Hidle σ'.
  unfold σ', call, playSong, playSong_with, unwilling, play_failed.
  pose proof (idle_delete σ) as Hdel.
  pose proof (idle_none_open σ Hidle) as Hnone.
  open_session σ. split_and!.
  - intros -> Hrej. destruct rej as [|[] rej]; try done.
    run_program. by rewrite Hnone.
  - intros instance -> H0 H1. destruct rej as [|[] [|[] rej]]; try done.
    run_program. by rewrite (Hdel instance).
  - intros instance -> Hrej. destruct rej as [|[] rej]; try done.
Qed.

Lemma playSong_failure_witness :
  state (call (λ snap, playSong snap song3) playing_unwilling)
  = play_failed (state playing_unwilling) (Some 0%nat)
  ∧ loaded (runtime (call (λ snap, playSong snap song3) playing_unwilling))
    = loaded (runtime playing_unwilling).
Proof.
  destruct (playSong_failure playing_unwilling song3 idle_playing_unwilling)
    as (_ & _ & H).
  apply (H 0%nat); reflexivity.
Defined.

(** *** Pausing, resuming, seeking and stopping *)

(** X14: when the runtime rejects the call of [pauseSong], [resumeSong]
    or [seekTo], or the first call of [stopSong] or [stopPlayback], the
    function only records its error message: the other state cells are
    as before and the sounds that are loaded are untouched, so the
    instance stays open as it was. *)
Theorem rejected_call_only_sets_error
    (σ : Session) (instance : Sound) (position : Z) :
  playbackInstance (state σ) = Some instance →
  unwilling σ →
  (state (call pauseSong σ) = with_error (state σ) "Failed to pause song"
   ∧ loaded (runtime (call pauseSong σ)) = loaded (runtime σ))
  ∧ (state (call resumeSong σ) = with_error (state σ) "Failed to resume song"
     ∧ loaded (runtime (call resumeSong σ)) = loaded (runtime σ))
  ∧ (state (call (λ snap, seekTo snap position) σ)
     = with_error (state σ) "Failed to seek"
     ∧ loaded (runtime (call (λ snap, seekTo snap position) σ))
       = loaded (runtime σ))
  ∧ (state (call stopSong σ) = with_error (state σ) "Failed to stop song"
     ∧ loaded (runtime (call stopSong σ)) = loaded (runtime σ))
  ∧ (state (call stopPlayback σ)
     = with_error (state σ) "Failed to stop playback"
     ∧ loaded (runtime (call stopPlayback σ)) = loaded (runtime σ)).
Proof.
  intros Hi Hrej.
  unfold call, pauseSong, resumeSong, seekTo, stopSong, stopPlayback,
    with_error, unwilling in *.
  open_session σ. subst pi. destruct rej as [|[] rej]; try done.
Qed.

Lemma rejected_call_only_sets_error_witness :
  state (call pauseSong playing_unwilling)
  = with_error (state playing_unwilling) "Failed to pause song"
  ∧ loaded (runtime (call pauseSong playing_unwilling))
    = loaded (runtime playing_unwilling).
Proof.
  apply (rejected_call_only_sets_error playing_unwilling 0%nat 0);
    reflexivity.
Defined.

(** X15: with the instance loaded and no rejection, [pauseSong] and
    [resumeSong] change nothing but the playing flag of the sound: its
    file and its position stay, and so do all the state cells
    ([isPlaying] among them, which only a status update changes).
    Pausing a sound that plays and resuming it gives the runtime its
    sounds back as they were. *)
Theorem pause_resume (σ : Session) (instance : Sound) (status : SoundStatus) :
  playbackInstance (state σ) = Some instance →
  loaded (runtime σ) !! instance = Some status →
  hd false (rejections (runtime σ)) = false →
  (state (call pauseSong σ) = state σ
   ∧ loaded (runtime (call pauseSong σ))
     = <[instance := mkStatus (uri status) false (positionMillis status)]>
         (loaded (runtime σ)))
  ∧ (state (call resumeSong σ) = state σ
     ∧ loaded (runtime (call resumeSong σ))
       = <[instance := mkStatus (uri status) true (positionMillis status)]>
           (loaded (runtime σ)))
  ∧ (hd false (tl (rejections (runtime σ))) = false →
     nativePlaying status = true →
     state (calls [pauseSong; resumeSong] σ) = state σ
     ∧ loaded (runtime (calls [pauseSong; resumeSong] σ))
       = loaded (runtime σ)).
Proof.
  intros Hi Hl H0.
  unfold calls, call, pauseSong, resumeSong. cbn [foldl].
  open_session σ. subst pi. destruct rej as [|[] rej]; try done.
  - split_and!; [run_program; by rewrite Hl..|].
    intros _ Hplaying. run_program. rewrite Hl. run_program.
    rewrite lookup_insert_eq. split; [done|]. run_program.
    rewrite insert_insert_eq. apply insert_id.
    rewrite Hl. f_equal. destruct status; cbn in *. by subst.
  - split_and!; [run_program; by rewrite Hl..|].
    intros H1 Hplaying. destruct rej as [|[] rej]; try done.
    + run_program. rewrite Hl. run_program.
      rewrite lookup_insert_eq. split; [done|]. run_program.
      rewrite insert_insert_eq. apply insert_id.
      rewrite Hl. f_equal. destruct status; cbn in *. by subst.
    + run_program. rewrite Hl. run_program.
      rewrite lookup_insert_eq. split; [done|]. run_program.
      rewrite insert_insert_eq. apply insert_id.
      rewrite Hl. f_equal. destruct status; cbn in *. by subst.
Qed.

Lemma pause_resume_witness :
  loaded (runtime (call pauseSong playing))
  = {[ 0%nat := mkStatus (song_filePath song2) false 1000 ]}
  ∧ state (call pauseSong playing) = state playing
  ∧ loaded (runtime (calls [pauseSong; resumeSong] playing))
    = loaded (runtime playing).
Proof.
  destruct (pause_resume playing 0%nat
              (mkStatus (song_filePath song2) true 1000)
              eq_refl eq_refl eq_refl) as ([H1 H2] & _ & H3).
  split_and!.
  - rewrite H2. apply insert_singleton_eq.
  - exact H1.
  - apply H3; reflexivity.
Defined.

(** X16: when [stopAsync] goes through and the [unloadAsync] that
    follows is rejected, [stopSong] and [stopPlayback] leave the sound
    stopped at position 0 but still open, and still held as the
    instance; the current song is not cleared and the error is set. *)
Theorem stop_with_rejected_unload
    (σ : Session) (instance : Sound) (status : SoundStatus) :
  playbackInstance (state σ) = Some instance →
  loaded (runtime σ) !! instance = Some status →
  hd false (rejections (runtime σ)) = false →
  hd false (tl (rejections (runtime σ))) = true →
  (state (call stopSong σ) = with_error (state σ) "Failed to stop song"
   ∧ loaded (runtime (call stopSong σ))
     = <[instance := mkStatus (uri status) false 0]> (loaded (runtime σ)))
  ∧ (state (call stopPlayback σ)
     = with_error (state σ) "Failed to stop playback"
     ∧ loaded (runtime (call stopPlayback σ))
       = <[instance := mkStatus (uri status) false 0]> (loaded (runtime σ))).
Proof.
  intros Hi Hl H0 H1.
  unfold call, stopSong, stopPlayback, with_error.
  open_session σ. subst pi. destruct rej as [|[] [|[] rej]]; try done.
  split; run_program; by rewrite Hl.
Qed.

Lemma stop_with_rejected_unload_witness :
  currentSong (state (call stopSong stop_half_way)) = Some song2
  ∧ playbackInstance (state (call stopSong stop_half_way)) = Some 0%nat
  ∧ loaded (runtime (call stopSong stop_half_way))
    = {[ 0%nat := mkStatus (song_filePath song2) false 0 ]}.
Proof.
  destruct (stop_with_rejected_unload stop_half_way 0%nat
              (mkStatus (song_filePath song2) true 1000)
              eq_refl eq_refl eq_refl eq_refl) as ([H1 H2] & _).
  rewrite H1, H2. split_and!; [reflexivity..|]. apply insert_singleton_eq.
Defined.

(** *** Going through the queue *)

Lemma rem_of_nat (a n : nat) :
  (0 < n)%nat →
  Z.to_nat (Z.rem (Z.of_nat a) (Z.of_nat n)) = (a mod n)%nat.
Proof.
  intros Hn. rewrite Z.rem_mod_nonneg by lia.
  rewrite <- Nat2Z.inj_mod. apply Nat2Z.id.
Qed.

Lemma playNextSong_found snap current i entry :
  currentSong snap = Some current →
  list_find (λ song, song_id song = song_id current) (playlist snap)
    = Some (i, entry) →
  ∃ next,
    playlist snap !! ((i + 1) mod length (playlist snap))%nat = Some next
    ∧ playNextSong snap = playSong snap next.
Proof.
  intros Hcur Hfind.
  destruct (getCurrentSongIndex_found _ _ _ _ Hcur Hfind) as [Hidx Hlt].
  unfold playNextSong. rewrite Hidx.
  rewrite (proj2 (Z.eqb_neq _ 0)) by lia.
  rewrite (proj2 (Z.eqb_neq _ (-1))) by lia.
  replace (Z.of_nat i + 1) with (Z.of_nat (i + 1)) by lia.
  destruct (playSong_at_in_range snap
              (Z.rem (Z.of_nat (i + 1)) (Z.of_nat (length (playlist snap)))))
    as (next & Hnext & ->).
  { rewrite Z.rem_mod_nonneg by lia. apply Z.mod_pos_bound. lia. }
  rewrite rem_of_nat in Hnext by lia. eauto.
Qed.

Lemma playPreviousSong_found snap current i entry :
  currentSong snap = Some current →
  list_find (λ song, song_id song = song_id current) (playlist snap)
    = Some (i, entry) →
  ∃ previous,
    playlist snap !! ((i + length (playlist snap) - 1)
                      mod length (playlist snap))%nat = Some previous
    ∧ playPreviousSong snap = playSong snap previous.
Proof.
  intros Hcur Hfind.
  destruct (getCurrentSongIndex_found _ _ _ _ Hcur Hfind) as [Hidx Hlt].
  unfold playPreviousSong. rewrite Hidx.
  rewrite (proj2 (Z.eqb_neq _ 0)) by lia.
  rewrite (proj2 (Z.eqb_neq _ (-1))) by lia.
  replace (Z.of_nat i - 1 + Z.of_nat (length (playlist snap)))
    with (Z.of_nat (i + length (playlist snap) - 1)) by lia.
  destruct (playSong_at_in_range snap
              (Z.rem (Z.of_nat (i + length (playlist snap) - 1))
                     (Z.of_nat (length (playlist snap)))))
    as (previous & Hprev & ->).
  { rewrite Z.rem_mod_nonneg by lia. apply Z.mod_pos_bound. lia. }
  rewrite rem_of_nat in Hprev by lia. eauto.
Qed.

(** In a queue whose ids differ from one another, an entry is the first
    one with its id. *)
Lemma distinct_find (l : list DownloadedSong) (j : nat) (song : DownloadedSong) :
  NoDup (song_id <$> l) → l !! j = Some song →
  list_find (λ s, song_id s = song_id song) l = Some (j, song).
Proof.
  intros Hd Hj. apply list_find_Some. split_and!; [done|done|].
  intros k y Hk Hlt Hid.
  assert (k = j); [|lia].
  apply (NoDup_lookup (song_id <$> l) k j (song_id song)); [done|..].
  - by rewrite list_lookup_fmap, Hk, <- Hid.
  - by rewrite list_lookup_fmap, Hj.
Qed.

(** One step through the queue, forwards or backwards. *)
Lemma queue_step (σ : Session) (j : nat) :
  idle σ → willing σ → distinct_queue σ → plays σ j →
  let n := length (playlist (state σ)) in
  (∃ next, playlist (state σ) !! ((j + 1) mod n)%nat = Some next
           ∧ call playNextSong σ = now_playing σ next)
  ∧ (∃ previous, playlist (state σ) !! ((j + n - 1) mod n)%nat = Some previous
                 ∧ call playPreviousSong σ = now_playing σ previous).
Proof.
  intros Hidle Hw Hd (song & Hcur & Hj) n.
  pose proof (distinct_find _ _ _ Hd Hj) as Hfind.
  split.
  - destruct (playNextSong_found _ _ _ _ Hcur Hfind) as (next & Hn & Heq).
    exists next. split; [done|]. unfold call. rewrite Heq.
    by apply playSong_willing.
  - destruct (playPreviousSong_found _ _ _ _ Hcur Hfind)
      as (previous & Hp & Heq).
    exists previous. split; [done|]. unfold call. rewrite Heq.
    by apply playSong_willing.
Qed.

Lemma now_playing_keeps (σ : Session) (j : nat) (song : DownloadedSong) :
  distinct_queue σ → playlist (state σ) !! j = Some song →
  idle (now_playing σ song) ∧ willing (now_playing σ song)
  ∧ distinct_queue (now_playing σ song)
  ∧ plays (now_playing σ song) j
  ∧ playlist (state (now_playing σ song)) = playlist (state σ).
Proof.
  intros Hd Hj. split_and!; try done.
  - intros s [x Hx]. cbn in *.
    apply lookup_singleton_Some in Hx as [<- _]. done.
  - by exists song.
Qed.

Lemma mod_forth_back (j n : nat) :
  (j < n)%nat → (((j + 1) mod n + n - 1) mod n = j)%nat.
Proof.
  intros Hj. destruct (decide (j + 1 = n)%nat) as [Heq|Hne].
  - subst n. rewrite Nat.Div0.mod_same.
    replace (0 + (j + 1) - 1)%nat with j by lia. apply Nat.mod_small. lia.
  - rewrite (Nat.mod_small (j + 1)) by lia.
    replace (j + 1 + n - 1)%nat with (j + 1 * n)%nat by lia.
    rewrite Nat.Div0.mod_add. apply Nat.mod_small. lia.
Qed.

Lemma mod_back_forth (j n : nat) :
  (j < n)%nat → (((j + n - 1) mod n + 1) mod n = j)%nat.
Proof.
  intros Hj. destruct (decide (j = 0)%nat) as [->|Hne].
  - replace (0 + n - 1)%nat with (n - 1)%nat by lia.
    rewrite (Nat.mod_small (n - 1)) by lia.
    replace (n - 1 + 1)%nat with n by lia. apply Nat.Div0.mod_same.
  - replace (j + n - 1)%nat with (j - 1 + 1 * n)%nat by lia.
    rewrite Nat.Div0.mod_add, (Nat.mod_small (j - 1)) by lia.
    replace (j - 1 + 1)%nat with j by lia. apply Nat.mod_small. lia.
Qed.

(** X17: in a queue whose songs have ids that differ from one another,
    on a provider at rest that plays an entry of the queue, with a
    runtime that rejects nothing: [playNextSong] followed by
    [playPreviousSong], and [playPreviousSong] followed by
    [playNextSong], end on the song that was playing. *)
Theorem next_previous_cancel (σ : Session) (j : nat) :
  idle σ → willing σ → distinct_queue σ → plays σ j →
  currentSong (state (calls [playNextSong; playPreviousSong] σ))
  = currentSong (state σ)
  ∧ currentSong (state (calls [playPreviousSong; playNextSong] σ))
    = currentSong (state σ).
Proof.
  intros Hidle Hw Hd Hplays.
  pose proof Hplays as (song & Hcur & Hj).
  pose proof (lookup_lt_Some _ _ _ Hj) as Hlt.
  destruct (queue_step σ j Hidle Hw Hd Hplays)
    as [(next & Hn & Hnext) (previous & Hp & Hprevious)].
  cbn [calls foldl]. rewrite Hnext, Hprevious, Hcur. split.
  - destruct (now_playing_keeps σ _ next Hd Hn) as (Hi' & Hw' & Hd' & Hp' & Hq').
    destruct (queue_step _ _ Hi' Hw' Hd' Hp') as [_ (back & Hb & ->)].
    rewrite Hq', mod_forth_back in Hb by done. cbn. congruence.
  - destruct (now_playing_keeps σ _ previous Hd Hp)
      as (Hi' & Hw' & Hd' & Hp' & Hq').
    destruct (queue_step _ _ Hi' Hw' Hd' Hp') as [(forth & Hf & ->) _].
    rewrite Hq', mod_back_forth in Hf by done. cbn. congruence.
Qed.

Lemma next_previous_cancel_witness :
  currentSong (state (calls [playNextSong; playPreviousSong] playing))
  = Some song2
  ∧ currentSong (state (calls [playPreviousSong; playNextSong] playing))
    = Some song2.
Proof.
  apply (next_previous_cancel playing 1%nat idle_playing eq_refl).
  - apply (bool_decide_unpack _). reflexivity.
  - exists song2. split; reflexivity.
Defined.

Lemma next_many (k : nat) (σ : Session) (j : nat) :
  idle σ → willing σ → distinct_queue σ → plays σ j →
  plays (calls (replicate k playNextSong) σ)
        ((j + k) mod length (playlist (state σ)))%nat
  ∧ playlist (state (calls (replicate k playNextSong) σ))
    = playlist (state σ).
Proof.
  revert σ j. induction k as [|k IH]; intros σ j Hidle Hw Hd Hplays.
  - cbn. split; [|done]. destruct Hplays as (song & Hcur & Hj).
    rewrite Nat.add_0_r, Nat.mod_small by (by eapply lookup_lt_Some).
    by exists song.
  - cbn [replicate calls foldl].
    destruct (queue_step σ j Hidle Hw Hd Hplays) as [(next & Hn & ->) _].
    destruct (now_playing_keeps σ _ next Hd Hn) as (Hi' & Hw' & Hd' & Hp' & Hq').
    destruct (IH _ _ Hi' Hw' Hd' Hp') as [Hplays' Hqueue].
    fold (calls (replicate k playNextSong) (now_playing σ next)).
    rewrite Hq' in Hplays', Hqueue. split; [|done].
    rewrite Nat.Div0.add_mod_idemp_l in Hplays'.
    by replace (j + S k)%nat with (j + 1 + k)%nat by lia.
Qed.

(** X18: in a queue whose songs have ids that differ from one another,
    on a provider at rest that plays an entry of the queue, with a
    runtime that rejects nothing: as many [playNextSong] as the queue
    has songs go once around the queue and end on the song that was
    playing. *)
Theorem next_goes_around (σ : Session) (j : nat) :
  idle σ → willing σ → distinct_queue σ → plays σ j →
  currentSong
    (state (calls (replicate (length (playlist (state σ))) playNextSong) σ))
  = currentSong (state σ).
Proof.
  intros Hidle Hw Hd Hplays.
  destruct (next_many (length (playlist (state σ))) σ j Hidle Hw Hd Hplays)
    as [(song' & Hcur' & Hj') Hqueue].
  destruct Hplays as (song & Hcur & Hj).
  pose proof (lookup_lt_Some _ _ _ Hj) as Hlt.
  rewrite Hqueue in Hj'.
  replace (j + length (playlist (state σ)))%nat
    with (j + 1 * length (playlist (state σ)))%nat in Hj' by lia.
  rewrite Nat.Div0.mod_add, Nat.mod_small in Hj' by done.
  congruence.
Qed.

Lemma next_goes_around_witness :
  currentSong
    (state (calls [playNextSong; playNextSong; playNextSong] playing))
  = Some song2.
Proof.
  apply (next_goes_around playing 1%nat idle_playing eq_refl).
  - apply (bool_decide_unpack _). reflexivity.
  - exists song2. split; reflexivity.
Defined.

(** X30: the position from which [playNextSong] and
    [playPreviousSong] go on is that of the first entry of the queue
    with the id of the current song, on a provider at rest with a
    runtime that rejects nothing.  When the current song is a later
    entry with that id, the entries around it are not the ones
    played. *)
Theorem next_starts_from_first_occurrence (σ : Session) (i : nat) :
  idle σ → willing σ → current_at σ i →
  let n := length (playlist (state σ)) in
  ∃ next previous,
    playlist (state σ) !! ((i + 1) mod n)%nat = Some next
    ∧ call playNextSong σ = now_playing σ next
    ∧ playlist (state σ) !! ((i + n - 1) mod n)%nat = Some previous
    ∧ call playPreviousSong σ = now_playing σ previous.
Proof.
  intros Hidle Hw (current & entry & Hcur & Hfind) n.
  destruct (playNextSong_found _ _ _ _ Hcur Hfind) as (next & Hn & Hnext).
  destruct (playPreviousSong_found _ _ _ _ Hcur Hfind)
    as (previous & Hp & Hprevious).
  exists next, previous. unfold call. rewrite Hnext, Hprevious.
  split_and!; [done|by apply playSong_willing|done|by apply playSong_willing].
Qed.

Lemma next_starts_from_first_occurrence_witness :
  playlist (state playing_encore) !! 2%nat = currentSong (state playing_encore)
  ∧ call playNextSong playing_encore = now_playing playing_encore song2
  ∧ call playPreviousSong playing_encore = now_playing playing_encore song3.
Proof.
  assert (idle playing_encore) as Hidle.
  { intros s [x Hx]. cbn in *.
    apply lookup_singleton_Some in Hx as [<- _]. done. }
  assert (current_at playing_encore 0) as Hat
    by (exists encore, song1; split; reflexivity).
  destruct (next_starts_from_first_occurrence playing_encore 0%nat
              Hidle eq_refl Hat) as (next & previous & Hn & -> & Hp & ->).
  cbn in Hn, Hp. injection Hn as <-. injection Hp as <-. done.
Defined.

(** *** The end of a song *)

Lemma with_report_eq σ status :
  apply (setIsLoading false)
    (apply (setPosition (status_positionMillis status))
       (apply (setDuration (default 0 (status_durationMillis status)))
          (apply (setIsPlaying (status_isPlaying status)) σ)))
  = with_report σ status.
Proof. done. Qed.

Lemma playNextSong_not_in_queue snap :
  not_in_queue snap →
  playNextSong snap = Done ∧ playPreviousSong snap = Done.
Proof.
  intros Hno. apply getCurrentSongIndex_not_in_queue in Hno.
  unfold playNextSong, playPreviousSong. rewrite Hno.
  by destruct (Z.of_nat (length (playlist snap)) =? 0).
Qed.

Lemma finished_song_advances σ status i :
  status_didJustFinish status = true →
  idle σ → willing σ → current_at σ i →
  ∃ next,
    playlist (state σ) !! ((i + 1) mod length (playlist (state σ)))%nat
      = Some next
    ∧ call (λ snap, updatePlaybackStatus snap (StatusSuccess status)) σ
      = now_playing (with_report σ status) next.
Proof.
  intros Hfinish Hidle Hw (current & entry & Hcur & Hfind).
  unfold call, updatePlaybackStatus. cbn [run].
  rewrite with_report_eq, Hfinish.
  destruct (playNextSong_found _ _ _ _ Hcur Hfind) as (next & Hn & ->).
  exists next. split; [done|]. by apply playSong_willing.
Qed.

(** X19: what a status update does, for the callback of the latest
    render.  A status that is not loaded changes nothing.  A loaded one
    writes [isPlaying], [duration] (0 when the runtime gives none) and
    [position], and unsets [isLoading]; unless it says that the song just
    finished, and the current song is in the queue, it does nothing
    else, and no sound is touched.  When the song just finished, on a
    provider at rest with a runtime that rejects nothing, the entry after
    the current one (the first one after the last) is started as by
    [playSong]. *)
Theorem status_update (σ : Session) (status : AVPlaybackStatusSuccess) :
  call (λ snap, updatePlaybackStatus snap StatusError) σ = σ
  ∧ (status_didJustFinish status = false ∨ not_in_queue (state σ) →
     call (λ snap, updatePlaybackStatus snap (StatusSuccess status)) σ
     = with_report σ status)
  ∧ (∀ i, status_didJustFinish status = true →
       idle σ → willing σ → current_at σ i →
       ∃ next,
         playlist (state σ) !! ((i + 1) mod length (playlist (state σ)))%nat
           = Some next
         ∧ call (λ snap, updatePlaybackStatus snap (StatusSuccess status)) σ
           = now_playing (with_report σ status) next).
Proof.
  split; [done|]. split.
  - unfold call, updatePlaybackStatus. cbn [run]. rewrite with_report_eq.
    intros [->|Hno]; [done|].
    apply playNextSong_not_in_queue in Hno as [-> _].
    by destruct (status_didJustFinish status).
  - intros i Hfinish Hidle Hw Hat. by apply finished_song_advances.
Qed.

Lemma status_update_witness :
  call (λ snap, updatePlaybackStatus snap (StatusSuccess finished)) playing
  = now_playing (with_report playing finished) song3.
Proof.
  destruct (status_update playing finished) as (_ & _ & Hadvance).
  destruct (Hadvance 1%nat eq_refl idle_playing eq_refl)
    as (next & Hnext & ->).
  - exists song2, song2. split; reflexivity.
  - vm_compute in Hnext. by injection Hnext as <-.
Defined.

(** *** After a stop *)

Lemma stop_clears_current σ :
  stop_goes_through σ →
  currentSong (state (call stopSong σ)) = None
  ∧ currentSong (state (call stopPlayback σ)) = None.
Proof.
  intros Hgo. unfold call, stopSong, stopPlayback.
  destruct (playbackInstance (state σ)) as [instance|] eqn:Hi; [|done].
  split; by eapply stop_program_stopped.
Qed.

Lemma no_current_song_not_in_queue snap :
  currentSong snap = None → not_in_queue snap.
Proof. intros Hnone. right. intros current Hcur. congruence. Qed.

(** X20: once [stopSong] or [stopPlayback] has gone through, the queue
    is still there but nothing moves in it: [playNextSong] and
    [playPreviousSong] change nothing, and a status update that reports
    the end of a song starts no other song. *)
Theorem stopped_queue_stands_still
    (σ : Session) (status : AVPlaybackStatusSuccess) :
  stop_goes_through σ →
  (let σ' := call stopSong σ in
   playlist (state σ') = playlist (state σ)
   ∧ call playNextSong σ' = σ'
   ∧ call playPreviousSong σ' = σ'
   ∧ call (λ snap, updatePlaybackStatus snap (StatusSuccess status)) σ'
     = with_report σ' status)
  ∧ (let σ' := call stopPlayback σ in
     playlist (state σ') = playlist (state σ)
     ∧ call playNextSong σ' = σ'
     ∧ call playPreviousSong σ' = σ'
     ∧ call (λ snap, updatePlaybackStatus snap (StatusSuccess status)) σ'
       = with_report σ' status).
Proof.
  intros Hgo. destruct (stop_clears_current σ Hgo) as [H1 H2].
  assert (Hstill : ∀ σ', currentSong (state σ') = None →
            call playNextSong σ' = σ'
            ∧ call playPreviousSong σ' = σ'
            ∧ call (λ snap, updatePlaybackStatus snap (StatusSuccess status)) σ'
              = with_report σ' status).
  { intros σ' Hnone. apply no_current_song_not_in_queue in Hnone.
    destruct (playNextSong_not_in_queue _ Hnone) as [Hn Hp].
    unfold call. rewrite Hn, Hp. split_and!; [done|done|].
    cbn [updatePlaybackStatus run]. rewrite with_report_eq, Hn.
    by destruct (status_didJustFinish status). }
  split; intros σ'.
  - split; [|by apply Hstill].
    apply (run_sets_no_queue (stopSong (state σ)) σ).
    apply transport_sets_no_queue. constructor.
  - split; [|by apply Hstill].
    apply (run_sets_no_queue (stopPlayback (state σ)) σ).
    apply transport_sets_no_queue. constructor.
Qed.

Lemma stopped_queue_stands_still_witness :
  playlist (state (call stopSong playing)) = [song1; song2; song3]
  ∧ call playNextSong (call stopSong playing) = call stopSong playing.
Proof.
  assert (stop_goes_through playing) as Hgo.
  { intros instance [= <-]. split_and!; [by eexists|reflexivity..]. }
  destruct (stopped_queue_stands_still playing finished Hgo)
    as [(H1 & H2 & _) _].
  split; [exact H1|exact H2].
Defined.

(** *** One call at a time, at every point *)

Lemma sequential_one_at_a_time (c : Config) :
  sequential c → one_at_a_time c.
Proof.
  induction 1 as [script|c c' song _ IH Hq Hstep
                 |c c' i _ IH Hstep|c c' i _ IH Hstep].
  - left. split; [done|]. apply none_open_idle. done.
  - eapply one_at_a_time_step; [exact IH| |exact Hstep]. split; eauto.
  - eapply one_at_a_time_step; [exact IH| |exact Hstep]. done.
  - eapply one_at_a_time_step; [exact IH| |exact Hstep]. done.
Qed.

(** X21: when [playSong] is only called once the calls before it have
    finished, then whatever the runtime rejects and whenever the calls
    are resumed, at most one audio resource is open at every point, and
    once every call has finished the only resource that may be open is
    the instance the provider holds. *)
Theorem sequential_calls_hold_one_resource (c : Config) :
  sequential c →
  (open_resources c ≤ 1)%nat ∧ (quiescent c → idle (session c)).
Proof.
  intros Hseq. apply sequential_one_at_a_time in Hseq.
  destruct Hseq as [[_ Hidle]|(finished & p & Hpool & Hdone & Hp)].
  - split; [|done]. by apply idle_at_most_one.
  - split; [by eapply phase_at_most_one|].
    intros Hq. unfold quiescent in Hq.
    rewrite Hpool, Forall_app, Forall_singleton in Hq.
    destruct Hq as [_ ->]. by inversion Hp.
Qed.

Lemma sequential_calls_hold_one_resource_witness :
  (open_resources second_call_loaded ≤ 1)%nat.
Proof.
  pose proof (sequential_mounted []) as H0.
  pose proof (sequential_invoke _ _ song1 H0 (Forall_nil_2 _) eq_refl) as H1.
  vm_compute in H1.
  pose proof (sequential_settle _ _ 0%nat H1 eq_refl) as H2.
  vm_compute in H2.
  pose proof (sequential_resume _ _ 0%nat H2 eq_refl) as H3.
  vm_compute in H3.
  assert (Forall (λ p, p = Done) [Done]) as Hq by (by apply Forall_singleton).
  pose proof (sequential_invoke _ _ song2 H3 Hq eq_refl) as H4.
  vm_compute in H4.
  pose proof (sequential_settle _ _ 1%nat H4 eq_refl) as H5.
  vm_compute in H5.
  pose proof (sequential_resume _ _ 1%nat H5 eq_refl) as H6.
  vm_compute in H6.
  pose proof (sequential_settle _ _ 1%nat H6 eq_refl) as H7.
  vm_compute in H7.
  pose proof (proj1 (sequential_calls_hold_one_resource _ H7)) as Hle.
  vm_compute in Hle |- *. exact Hle.
Defined.

End PlayerMore.

(** ** The screens and the player *)

Module ScreenFacts.
Import Player Status Screens Samples MoreSamples PlayerFacts PlayerMore.


(** A handler that sets the queue and the source and then plays. *)
Lemma play_queued σ songs source song :
  idle σ → willing σ →
  run (playSong (state σ) song) (queued σ songs source)
  = now_playing (queued σ songs source) song.
Proof. intros Hidle Hw. by apply playSong_willing. Qed.

Lemma queued_eq σ songs source :
  apply (setPlaylist songs) (apply (setPlaylistSource source) σ)
  = queued σ songs source
  ∧ apply (setPlaylistSource source) (apply (setPlaylist songs) σ)
    = queued σ songs source.
Proof. done. Qed.

Lemma same_id_true current song :
  same_id current song = true
  ↔ ∃ c, current = Some c ∧ song_id c = song_id song.
Proof.
  destruct current as [c|]; cbn.
  - rewrite bool_decide_eq_true. split; [eauto|]. by intros (? & [= <-] & ?).
  - split; [done|]. by intros (? & ? & ?).
Qed.

Lemma library_press σ song :
  idle σ → willing σ →
  same_id (currentSong (state σ)) song && isPlaying (state σ) = false →
  press (λ snap, LibraryScreen.handlePlaySong snap song) σ
  = now_playing (queued σ [song] "library") song.
Proof.
  intros Hidle Hw Hguard.
  unfold press, LibraryScreen.handlePlaySong. rewrite Hguard.
  cbn [fst run]. rewrite (proj1 (queued_eq _ _ _)). by apply play_queued.
Qed.



(** X23: the play button of a playlist, in the list of playlists and in
    the playlist screen, on a provider at rest with a runtime that
    rejects nothing.  For an empty playlist nothing is called.  When the
    first song of the playlist is the current song, is playing, and the
    source is the one of the screen, nothing is called either: the queue
    is left as it is, whatever the other songs of the playlist are.
    Otherwise the songs of the playlist become the queue, the source
    becomes the one of the screen, and the first song is started. *)
Theorem play_button_of_playlist (σ : Session) (p : Playlist) :
  idle σ → willing σ →
  let from_list := press (λ snap, PlaylistScreen.handlePlayPlaylist snap p) σ in
  let from_detail :=
    press (λ snap, PlaylistDetailScreen.handlePlayPlaylist snap (Some p)) σ in
  let already first source :=
    same_id (currentSong (state σ)) first && isPlaying (state σ)
    && bool_decide (playlistSource (state σ) = source) in
  match pl_songs p with
  | [] => from_list = σ ∧ from_detail = σ
  | first :: _ =>
      from_list
      = (if already first "playlist" then σ
         else now_playing (queued σ (pl_songs p) "playlist") first)
      ∧ from_detail
        = (if already first "playlist-detail" then σ
           else now_playing (queued σ (pl_songs p) "playlist-detail") first)
  end.
Proof.
  intros Hidle Hw. cbv zeta.
  unfold press, PlaylistScreen.handlePlayPlaylist,
    PlaylistDetailScreen.handlePlayPlaylist.
  destruct (pl_songs p) as [|first rest] eqn:Hsongs; [done|].
  cbn [length head]. rewrite (proj2 (Z.eqb_neq _ 0)) by lia.
  split.
  - destruct (same_id _ _ && _ && _); [done|].
    cbn [fst run]. rewrite (proj2 (queued_eq _ _ _)). by apply play_queued.
  - destruct (same_id _ _ && _ && _); [done|].
    cbn [fst run]. rewrite (proj2 (queued_eq _ _ _)). by apply play_queued.
Qed.

Lemma play_button_of_playlist_witness :
  press (λ snap, PlaylistScreen.handlePlayPlaylist snap mixtape) playing
  = now_playing (queued playing [song1; song2; song3; song4] "playlist") song1
  ∧ press (λ snap, PlaylistScreen.handlePlayPlaylist snap
                     (mkPlaylist "playlist_2" "Other" [song2; song4]
                        "2024-01-01T00:00:00.000Z" "2024-01-01T00:00:00.000Z"
                        (Some "c2.jpg")))
      playing
    = playing.
Proof.
  split.
  - exact (proj1 (play_button_of_playlist playing mixtape
                    idle_playing eq_refl)).
  - exact (proj1 (play_button_of_playlist playing
                    (mkPlaylist "playlist_2" "Other" [song2; song4]
                       "2024-01-01T00:00:00.000Z" "2024-01-01T00:00:00.000Z"
                       (Some "c2.jpg"))
                    idle_playing eq_refl)).
Defined.

Lemma same_id_sym a b c :
  song_id a = song_id b → same_id (Some a) c = same_id (Some b) c.
Proof. intros Heq. cbn. by rewrite Heq. Qed.

(** X24: a song tapped in the playlist screen, on a provider at rest
    with a runtime that rejects nothing, unless a song with that id is
    already playing: the songs of the playlist become the queue, the
    source becomes "playlist-detail" and the song is started.  From
    then on the playlist screen marks as now playing exactly the items
    with the id of that song, and the library marks none. *)
Theorem song_of_playlist_is_marked
    (σ : Session) (p : Playlist) (song : DownloadedSong) :
  idle σ → willing σ →
  same_id (currentSong (state σ)) song && isPlaying (state σ) = false →
  let σ' :=
    press (λ snap, PlaylistDetailScreen.handlePlaySong snap (Some p) song) σ in
  σ' = now_playing (queued σ (pl_songs p) "playlist-detail") song
  ∧ (∀ item, PlaylistDetailScreen.showNowPlaying (state σ') item = true
             ↔ song_id item = song_id song)
  ∧ (∀ item, LibraryScreen.showNowPlaying (state σ') item = false).
Proof.
  intros Hidle Hw Hguard σ'.
  assert (σ' = now_playing (queued σ (pl_songs p) "playlist-detail") song)
    as Hσ'.
  { unfold σ', press, PlaylistDetailScreen.handlePlaySong. rewrite Hguard.
    cbn [fst run]. rewrite (proj2 (queued_eq _ _ _)). by apply play_queued. }
  split; [done|]. rewrite Hσ'. split.
  - intros item. unfold PlaylistDetailScreen.showNowPlaying. cbn.
    rewrite andb_true_r, bool_decide_eq_true. done.
  - intros item. unfold LibraryScreen.showNowPlaying. cbn.
    apply andb_false_r.
Qed.

Lemma song_of_playlist_is_marked_witness :
  PlaylistDetailScreen.showNowPlaying
    (state (press (λ snap, PlaylistDetailScreen.handlePlaySong snap
                             (Some mixtape) song4) playing))
    song4 = true
  ∧ playlist
      (state (press (λ snap, PlaylistDetailScreen.handlePlaySong snap
                               (Some mixtape) song4) playing))
    = [song1; song2; song3; song4].
Proof.
  destruct (song_of_playlist_is_marked playing mixtape song4
              idle_playing eq_refl eq_refl) as (H1 & H2 & _).
  split; [by apply H2|by rewrite H1].
Defined.

(** X25: a song that plays from the library and is then tapped in the
    playlist screen: the second tap calls nothing, because a song with
    that id is playing.  The queue stays the single song, the source
    stays "library", and the playlist screen marks no item as now
    playing, that song included. *)
Theorem library_song_tapped_in_playlist
    (σ : Session) (playlist : option Playlist) (song : DownloadedSong) :
  idle σ → willing σ →
  same_id (currentSong (state σ)) song && isPlaying (state σ) = false →
  let σ1 := press (λ snap, LibraryScreen.handlePlaySong snap song) σ in
  let σ2 :=
    press (λ snap, PlaylistDetailScreen.handlePlaySong snap playlist song)
      σ1 in
  σ2 = σ1
  ∧ Player.playlist (state σ2) = [song]
  ∧ playlistSource (state σ2) = "library"
  ∧ (∀ item, PlaylistDetailScreen.showNowPlaying (state σ2) item = false).
Proof.
  intros Hidle Hw Hguard σ1 σ2.
  pose proof (library_press σ song Hidle Hw Hguard) as Hσ1.
  fold σ1 in Hσ1.
  assert (σ2 = σ1) as ->.
  { unfold σ2, press, PlaylistDetailScreen.handlePlaySong.
    destruct playlist as [p|]; [|done]. rewrite Hσ1. cbn.
    by rewrite bool_decide_true. }
  rewrite Hσ1. split_and!; try done.
  intros item. unfold PlaylistDetailScreen.showNowPlaying. cbn.
  apply andb_false_r.
Qed.

Lemma library_song_tapped_in_playlist_witness :
  Player.playlist
    (state
       (press (λ snap, PlaylistDetailScreen.handlePlaySong snap
                         (Some mixtape) song1)
          (press (λ snap, LibraryScreen.handlePlaySong snap song1) playing)))
  = [song1].
Proof.
  destruct (library_song_tapped_in_playlist playing (Some mixtape) song1
              idle_playing eq_refl eq_refl) as (_ & H & _).
  exact H.
Defined.

End ScreenFacts.

(** ** The playlist screen and the store *)

Module PlaylistDetailDataFacts.
Import Store StoreNotions Screens PlaylistDetailData Samples ScreenSamples
  StoreFacts StoreMore.

Lemma loadPlaylistData_eq playlistId downloads s w :
  loadPlaylistData playlistId downloads s w
  = match downloads with
    | Resolved allSongs =>
        (Resolved
           match lookup_playlist playlistId (read w).1 with
           | Some p => loaded_with p allSongs s
           | None =>
               setIsLoading false
                 (show to_playlists (show not_found_alert s))
           end,
         (read w).2)
    | Rejected e =>
        (Resolved (setIsLoading false (show load_failed_alert s)),
         logged "Error loading playlist:" (read w).2)
    end.
Proof.
  unfold loadPlaylistData, try_catch, mbind, Async_bind, settled.
  rewrite getPlaylist_eq.
  destruct downloads as [allSongs|e]; [|done].
  by destruct (lookup_playlist playlistId (read w).1).
Qed.

Lemma loadPlaylistData_quiet playlistId allSongs s w p :
  faults w = [] →
  lookup_playlist playlistId (stored w) = Some p →
  loadPlaylistData playlistId (Resolved allSongs) s w
  = (Resolved (loaded_with p allSongs s), w).
Proof.
  intros Hq Hp. rewrite loadPlaylistData_eq, (read_quiet w Hq).
  cbn [fst snd]. by rewrite Hp.
Qed.

Lemma in_sync_loaded playlistId allSongs s w p :
  lookup_playlist playlistId (stored w) = Some p →
  in_sync playlistId allSongs (loaded_with p allSongs s) w.
Proof. intros Hp. by exists p. Qed.

Lemma some_snoc {A} (P : A → Prop) `{!∀ x, Decision (P x)}
    (l : list A) (a : A) :
  some P (l ++ [a]) = some P l || bool_decide (P a).
Proof.
  unfold some. rewrite <- bool_decide_or. apply bool_decide_ext.
  rewrite Exists_app, Exists_cons, Exists_nil. tauto.
Qed.

Lemma songsNotInPlaylist_spec p allSongs song :
  song ∈ songsNotInPlaylist p allSongs
  ↔ song ∈ allSongs ∧ ¬ has_song p (song_id song).
Proof.
  unfold songsNotInPlaylist. rewrite list_elem_of_filter.
  rewrite not_has_song_some, negb_True, Is_true_true. 
  destruct (some _ (pl_songs p)); intuition congruence.
Qed.

Lemma songsNotInPlaylist_added p allSongs song now :
  songsNotInPlaylist (added p song now) allSongs
  = filter (λ x, song_id x ≠ song_id song) (songsNotInPlaylist p allSongs).
Proof.
  unfold songsNotInPlaylist. rewrite list_filter_filter.
  apply list_filter_iff. intros x. cbn [added pl_songs].
  rewrite some_snoc, negb_orb, andb_True, !negb_True, bool_decide_spec.
  intuition congruence.
Qed.

Lemma handleAddSong_new playlistId allSongs song s w p :
  faults w = [] →
  lookup_playlist playlistId (stored w) = Some p →
  ¬ has_song p (song_id song) →
  let p' := added p song (toISOString (hd epoch (clock w))) in
  let w' := written (upsert (stored w) p') (after_clock w) in
  handleAddSong playlistId (Resolved allSongs) song s w
  = (Resolved
       (loaded_with p' allSongs
          (show song_added_toast (setShowAddSongsModal false s))),
     w')
  ∧ lookup_playlist playlistId (stored w') = Some p'.
Proof.
  intros Hq Hp Hnew p' w'.
  assert (lookup_playlist playlistId (stored w') = Some p') as Hp'.
  { unfold w'. rewrite written_stored. by eapply lookup_upsert_at. }
  split; [|done].
  unfold handleAddSong, try_catch, mbind, Async_bind.
  rewrite (addSongToPlaylist_quiet w playlistId song p Hq Hp Hnew).
  fold p' w'. by rewrite (loadPlaylistData_quiet _ _ _ w' p').
Qed.

Lemma handleAddSong_duplicate playlistId downloads song s w p :
  faults w = [] →
  lookup_playlist playlistId (stored w) = Some p →
  has_song p (song_id song) →
  handleAddSong playlistId downloads song s w
  = (Resolved (show add_failed_toast s),
     logged "Error adding song:"
       (logged "Error adding song to playlist:" w)).
Proof.
  intros Hq Hp Hdup.
  unfold handleAddSong, try_catch, mbind, Async_bind.
  rewrite addSongToPlaylist_eq, (read_quiet w Hq). cbn [fst snd].
  rewrite Hp. apply has_song_some in Hdup. by rewrite Hdup.
Qed.

Lemma handleRemoveSong_quiet playlistId allSongs song s w p :
  faults w = [] →
  lookup_playlist playlistId (stored w) = Some p →
  let p' := removed p (song_id song) (toISOString (hd epoch (clock w))) in
  let w' := written (upsert (stored w) p') (after_clock w) in
  handleRemoveSong playlistId (Resolved allSongs) song s w
  = (Resolved (loaded_with p' allSongs s), w')
  ∧ lookup_playlist playlistId (stored w') = Some p'.
Proof.
  intros Hq Hp p' w'.
  assert (lookup_playlist playlistId (stored w') = Some p') as Hp'.
  { unfold w'. rewrite written_stored. by eapply lookup_upsert_at. }
  split; [|done].
  unfold handleRemoveSong, try_catch, mbind, Async_bind.
  rewrite (removeSongFromPlaylist_quiet w playlistId (song_id song) p Hq Hp).
  fold p' w'. by rewrite (loadPlaylistData_quiet _ _ _ w' p').
Qed.

(** X26: the playlist screen stays in step with the store.  With a
    storage that fails nowhere and a screen that shows the stored
    playlist and offers the downloaded songs that are not in it: after
    [handleAddSong], and after the removal confirmed in
    [handleRemoveSong], of any song (whether the call ended well or
    not), and after [loadPlaylistData] from any state of the screen, the
    screen again shows the playlist as it is then stored and offers
    the downloaded songs that are not in it. *)
Theorem screen_stays_in_sync
    (playlistId : string) (allSongs : list DownloadedSong)
    (s : Screen) (w : World) :
  faults w = [] →
  in_sync playlistId allSongs s w →
  (∀ song, ∃ s' w',
     handleAddSong playlistId (Resolved allSongs) song s w
       = (Resolved s', w')
     ∧ in_sync playlistId allSongs s' w' ∧ faults w' = [])
  ∧ (∀ song, ∃ s' w',
     handleRemoveSong playlistId (Resolved allSongs) song s w
       = (Resolved s', w')
     ∧ in_sync playlistId allSongs s' w' ∧ faults w' = [])
  ∧ (∀ s0, ∃ s',
     loadPlaylistData playlistId (Resolved allSongs) s0 w = (Resolved s', w)
     ∧ in_sync playlistId allSongs s' w).
Proof.
  intros Hq (p & Hp & Hs & Ha). split_and!.
  - intros song.
    destruct (some (λ x, song_id x = song_id song) (pl_songs p)) eqn:E;
      [apply has_song_some in E as Hdup
      |apply not_has_song_some in E as Hnew].
    + eexists _, _. split; [by eapply handleAddSong_duplicate|].
      split; [|done]. by exists p.
    + destruct (handleAddSong_new playlistId allSongs song s w p Hq Hp Hnew)
        as [Heq Hp'].
      eexists _, _. split; [exact Heq|]. split; [|done].
      by apply in_sync_loaded.
  - intros song.
    destruct (handleRemoveSong_quiet playlistId allSongs song s w p Hq Hp)
      as [Heq Hp'].
    eexists _, _. split; [exact Heq|]. split; [|done].
    by apply in_sync_loaded.
  - intros s0. eexists. split; [by eapply loadPlaylistData_quiet|].
    by apply in_sync_loaded.
Qed.

Lemma screen_stays_in_sync_witness :
  ∃ s' w',
    handleRemoveSong (pl_id road_trip) (Resolved downloads) song1
      road_trip_screen quiet_world = (Resolved s', w')
    ∧ in_sync (pl_id road_trip) downloads s' w'.
Proof.
  assert (in_sync (pl_id road_trip) downloads road_trip_screen quiet_world)
    as Hsync by (exists road_trip; split_and!; reflexivity).
  destruct (screen_stays_in_sync (pl_id road_trip) downloads
              road_trip_screen quiet_world eq_refl Hsync) as (_ & H & _).
  destruct (H song1) as (s' & w' & H1 & H2 & _).
  by exists s', w'.
Defined.

(** X27: a song offered in the modal can be added.  With a storage that
    fails nowhere and a screen in step with the store, [handleAddSong]
    of a song among [availableSongs] never meets "Song already exists in
    playlist": it shows "Song Added" and nothing else, closes the modal,
    the playlist shown and stored ends with that song, and the songs
    offered are the ones offered before without those that have its
    id. *)
Theorem offered_song_is_added
    (playlistId : string) (allSongs : list DownloadedSong)
    (s : Screen) (w : World) (song : DownloadedSong) :
  faults w = [] →
  in_sync playlistId allSongs s w →
  song ∈ availableSongs s →
  ∃ s' w' p p',
    handleAddSong playlistId (Resolved allSongs) song s w = (Resolved s', w')
    ∧ playlist s = Some p
    ∧ playlist s' = Some p'
    ∧ lookup_playlist playlistId (stored w') = Some p'
    ∧ pl_songs p' = pl_songs p ++ [song]
    ∧ availableSongs s'
      = filter (λ x, song_id x ≠ song_id song) (availableSongs s)
    ∧ showAddSongsModal s' = false
    ∧ shown s' = song_added_toast :: shown s.
Proof.
  intros Hq (p & Hp & Hs & Ha) Hoffered.
  rewrite Ha in Hoffered.
  apply songsNotInPlaylist_spec in Hoffered as [_ Hnew].
  destruct (handleAddSong_new playlistId allSongs song s w p Hq Hp Hnew)
    as [Heq Hp'].
  eexists _, _, p, _. split; [exact Heq|]. split_and!; try done.
  cbn [loaded_with availableSongs]. by rewrite songsNotInPlaylist_added, Ha.
Qed.

Lemma offered_song_is_added_witness :
  ∃ s' w' p',
    handleAddSong (pl_id road_trip) (Resolved downloads) song2
      road_trip_screen quiet_world = (Resolved s', w')
    ∧ playlist s' = Some p'
    ∧ pl_songs p' = [song1; song2]
    ∧ availableSongs s' = [song3]
    ∧ shown s' = [song_added_toast].
Proof.
  assert (in_sync (pl_id road_trip) downloads road_trip_screen quiet_world)
    as Hsync by (exists road_trip; split_and!; reflexivity).
  assert (song2 ∈ availableSongs road_trip_screen) as Hoffered
    by (apply (bool_decide_unpack _); reflexivity).
  destruct (offered_song_is_added (pl_id road_trip) downloads
              road_trip_screen quiet_world song2 eq_refl Hsync Hoffered)
    as (s' & w' & p & p' & H1 & H2 & H3 & _ & H5 & H6 & _ & H8).
  exists s', w', p'. injection H2 as <-. by rewrite H6.
Defined.

(** X28: what [loadPlaylistData] shows when something fails.  When the
    read of the storage is rejected, the screen shows "Playlist not
    found" and leads back to the list of playlists, whether or not the
    playlist is stored; nothing is written.  When [getDownloadedSongs]
    is rejected it shows "Failed to load playlist" and stays.  In both
    cases the playlist shown and the songs offered are left as they
    were, and [isLoading] is unset. *)
Theorem loadPlaylistData_failures
    (playlistId : string) (s : Screen) (w : World) (e : Error) :
  (hd None (faults w) = Some e →
   ∀ allSongs, ∃ s' w',
     loadPlaylistData playlistId (Resolved allSongs) s w = (Resolved s', w')
     ∧ shown s' = to_playlists :: not_found_alert :: shown s
     ∧ playlist s' = playlist s
     ∧ availableSongs s' = availableSongs s
     ∧ isLoading s' = false
     ∧ storage w' = storage w)
  ∧ (∃ s' w',
     loadPlaylistData playlistId (Rejected e) s w = (Resolved s', w')
     ∧ shown s' = load_failed_alert :: shown s
     ∧ playlist s' = playlist s
     ∧ availableSongs s' = availableSongs s
     ∧ isLoading s' = false
     ∧ storage w' = storage w).
Proof.
  split.
  - intros Hfail allSongs. rewrite loadPlaylistData_eq.
    unfold read. rewrite Hfail. by eexists _, _.
  - rewrite loadPlaylistData_eq. eexists _, _. split; [done|].
    split_and!; try done. unfold read. by destruct (hd None (faults w)).
Qed.

Lemma loadPlaylistData_failures_witness :
  lookup_playlist (pl_id road_trip) (stored failing_read) = Some road_trip
  ∧ ∃ s' w',
      loadPlaylistData (pl_id road_trip) (Resolved downloads)
        road_trip_screen failing_read = (Resolved s', w')
      ∧ shown s' = [to_playlists; not_found_alert].
Proof.
  split; [reflexivity|].
  destruct (loadPlaylistData_failures (pl_id road_trip) road_trip_screen
              failing_read (mkError "storage unavailable")) as [H _].
  destruct (H eq_refl downloads) as (s' & w' & H1 & H2 & _).
  by exists s', w'.
Defined.

End PlaylistDetailDataFacts.

(** ** Dragging a song and dragging it back *)

Module PlaylistDetailMore.
Import PlaylistDetail Samples.

Lemma splice_remove_middle {A} (pre post : list A) (x : A) :
  splice_remove (length pre) (pre ++ x :: post) = pre ++ post.
Proof.
  unfold splice_remove. rewrite take_app_length. f_equal.
  rewrite (cons_middle x pre post), (assoc_L (++)).
  apply drop_app_length'. rewrite length_app. cbn. lia.
Qed.

Lemma splice_insert_remove {A} (to : nat) (x : A) (m : list A) :
  (to ≤ length m)%nat →
  splice_insert to x m !! to = Some x
  ∧ splice_remove to (splice_insert to x m) = m.
Proof.
  intros Hto. unfold splice_insert.
  assert (length (take to m) = to) as Hlen by (rewrite length_take; lia).
  split.
  - by apply list_lookup_middle.
  - rewrite <- Hlen at 1. rewrite splice_remove_middle. apply take_drop.
Qed.

Lemma newSongs_middle (pre post : list DownloadedSong) x to :
  newSongs (pre ++ x :: post) (length pre) to
  = Some (splice_insert to x (pre ++ post)).
Proof.
  unfold newSongs. rewrite list_lookup_middle by done. cbn.
  by rewrite splice_remove_middle.
Qed.

Lemma newSongs_back (songs : list DownloadedSong) (from to : nat) :
  (from < length songs)%nat → (to < length songs)%nat →
  ∃ l, newSongs songs from to = Some l
       ∧ l ≡ₚ songs
       ∧ newSongs l to from = Some songs.
Proof.
  intros Hf Ht. destruct (lookup_lt_is_Some_2 songs from Hf) as [x Hx].
  apply list_elem_of_split_length in Hx as (pre & post & -> & ->).
  rewrite length_app in Ht. cbn in Ht.
  assert (to ≤ length (pre ++ post))%nat as Hto
    by (rewrite length_app; lia).
  exists (splice_insert to x (pre ++ post)). split_and!.
  - apply newSongs_middle.
  - unfold splice_insert.
    rewrite <- !Permutation_middle. by rewrite take_drop.
  - destruct (splice_insert_remove to x (pre ++ post) Hto) as [Hl Hr].
    unfold newSongs. rewrite Hl. cbn. rewrite Hr.
    unfold splice_insert. by rewrite take_app_length, drop_app_length.
Qed.

(** X29: dragging a song from one position of the playlist shown to
    another loses and repeats no song, and dragging it back gives the
    playlist as it was.  Both positions are positions of the songs, and
    the handler runs in the render that shows the playlist. *)
Theorem drag_and_drop_back (playlist : Playlist) (from to : nat) :
  (from < length (pl_songs playlist))%nat →
  (to < length (pl_songs playlist))%nat →
  ∃ moved,
    onDragEnd playlist playlist from to = Some moved
    ∧ pl_songs moved ≡ₚ pl_songs playlist
    ∧ onDragEnd moved moved to from = Some playlist.
Proof.
  intros Hf Ht. unfold onDragEnd.
  destruct (decide (from = to)) as [->|Hne].
  - exists playlist. rewrite decide_False by (intros H; by apply H). done.
  - rewrite decide_True by done.
    destruct (newSongs_back _ _ _ Hf Ht) as (l & Hl & Hperm & Hback).
    rewrite Hl. cbn [mbind option_bind]. eexists. split; [reflexivity|].
    cbn [pl_songs pl_id pl_name pl_createdAt pl_updatedAt pl_coverImage].
    split; [exact Hperm|].
    rewrite decide_True by (intros Heq; by apply Hne).
    rewrite Hback. cbn. by destruct playlist.
Qed.

Lemma drag_and_drop_back_witness :
  ∃ moved,
    onDragEnd mixtape mixtape 0 2 = Some moved
    ∧ pl_songs moved ≡ₚ [song1; song2; song3; song4]
    ∧ onDragEnd moved moved 2 0 = Some mixtape.
Proof.
  apply (drag_and_drop_back mixtape 0 2); cbn; lia.
Defined.

End PlaylistDetailMore.
